(** * Presko: maintenance lifecycle and bulk notification core

    A shallow embedding of the date derivation of the [devices] table
    (supabase/migrations/presko_migration.sql), of the status classifier of
    ClientDevicesTable.tsx, of the grouping reducers of DevicesOverdueCard.tsx
    and DevicesDueCard.tsx, and of the bulk SMS loop of pages/api/one-sms.ts,
    with the properties the specification states about them. *)

From Stdlib Require Import ZArith List String Ascii Bool Lia.
From Stdlib Require Import Sorting.Sorted Sorting.Permutation.
From Stdlib Require Import DecimalString.
Import ListNotations.

Open Scope Z_scope.

Notation "a +++ b" := (String.append a b) (at level 60, right associativity).

(** ** JavaScript values used by the components *)

Module Js.

(** [Boolean(s)] for a value of type [string | null]: null and the empty
    string are falsy. *)
Definition truthy (v : option string) : bool :=
  match v with
  | None => false
  | Some EmptyString => false
  | Some _ => true
  end.

(** [v || dflt] for a value of type [string | null]. *)
Definition or_else (v : option string) (dflt : string) : string :=
  match v with
  | Some (String c s) => String c s
  | _ => dflt
  end.

(** [String(v)] for a value of type [string | null]. *)
Definition String_ (v : option string) : string :=
  match v with
  | Some s => s
  | None => "null"%string
  end.

(** [m.get(k)] on a [Map] with string keys, or [obj[k]] on an object used as
    one: the entries are kept in insertion order. *)
Fixpoint get {V : Type} (m : list (string * V)) (k : string) : option V :=
  match m with
  | [] => None
  | (k', v) :: m' => if String.eqb k' k then Some v else get m' k
  end.

(** [m.set(k, v)] or [obj[k] = v]: an existing key keeps its place. *)
Fixpoint set {V : Type} (m : list (string * V)) (k : string) (v : V)
  : list (string * V) :=
  match m with
  | [] => [(k, v)]
  | (k', v') :: m' =>
    if String.eqb k' k then (k', v) :: m' else (k', v') :: set m' k v
  end.

(** [Math.ceil(x / d)] for integers [x] and [d > 0]. With [d] the
    milliseconds of a day and [x] the time between two instants less than
    2^27 days apart, the floating-point quotient is a whole number only when
    the exact one is, so that the ceiling is the exact one. *)
Definition ceil_div (x d : Z) : Z := - ((- x) / d).

(** [Array.prototype.sort(cmp)] with a numeric comparator: the stable sorted
    arrangement, built by insertion from the right. An element goes in front
    of the first later element that it does not compare above, so that
    elements that compare equal keep their order. *)
Section Sort.
Context {A : Type} (cmp : A -> A -> Z).

Fixpoint insert (x : A) (l : list A) : list A :=
  match l with
  | [] => [x]
  | y :: l' => if cmp x y <=? 0 then x :: y :: l' else y :: insert x l'
  end.

Fixpoint sort (l : list A) : list A :=
  match l with
  | [] => []
  | x :: l' => insert x (sort l')
  end.
End Sort.


(** The comparator orders the elements of [l] as the numeric key does. *)
Definition by_key {A : Type} (cmp : A -> A -> Z) (key : A -> Z) (l : list A)
  : Prop :=
  forall x y, In x l -> In y l -> (cmp x y <=? 0) = (key x <=? key y).

End Js.

(** ** Calendar dates, their ISO rendering and the [Date] timestamps *)

Module Calendar.

Record date := mkDate { year : Z; month : Z; day : Z }.

Definition is_leap (y : Z) : bool :=
  ((y mod 4 =? 0) && negb (y mod 100 =? 0)) || (y mod 400 =? 0).

Definition days_in_month (y m : Z) : Z :=
  match m with
  | 2 => if is_leap y then 29 else 28
  | 4 | 6 | 9 | 11 => 30
  | _ => 31
  end.

(** A date of the calendar. *)
Definition valid_date (d : date) : Prop :=
  1 <= month d <= 12 /\ 1 <= day d <= days_in_month (year d) (month d).

(** A date that a [DATE] column renders as [YYYY-MM-DD]. *)
Definition iso_date (d : date) : Prop :=
  0 <= year d <= 9999 /\ valid_date d.

Definition valid_dateb (d : date) : bool :=
  (1 <=? month d) && (month d <=? 12) && (1 <=? day d)
  && (day d <=? days_in_month (year d) (month d)).

(** Leap years among the years [1 .. y-1]. *)
Definition leaps_before (y : Z) : Z :=
  (y - 1) / 4 - (y - 1) / 100 + (y - 1) / 400.

(** Days from 1970-01-01 to the first of January of year [y]. *)
Definition days_before_year (y : Z) : Z :=
  365 * (y - 1970) + (leaps_before y - leaps_before 1970).

(** Days from the first of January to the first of month [m]. *)
Definition days_before_month (y m : Z) : Z :=
  match m with
  | 1 => 0
  | 2 => 31
  | _ =>
    (match m with
     | 3 => 59 | 4 => 90 | 5 => 120 | 6 => 151 | 7 => 181 | 8 => 212
     | 9 => 243 | 10 => 273 | 11 => 304 | _ => 334
     end) + (if is_leap y then 1 else 0)
  end.

(** Days since the epoch 1970-01-01. *)
Definition day_number (d : date) : Z :=
  days_before_year (year d) + days_before_month (year d) (month d)
  + (day d - 1).

Definition ms_per_day : Z := 1000 * 60 * 60 * 24.

(** The timestamp of a date at 00:00 UTC, in milliseconds. *)
Definition epoch_ms (d : date) : Z := day_number d * ms_per_day.

(** The UTC day of an instant given in milliseconds. *)
Definition day_of_instant (t : Z) : Z := t / ms_per_day.

(** *** [date + INTERVAL 'n months'] of PostgreSQL: the month moves by [n],
    the day is kept, and cut to the last day of the month reached. *)
Definition add_months (d : date) (n : Z) : date :=
  let total := year d * 12 + (month d - 1) + n in
  let y := total / 12 in
  let m := total mod 12 + 1 in
  mkDate y m (Z.min (day d) (days_in_month y m)).

(** *** Rendering as [YYYY-MM-DD] *)

Definition digit (n : Z) : ascii := ascii_of_N (48 + Z.to_N n).

Definition pad2 (n : Z) (rest : string) : string :=
  String (digit (n / 10)) (String (digit (n mod 10)) rest).

Definition pad4 (n : Z) (rest : string) : string :=
  pad2 (n / 100) (pad2 (n mod 100) rest).

Definition hyphen : ascii := ascii_of_N 45.

Definition iso (d : date) : string :=
  pad4 (year d) (String hyphen (pad2 (month d) (String hyphen (pad2 (day d) EmptyString)))).

(** *** [new Date(s)] on a date-only string.
    The ten-character form [YYYY-MM-DD] is read as that day at 00:00 UTC.
    Every other string is an invalid date here: its [getTime()] is NaN. *)

Definition digit_val (c : ascii) : option Z :=
  let n := Z.of_N (N_of_ascii c) in
  if (48 <=? n) && (n <=? 57) then Some (n - 48) else None.

Definition num2 (a b : ascii) : option Z :=
  match digit_val a, digit_val b with
  | Some x, Some y => Some (10 * x + y)
  | _, _ => None
  end.

Definition parse_iso (s : string) : option date :=
  match s with
  | String y1 (String y2 (String y3 (String y4 (String h1
      (String m1 (String m2 (String h2 (String d1 (String d2 EmptyString))))))))) =>
    if Ascii.eqb h1 hyphen && Ascii.eqb h2 hyphen then
      match num2 y1 y2, num2 y3 y4, num2 m1 m2, num2 d1 d2 with
      | Some yh, Some yl, Some m, Some d =>
        let dt := mkDate (100 * yh + yl) m d in
        if valid_dateb dt then Some dt else None
      | _, _, _, _ => None
      end
    else None
  | _ => None
  end.

(** [new Date(s).getTime()]; [None] stands for NaN. *)
Definition getTime (s : string) : option Z :=
  option_map epoch_ms (parse_iso s).

(** *** Orders on dates *)

Definition then_cmp (c c' : comparison) : comparison :=
  match c with Eq => c' | _ => c end.

(** The order of dates by year, then month, then day. *)
Definition date_compare (d1 d2 : date) : comparison :=
  then_cmp (year d1 ?= year d2)
           (then_cmp (month d1 ?= month d2) (day d1 ?= day d2)).

Definition year_length (y : Z) : Z := if is_leap y then 366 else 365.

(** Months since the year 0. *)
Definition month_index (d : date) : Z := year d * 12 + (month d - 1).

(** A string that is the rendering of a date. *)
Definition is_iso (s : string) : Prop := exists d, iso_date d /\ s = iso d.

End Calendar.

(** ** The [devices] table: stored dates and generated due dates *)

Module Schema.
Import Calendar.

(** The date columns of a row of [public.devices]. *)
Record devices := mkRow {
  last_cleaning_date : option date;
  last_repair_date : option date
}.

(** [col + INTERVAL 'n months'] on a nullable column: null stays null. *)
Definition plus_months (col : option date) (n : Z) : option date :=
  option_map (fun d => add_months d n) col.

(** [GENERATED ALWAYS AS (last_cleaning_date + INTERVAL '3 months') STORED] *)
Definition due_3_months (r : devices) : option date :=
  plus_months (last_cleaning_date r) 3.

(** [GENERATED ALWAYS AS (last_cleaning_date + INTERVAL '4 months') STORED] *)
Definition due_4_months (r : devices) : option date :=
  plus_months (last_cleaning_date r) 4.

(** [GENERATED ALWAYS AS (last_cleaning_date + INTERVAL '6 months') STORED] *)
Definition due_6_months (r : devices) : option date :=
  plus_months (last_cleaning_date r) 6.

End Schema.

(** ** ClientDevicesTable.tsx: the status classifier *)

Module DevicesTable.
Import Calendar.

(** Modelled from the spec: the declaration of [Device] (types/database) is
    not among the sources. The record has the date fields that
    [getDeviceStatus] reads, each a nullable date of the [devices] table,
    which reaches the component as a [YYYY-MM-DD] string or null. *)
Record Device := mkDevice {
  last_cleaning_date : option string;
  due_3_months : option string;
  due_4_months : option string;
  due_6_months : option string;
  last_repair_date : option string
}.

(** A row of the table as the component receives it. *)
Definition of_row (r : Schema.devices) : Device :=
  mkDevice (option_map iso (Schema.last_cleaning_date r))
           (option_map iso (Schema.due_3_months r))
           (option_map iso (Schema.due_4_months r))
           (option_map iso (Schema.due_6_months r))
           (option_map iso (Schema.last_repair_date r)).

(** [(a, b) => a.getTime() - b.getTime()]; a NaN difference counts as 0. *)
Definition by_time (a b : option Z) : Z :=
  match a, b with
  | Some x, Some y => x - y
  | _, _ => 0
  end.

(** [new Date(d).getTime()] for [d : string | null]; [None] stands for NaN,
    and [new Date(null)] is the epoch. *)
Definition newDate (d : option string) : option Z :=
  match d with
  | Some s => getTime s
  | None => Some 0
  end.

(** [[d3, d4, d6].filter(Boolean).map((d) => new Date(d))], each [Date] held
    by its [getTime()]. *)
Definition dueDates (device : Device) : list (option Z) :=
  map newDate
      (filter Js.truthy
              [due_3_months device; due_4_months device; due_6_months device]).

(** [getDeviceStatus(device)], with [now] the reading of [new Date()] in
    milliseconds. *)
Definition getDeviceStatus (now : Z) (device : Device) : string :=
  if Js.truthy (last_repair_date device) then "repair"%string
  else if Js.truthy (due_3_months device) || Js.truthy (due_4_months device)
          || Js.truthy (due_6_months device) then
    match Js.sort by_time (dueDates device) with
    | Some nearestDue :: _ =>
      if nearestDue <? now then "due"%string else "maintain"%string
    | _ => "maintain"%string
    end
  else if negb (Js.truthy (last_cleaning_date device)) then "scheduled"%string
  else "scheduled"%string.

(** A due date field as the table gives it: null or the rendering of a date. *)
Definition date_or_null (v : option string) : Prop :=
  v = None \/ exists d, iso_date d /\ v = Some (iso d).

Definition dues (device : Device) : list (option string) :=
  [due_3_months device; due_4_months device; due_6_months device].

(** The number a [Date] sorts by. *)
Definition time_key (v : option Z) : Z :=
  match v with Some t => t | None => 0 end.

(** The rule as the specification words it: the nearest due date is compared
    with the date of [now], without time of day. *)
Definition date_only_rule (now : Z) (nearest : date) : string :=
  if day_number nearest <? day_of_instant now then "due"%string
  else "maintain"%string.

End DevicesTable.

(** ** DevicesOverdueCard.tsx: grouping with one obligation per device *)

Module OverdueCard.
Import Calendar.

(** Modelled from the spec: the declaration of [DeviceOverdue]
    (types/database) is not among the sources. The record has the fields
    that the card reads: the identity and display name of the device, the
    denormalized client and location names, the interval kind and the due
    date of the obligation. *)
Record DeviceOverdue := mkDeviceOverdue {
  id : string;
  name : string;
  client_name : string;
  location_name : string;
  due_type : string;
  due_date : string
}.

(** A [Map<string, DeviceOverdue>]: keys in insertion order. *)
Definition DeviceMap := list (string * DeviceOverdue).

Record Group := mkGroup {
  g_client_name : string;
  g_location_name : string;
  g_devices : DeviceMap
}.

(** The accumulator object of the [reduce]: own string keys, none of which
    is an array index, in insertion order. *)
Definition Acc := list (string * Group).

(** [`${device.client_name}-${device.location_name}`] *)
Definition clientKey (device : DeviceOverdue) : string :=
  client_name device +++ "-" +++ location_name device.

(** [`${device.id}-${device.name}`] *)
Definition deviceKey (device : DeviceOverdue) : string :=
  id device +++ "-" +++ name device.

Definition getServicePriority (dueType : string) : Z :=
  if String.eqb dueType "due_6_months" then 3
  else if String.eqb dueType "due_4_months" then 2
  else 1.

(** [Math.ceil((today.getTime() - due.getTime()) / (1000 * 60 * 60 * 24))];
    [None] stands for NaN. *)
Definition daysOverdue (today : Z) (dueDate : string) : option Z :=
  option_map (fun due => Js.ceil_div (today - due) ms_per_day) (getTime dueDate).

(** [a > b] on numbers; false when either side is NaN. *)
Definition gt (a b : option Z) : bool :=
  match a, b with
  | Some x, Some y => x >? y
  | _, _ => false
  end.

(** Whether the callback stores [device] over [existingDevice]. *)
Definition replaces (today : Z) (device existingDevice : DeviceOverdue) : bool :=
  let currentPriority := getServicePriority (due_type device) in
  let existingPriority := getServicePriority (due_type existingDevice) in
  if currentPriority >? existingPriority then true
  else if currentPriority =? existingPriority then
    gt (daysOverdue today (due_date device))
       (daysOverdue today (due_date existingDevice))
  else false.

(** One call of the reducer; [today] is the reading of [new Date()] made
    during this call. *)
Definition reducer (today : Z) (acc : Acc) (device : DeviceOverdue) : Acc :=
  let acc1 :=
    match Js.get acc (clientKey device) with
    | Some _ => acc
    | None => Js.set acc (clientKey device)
                  (mkGroup (client_name device) (location_name device) [])
    end in
  match Js.get acc1 (clientKey device) with
  | None => acc1
  | Some group =>
    let store :=
      Js.set acc1 (clientKey device)
          (mkGroup (g_client_name group) (g_location_name group)
                   (Js.set (g_devices group) (deviceKey device) device)) in
    match Js.get (g_devices group) (deviceKey device) with
    | None => store
    | Some existingDevice =>
      if replaces today device existingDevice then store else acc1
    end
  end.

(** [devices.reduce(reducer, {})]; [clock i] is the reading of [new Date()]
    during the call for the element of index [i]. *)
Fixpoint reduce_from (clock : nat -> Z) (i : nat) (acc : Acc)
         (devices : list DeviceOverdue) : Acc :=
  match devices with
  | [] => acc
  | device :: rest =>
    reduce_from clock (S i) (reducer (clock i) acc device) rest
  end.

Definition groupedDevices (clock : nat -> Z) (devices : list DeviceOverdue) : Acc :=
  reduce_from clock 0%nat [] devices.

(** A client group once its map is turned into an array. *)
Record ClientGroup := mkClientGroup {
  cg_client_name : string;
  cg_location_name : string;
  cg_devices : list DeviceOverdue
}.

(** [Object.values(groupedDevices).map(group =>
      ({...group, devices: Array.from(group.devices.values())}))] *)
Definition clientGroups (clock : nat -> Z) (devices : list DeviceOverdue)
  : list ClientGroup :=
  map (fun kg => mkClientGroup (g_client_name (snd kg)) (g_location_name (snd kg))
                               (map snd (g_devices (snd kg))))
      (groupedDevices clock devices).

(** The entry kept under a client key and a device key. *)
Definition lookup (acc : Acc) (ck dk : string) : option DeviceOverdue :=
  match Js.get acc ck with
  | Some group => Js.get (g_devices group) dk
  | None => None
  end.

(** No key occurs twice, in the object or in one of its maps. *)
Definition wf (acc : Acc) : Prop :=
  NoDup (map fst acc)
  /\ forall ck g, Js.get acc ck = Some g -> NoDup (map fst (g_devices g)).

(** Every obligation shown, group after group. *)
Definition retained (clock : nat -> Z) (devices : list DeviceOverdue)
  : list DeviceOverdue :=
  flat_map cg_devices (clientGroups clock devices).

(** Two records that the reducer files under the same keys. *)
Definition same_key (d r : DeviceOverdue) : Prop :=
  clientKey d = clientKey r /\ deviceKey d = deviceKey r.

Definition keys (d : DeviceOverdue) : string * string :=
  (clientKey d, deviceKey d).

Definition priority (d : DeviceOverdue) : Z := getServicePriority (due_type d).

Definition days_lt (a b : option Z) : Prop :=
  match a, b with
  | Some x, Some y => x < y
  | _, _ => False
  end.

Definition days_le (a b : option Z) : Prop :=
  match a, b with
  | Some x, Some y => x <= y
  | _, _ => False
  end.

(** [d] comes strictly below [r]: a lower priority, or the same priority
    and fewer days overdue, at whatever instant the days are counted. *)
Definition less_urgent (d r : DeviceOverdue) : Prop :=
  priority d < priority r
  \/ (priority d = priority r
      /\ forall now, days_lt (daysOverdue now (due_date d))
                             (daysOverdue now (due_date r))).

(** [d] does not come above [r]. *)
Definition not_more_urgent (d r : DeviceOverdue) : Prop :=
  priority d < priority r
  \/ (priority d = priority r
      /\ forall now, days_le (daysOverdue now (due_date d))
                             (daysOverdue now (due_date r))).

(** [r] is the first of the most urgent records filed under its keys. *)
Definition first_best (r : DeviceOverdue) (devices : list DeviceOverdue) : Prop :=
  exists before after,
    devices = before ++ r :: after
    /\ (forall d, In d before -> same_key d r -> less_urgent d r)
    /\ (forall d, In d after -> same_key d r -> not_more_urgent d r).


(** Each entry sits under its own keys and is one of the records seen. *)
Definition keyed (acc : Acc) (pre : list DeviceOverdue) : Prop :=
  forall ck dk,
    match lookup acc ck dk with
    | Some r => keys r = (ck, dk) /\ In r pre
    | None => forall d, In d pre -> keys d <> (ck, dk)
    end.

(** Every due date is a [YYYY-MM-DD] string. *)
Definition dated (devices : list DeviceOverdue) : Prop :=
  Forall (fun d => is_iso (due_date d)) devices.

(** Every id is the text of a UUID, 36 characters long. *)
Definition uuid_ids (devices : list DeviceOverdue) : Prop :=
  Forall (fun d => String.length (id d) = 36%nat) devices.



End OverdueCard.

(** ** DevicesDueCard.tsx: grouping of the devices due soon *)

Module DueCard.
Import Calendar.

(** Modelled from the spec: the declaration of [DeviceDueSoon]
    (types/database) is not among the sources. The record has the fields
    that the grouping reads, as for the overdue card. *)
Record DeviceDueSoon := mkDeviceDueSoon {
  id : string;
  name : string;
  client_name : string;
  location_name : string;
  due_type : string;
  due_date : string
}.

Record GroupedClient := mkGroupedClient {
  clientName : string;
  locationName : string;
  devices : list DeviceDueSoon;
  earliestDueDate : string;
  totalDevices : Z
}.

(** A [Map<string, GroupedClient>]: keys in insertion order. *)
Definition ClientMap := list (string * GroupedClient).

(** [`${device.client_name}-${device.location_name}`] *)
Definition key (device : DeviceDueSoon) : string :=
  client_name device +++ "-" +++ location_name device.

(** [a < b] on strings: code units compared from the left. *)
Definition str_lt (a b : string) : bool := String.ltb a b.

(** The body of the [forEach] callback. *)
Definition visit (clientMap : ClientMap) (device : DeviceDueSoon) : ClientMap :=
  let clientMap1 :=
    match Js.get clientMap (key device) with
    | Some _ => clientMap
    | None =>
      Js.set clientMap (key device)
        (mkGroupedClient (client_name device) (location_name device) []
                         (due_date device) 0)
    end in
  match Js.get clientMap1 (key device) with
  | None => clientMap1
  | Some group =>
    let devices' := devices group ++ [device] in
    Js.set clientMap1 (key device)
      (mkGroupedClient (clientName group) (locationName group) devices'
         (if str_lt (due_date device) (earliestDueDate group)
          then due_date device else earliestDueDate group)
         (Z.of_nat (List.length devices')))
  end.

(** [(a, b) => new Date(a.earliestDueDate).getTime()
               - new Date(b.earliestDueDate).getTime()];
    a NaN difference counts as 0. *)
Definition by_earliest (a b : GroupedClient) : Z :=
  match getTime (earliestDueDate a), getTime (earliestDueDate b) with
  | Some x, Some y => x - y
  | _, _ => 0
  end.

(** [groupedClients]: the map filled by [devices.forEach], then
    [Array.from(clientMap.values()).sort(...)]. *)
Definition clientMap (devices : list DeviceDueSoon) : ClientMap :=
  fold_left visit devices [].

Definition groupedClients (devices : list DeviceDueSoon) : list GroupedClient :=
  Js.sort by_earliest (map snd (clientMap devices)).

(** The group after [device] is pushed on it. *)
Definition grown (g : GroupedClient) (d : DeviceDueSoon) : GroupedClient :=
  mkGroupedClient (clientName g) (locationName g) (devices g ++ [d])
    (if str_lt (due_date d) (earliestDueDate g)
     then due_date d else earliestDueDate g)
    (Z.of_nat (List.length (devices g ++ [d]))).

(** The group made for the first record of a key. *)
Definition fresh (d : DeviceDueSoon) : GroupedClient :=
  mkGroupedClient (client_name d) (location_name d) [] (due_date d) 0.

(** The key a group was made under. *)
Definition key_of_group (g : GroupedClient) : string :=
  clientName g +++ "-" +++ locationName g.

(** The number a group sorts by. *)
Definition earliest_ms (g : GroupedClient) : Z :=
  match getTime (earliestDueDate g) with
  | Some t => t
  | None => 0
  end.

(** The records of a key, in the order of the input. *)
Definition members (devices : list DeviceDueSoon) (k : string)
  : list DeviceDueSoon :=
  filter (fun d => String.eqb (key d) k) devices.

(** Every due date is a [YYYY-MM-DD] string. *)
Definition dated (devices : list DeviceDueSoon) : Prop :=
  Forall (fun d => is_iso (due_date d)) devices.

(** The earliest due date of a group is the least of its members' dates. *)
Definition earliest_is_least (g : GroupedClient) : Prop :=
  exists e, iso_date e /\ earliestDueDate g = iso e
            /\ forall d x, In d (devices g) -> iso_date x ->
                           due_date d = iso x -> day_number e <= day_number x.

(** What holds of the group made under key [k] once the records [pre] have
    been visited. *)
Definition group_ok (pre : list DeviceDueSoon) (k : string) (g : GroupedClient)
  : Prop :=
  devices g = members pre k
  /\ key_of_group g = k
  /\ totalDevices g = Z.of_nat (List.length (devices g))
  /\ In (earliestDueDate g) (map due_date (devices g))
  /\ (dated pre -> earliest_is_least g).

Definition map_ok (cm : ClientMap) (pre : list DeviceDueSoon) : Prop :=
  NoDup (map fst cm)
  /\ forall k,
       match Js.get cm k with
       | Some g => group_ok pre k g
       | None => forall d, In d pre -> key d <> k
       end.


End DueCard.

(** ** pages/api/one-sms.ts: the bulk SMS loop *)

Module Sms.

(** Modelled from the spec: [clientApi.getAllClientsForSMS] and the type of
    what it returns are not among the sources. A recipient has the fields
    that the handler reads: the identity of the client, the name and mobile
    number, and the QR code that is the reference of its profile; the last
    three may be null or empty. *)
Record Client := mkClient {
  id : string;
  name : option string;
  mobile : option string;
  qr_code : option string
}.

Record SMSResult := mkSMSResult {
  r_mobile : string;
  r_name : string;
  success : bool;
  error : option string;
  messageId : option string
}.

Record BulkSMSResponse := mkBulkSMSResponse {
  totalClients : Z;
  successCount : Z;
  failureCount : Z;
  results : list SMSResult
}.

(** The form fields posted to the gateway. *)
Record Request := mkRequest {
  apikey : string;
  number : string;
  message : string;
  sendername : string
}.

(** What [await fetch(...)] followed by [await response.text()] comes to:
    a response with its [ok] flag and text, or a thrown value, which is an
    [Error] with a message or something else. *)
Inductive FetchOutcome :=
| Responded (ok : bool) (responseData : string)
| ThrewError (msg : string)
| ThrewOther.

(** What the loop does to the outside, in order. *)
Inductive Event :=
| Fetch (rq : Request) (out : FetchOutcome)
| Delay (ms : Z).

Definition nl : string := String (ascii_of_N 10) EmptyString.

(** The text of the message for a client. *)
Definition smsMessage (client : Client) : string :=
  let newUrl :=
    "https://presko-web.github.io/client-portal/new_experience.html?customerid="
    +++ id client in
  "Hi " +++ Js.or_else (name client) "Valued Customer" +++ "," +++ nl +++ nl
  +++ "Good news! Your Presko account is now on our new website." +++ nl +++ nl
  +++ "Access it here: " +++ newUrl +++ nl +++ nl
  +++ "New features:" +++ nl
  +++ "• Multi-location support (Home, Office, Shop, etc.)" +++ nl
  +++ "• Track cleaning per device" +++ nl
  +++ "• Name your devices & locations (John AC, Reception, Pet Store, etc.)" +++ nl
  +++ "• Download invoices (PDF)" +++ nl
  +++ "• Share on Facebook & earn points faster".

Definition responded (out : FetchOutcome) : bool :=
  match out with
  | Responded _ _ => true
  | _ => false
  end.

(** A call of the gateway with the delay that follows a response. *)
Definition block (call : Request * FetchOutcome) : list Event :=
  Fetch (fst call) (snd call)
  :: (if responded (snd call) then [Delay 2000] else []).

Section Handler.
(** The gateway: the state of the outside world and what a request gets
    in it. The two environment variables are read once per request. *)
Context {World : Type}.
Variable fetch : World -> Request -> FetchOutcome * World.
Variable SEMAPHORE_API_KEY : string.
Variable SEMAPHORE_SENDER_NAME : option string.

(** The variables of the handler that the loop updates. *)
Record Loop := mkLoop {
  l_results : list SMSResult;
  l_successCount : Z;
  l_failureCount : Z;
  l_trace : list Event;
  l_world : World
}.

Definition eligible (client : Client) : bool :=
  Js.truthy (mobile client) && Js.truthy (qr_code client).

Definition request (client : Client) : Request :=
  mkRequest SEMAPHORE_API_KEY (Js.String_ (mobile client))
            (smsMessage client)
            (Js.or_else SEMAPHORE_SENDER_NAME "SEMAPHORE").

(** One turn of [for (const client of clients)]. *)
Definition turn (st : Loop) (client : Client) : Loop :=
  if negb (eligible client) then
    mkLoop (l_results st ++
              [mkSMSResult (Js.or_else (mobile client) "N/A")
                           (Js.or_else (name client) "Unknown")
                           false (Some "Missing mobile number or QR code"%string)
                           None])
           (l_successCount st) (l_failureCount st + 1)
           (l_trace st) (l_world st)
  else
    let rq := request client in
    let (out, w) := fetch (l_world st) rq in
    match out with
    | Responded true _ =>
      mkLoop (l_results st ++
                [mkSMSResult (Js.String_ (mobile client))
                             (Js.or_else (name client) "Unknown")
                             true None (Some "sent"%string)])
             (l_successCount st + 1) (l_failureCount st)
             (l_trace st ++ [Fetch rq out; Delay 2000]) w
    | Responded false responseData =>
      mkLoop (l_results st ++
                [mkSMSResult (Js.String_ (mobile client))
                             (Js.or_else (name client) "Unknown")
                             false
                             (Some (Js.or_else (Some responseData)
                                               "SMS sending failed"))
                             None])
             (l_successCount st) (l_failureCount st + 1)
             (l_trace st ++ [Fetch rq out; Delay 2000]) w
    | ThrewError msg =>
      mkLoop (l_results st ++
                [mkSMSResult (Js.or_else (mobile client) "N/A")
                             (Js.or_else (name client) "Unknown")
                             false (Some msg) None])
             (l_successCount st) (l_failureCount st + 1)
             (l_trace st ++ [Fetch rq out]) w
    | ThrewOther =>
      mkLoop (l_results st ++
                [mkSMSResult (Js.or_else (mobile client) "N/A")
                             (Js.or_else (name client) "Unknown")
                             false (Some "Unknown error"%string) None])
             (l_successCount st) (l_failureCount st + 1)
             (l_trace st ++ [Fetch rq out]) w
    end.

(** What one turn adds: one entry, one count, and the events of the call. *)
Definition entry (w : World) (client : Client) : SMSResult :=
  if negb (eligible client) then
    mkSMSResult (Js.or_else (mobile client) "N/A")
                (Js.or_else (name client) "Unknown") false
                (Some "Missing mobile number or QR code"%string) None
  else
    match fst (fetch w (request client)) with
    | Responded true _ =>
      mkSMSResult (Js.String_ (mobile client))
                  (Js.or_else (name client) "Unknown") true None
                  (Some "sent"%string)
    | Responded false responseData =>
      mkSMSResult (Js.String_ (mobile client))
                  (Js.or_else (name client) "Unknown") false
                  (Some (Js.or_else (Some responseData) "SMS sending failed"))
                  None
    | ThrewError msg =>
      mkSMSResult (Js.or_else (mobile client) "N/A")
                  (Js.or_else (name client) "Unknown") false (Some msg) None
    | ThrewOther =>
      mkSMSResult (Js.or_else (mobile client) "N/A")
                  (Js.or_else (name client) "Unknown") false
                  (Some "Unknown error"%string) None
    end.

Definition events (w : World) (client : Client) : list Event :=
  if negb (eligible client) then []
  else block (request client, fst (fetch w (request client))).

Definition world_after (w : World) (client : Client) : World :=
  if negb (eligible client) then w else snd (fetch w (request client)).

(** The loop over [clients], from the initial values of its variables. *)
Definition run (w : World) (clients : list Client) : Loop :=
  fold_left turn clients (mkLoop [] 0 0 [] w).

(** The handler from the point where the client list is known:
    [clients] is the value of [await clientApi.getAllClientsForSMS()],
    [None] for a null one. It gives the JSON body of the 200 response,
    what was done to the outside, and the world left behind. *)
Definition runCampaign (w : World) (clients : option (list Client))
  : BulkSMSResponse * list Event * World :=
  match clients with
  | None | Some [] => (mkBulkSMSResponse 0 0 0 [], [], w)
  | Some cs =>
    let st := run w cs in
    (mkBulkSMSResponse (Z.of_nat (List.length cs)) (l_successCount st)
                       (l_failureCount st) (l_results st),
     l_trace st, l_world st)
  end.

Definition body (x : BulkSMSResponse * list Event * World) : BulkSMSResponse :=
  fst (fst x).
Definition trace (x : BulkSMSResponse * list Event * World) : list Event :=
  snd (fst x).
Definition world (x : BulkSMSResponse * list Event * World) : World :=
  snd x.
End Handler.

(** Whether a run ends on a delay, which is a delay after the last
    recipient. *)
Definition ends_on_delay (trace : list Event) : bool :=
  match rev trace with
  | Delay _ :: _ => true
  | _ => false
  end.

Definition delays (trace : list Event) : list Z :=
  flat_map (fun e => match e with Delay ms => [ms] | Fetch _ _ => [] end) trace.

Definition fetches (trace : list Event) : list (Request * FetchOutcome) :=
  flat_map (fun e => match e with Fetch rq out => [(rq, out)] | Delay _ => [] end)
           trace.

(** The identity of the recipient an entry of [results] is for. *)
Definition recipient (client : Client) : string * string :=
  (Js.or_else (mobile client) "N/A", Js.or_else (name client) "Unknown").

Definition failures (results : list SMSResult) : list SMSResult :=
  filter (fun r => negb (success r)) results.

Definition successes (results : list SMSResult) : list SMSResult :=
  filter success results.

(** Two gateways to run the loop against: the state of the world is the
    number of calls made. The first accepts every message; the second
    accepts the first one, refuses the second without a text, and then
    fails with a network error. *)
Definition accepting_gateway (w : nat) (rq : Request) : FetchOutcome * nat :=
  (Responded true "Message queued", S w).

Definition failing_gateway (w : nat) (rq : Request) : FetchOutcome * nat :=
  match w with
  | O => (Responded true "Message queued", S w)
  | S O => (Responded false "", S w)
  | _ => (ThrewError "fetch failed", S w)
  end.

End Sms.

(** ** Pages of a list: the pagination of the three components *)

Module Paging.

(** [l.slice(start, end)]: a negative index counts from the end, and both
    are cut to the bounds of the list. *)
Definition slice {A : Type} (l : list A) (start final : Z) : list A :=
  let len := Z.of_nat (List.length l) in
  let k := if start <? 0 then Z.max (len + start) 0 else Z.min start len in
  let e := if final <? 0 then Z.max (len + final) 0 else Z.min final len in
  firstn (Z.to_nat (e - k)) (skipn (Z.to_nat k) l).

(** [Math.ceil(items.length / itemsPerPage)] *)
Definition totalPages (itemsPerPage : Z) (n : nat) : Z :=
  Js.ceil_div (Z.of_nat n) itemsPerPage.

(** [(currentPage - 1) * itemsPerPage] *)
Definition startIndex (itemsPerPage currentPage : Z) : Z :=
  (currentPage - 1) * itemsPerPage.

(** [items.slice(startIndex, startIndex + itemsPerPage)] *)
Definition paginated {A : Type} (itemsPerPage : Z) (items : list A)
           (currentPage : Z) : list A :=
  slice items (startIndex itemsPerPage currentPage)
        (startIndex itemsPerPage currentPage + itemsPerPage).

(** [if (currentPage > totalPages && totalPages > 0) setCurrentPage(totalPages)]:
    the page after the reset made while rendering. *)
Definition reset (total currentPage : Z) : Z :=
  if (currentPage >? total) && (total >? 0) then total else currentPage.

(** [setCurrentPage(prev => Math.max(1, prev - 1))] *)
Definition previous (currentPage : Z) : Z := Z.max 1 (currentPage - 1).

(** [setCurrentPage(prev => Math.min(totalPages, prev + 1))] *)
Definition next (total currentPage : Z) : Z := Z.min total (currentPage + 1).

(** The bounds shown under the list:
    [startIndex + 1] and [Math.min(startIndex + itemsPerPage, length)]. *)
Definition showing_from (itemsPerPage currentPage : Z) : Z :=
  startIndex itemsPerPage currentPage + 1.

Definition showing_to (itemsPerPage : Z) (n : nat) (currentPage : Z) : Z :=
  Z.min (startIndex itemsPerPage currentPage + itemsPerPage) (Z.of_nat n).

(** The page numbers [1 .. total]. *)
Definition page_numbers (total : Z) : list Z :=
  map (fun i => Z.of_nat i) (seq 1 (Z.to_nat total)).

(** The number of pages of ClientDevicesTable, which can be infinite. *)
Inductive PageCount :=
| Pages (n : Z)
| Infinity.

(** [Math.ceil(devices.length / itemsPerPage) || 1], for a whole number
    [itemsPerPage]: a division by 0 gives NaN for an empty list, which [||]
    turns into 1, and infinity otherwise; a count of 0 becomes 1. *)
Definition table_totalPages (itemsPerPage : Z) (n : nat) : PageCount :=
  if itemsPerPage =? 0 then
    match n with O => Pages 1 | S _ => Infinity end
  else
    let pages := Js.ceil_div (Z.of_nat n) itemsPerPage in
    if pages =? 0 then Pages 1 else Pages pages.

End Paging.

(** ** ClientDevicesTable.tsx: names looked up by id, and the status badge *)

Module DevicesTableView.

(** Modelled from the spec: the declarations of [ClientLocation], [Brand],
    [ACType] and [HorsepowerOption] (types/database) are not among the
    sources. A record has the two fields that the table reads: the id and
    the name it shows ([name], or [display_name] for a horsepower option). *)
Record Named := mkNamed { id : string; name : string }.

(** [items.find((x) => x.id === id)] *)
Fixpoint find (items : list Named) (wanted : string) : option Named :=
  match items with
  | [] => None
  | x :: rest => if String.eqb (id x) wanted then Some x else find rest wanted
  end.

(** [id ? items.find((x) => x.id === id)?.name || "-" : "-"] *)
Definition nameOf (items : list Named) (wanted : option string) : string :=
  match wanted with
  | Some (String c s) =>
    Js.or_else (option_map name (find items (String c s))) "-"
  | _ => "-"%string
  end.

Definition getLocationName (locations : list Named) (wanted : option string) :=
  nameOf locations wanted.
Definition getBrandName (brands : list Named) (wanted : option string) :=
  nameOf brands wanted.
Definition getACTypeName (acTypes : list Named) (wanted : option string) :=
  nameOf acTypes wanted.
Definition getHorsepowerName (horsepowerOptions : list Named)
           (wanted : option string) :=
  nameOf horsepowerOptions wanted.

(** The text of the badge in the status column: the [switch] on the status. *)
Definition badge (status : string) : string :=
  if String.eqb status "scheduled" then "Scheduled"
  else if String.eqb status "due" then "Due"
  else if String.eqb status "maintain" then "Well Maintained"
  else if String.eqb status "no-service" then "No Service"
  else if String.eqb status "repair" then "Repair"
  else "-".

End DevicesTableView.

(** ** DevicesOverdueCard.tsx: the filters of the card *)

Module OverdueView.
Import OverdueCard.

(** [s.includes(t)]: [t] occurs in [s]. *)
Fixpoint includes (s t : string) : bool :=
  String.prefix t s
  || match s with
     | EmptyString => false
     | String _ s' => includes s' t
     end.

Section Filters.
(** [String.prototype.toLowerCase], taken as it is. *)
Variable toLowerCase : string -> string.

Definition matchesSearch (searchTerm : string) (group : ClientGroup) : bool :=
  String.eqb searchTerm ""
  || includes (toLowerCase (cg_client_name group)) (toLowerCase searchTerm)
  || includes (toLowerCase (cg_location_name group)) (toLowerCase searchTerm)
  || existsb (fun device =>
                includes (toLowerCase (name device)) (toLowerCase searchTerm))
             (cg_devices group).

Definition matchesDate (dateFilter : string) (group : ClientGroup) : bool :=
  String.eqb dateFilter ""
  || existsb (fun device => String.eqb (due_date device) dateFilter)
             (cg_devices group).

(** [devices: group.devices.filter(device =>
      dateFilter === '' || device.due_date === dateFilter)] *)
Definition on_date (dateFilter : string) (group : ClientGroup) : ClientGroup :=
  mkClientGroup (cg_client_name group) (cg_location_name group)
    (filter (fun device =>
               String.eqb dateFilter "" || String.eqb (due_date device) dateFilter)
            (cg_devices group)).

(** [filteredGroups]: the groups that match, cut to the devices of the date,
    without the groups left empty. *)
Definition filteredGroups (searchTerm dateFilter : string)
           (groups : list ClientGroup) : list ClientGroup :=
  filter (fun group => (0 <? List.length (cg_devices group))%nat)
         (map (on_date dateFilter)
              (filter (fun group =>
                         matchesSearch searchTerm group
                         && matchesDate dateFilter group)
                      groups)).
End Filters.

(** [getDaysOverdue(dueDate)] of the card is the count of the reducer. *)
Definition getDaysOverdue (today : Z) (dueDate : string) : option Z :=
  daysOverdue today dueDate.

(** The keys of a list in the order of their first occurrence. *)
Fixpoint first_occurrences (seen keys : list string) : list string :=
  match keys with
  | [] => []
  | k :: rest =>
    if existsb (String.eqb k) seen then first_occurrences seen rest
    else k :: first_occurrences (k :: seen) rest
  end.

(** The record that made a group: the first of its client key. *)
Definition made_by (pre : list DeviceOverdue) (ck : string) (g : Group) : Prop :=
  exists before d after,
    pre = before ++ d :: after /\ clientKey d = ck
    /\ (forall x, In x before -> clientKey x <> ck)
    /\ g_client_name g = client_name d
    /\ g_location_name g = location_name d.

(** The groups are in the order in which their keys first occur, none is
    empty, and each has the names of the record that made it. *)
Definition groups_ok (acc : Acc) (pre : list DeviceOverdue) : Prop :=
  map fst acc = first_occurrences [] (map clientKey pre)
  /\ forall ck,
       match Js.get acc ck with
       | Some g => g_devices g <> [] /\ made_by pre ck g
       | None => forall d, In d pre -> clientKey d <> ck
       end.

(** The entries [es] all belong under the client key [ck]. *)
Definition under (ck : string) (es : DeviceMap) : Prop :=
  forall dk r, In (dk, r) es -> keys r = (ck, dk).

(** The accumulator without the names of the groups. *)
Definition strip (acc : Acc) : list (string * DeviceMap) :=
  map (fun kg => (fst kg, g_devices (snd kg))) acc.

(** The key that a group of the card would be filed under. *)
Definition cg_key (g : ClientGroup) : string :=
  cg_client_name g +++ "-" +++ cg_location_name g.

End OverdueView.

(** ** DevicesDueCard.tsx: what is shown of a due date, and the filters *)

Module DueView.
Import Calendar DueCard.

(** [isOverdue(dateString)]: [dueDate < today] on two [Date]s; false when
    the due date is invalid. Each call of [isOverdue] and [getDaysUntilDue]
    reads the clock; [today] is that reading, and what is shown of one
    render is stated for one reading, the calls being taken at one
    instant. *)
Definition isOverdue (today : Z) (dateString : string) : bool :=
  match getTime dateString with
  | Some dueDate => dueDate <? today
  | None => false
  end.

(** [getDaysUntilDue(dateString)]; [None] stands for NaN. *)
Definition getDaysUntilDue (today : Z) (dateString : string) : option Z :=
  option_map (fun dueDate => Js.ceil_div (dueDate - today) ms_per_day)
             (getTime dateString).

(** What the line under the date of a device says. *)
Inductive DueLabel :=
| DaysOverdue (n : option Z)
| DueToday
| DueTomorrow
| DaysLeft (n : option Z).

(** The nested conditional that chooses the text:
    [deviceOverdue ? `${Math.abs(days)} days overdue`
     : days === 0 ? 'Due today' : days === 1 ? 'Due tomorrow'
     : `${days} days left`]. *)
Definition dueLabel (today : Z) (dateString : string) : DueLabel :=
  let deviceDaysUntilDue := getDaysUntilDue today dateString in
  if isOverdue today dateString then
    DaysOverdue (option_map Z.abs deviceDaysUntilDue)
  else
    match deviceDaysUntilDue with
    | Some 0 => DueToday
    | Some 1 => DueTomorrow
    | n => DaysLeft n
    end.

(** A number in a template string; [None] stands for NaN. *)
Definition show (n : option Z) : string :=
  match n with
  | Some z => NilZero.string_of_int (Z.to_int z)
  | None => "NaN"
  end.

(** The text of a label. *)
Definition text (l : DueLabel) : string :=
  match l with
  | DaysOverdue n => show n +++ " days overdue"
  | DueToday => "Due today"
  | DueTomorrow => "Due tomorrow"
  | DaysLeft n => show n +++ " days left"
  end.

(** [client.devices.some(device => isOverdue(device.due_date))] *)
Definition hasOverdueDevice (today : Z) (client : GroupedClient) : bool :=
  existsb (fun device => isOverdue today (due_date device)) (devices client).

(** The colour of the box of a client: red with an overdue device, orange
    when the earliest due date is at most 7 days away, gray otherwise. *)
Inductive Colour := Red | Orange | Gray.

Definition boxColour (today : Z) (client : GroupedClient) : Colour :=
  if hasOverdueDevice today client then Red
  else
    match getDaysUntilDue today (earliestDueDate client) with
    | Some earliestDaysUntilDue =>
      if earliestDaysUntilDue <=? 7 then Orange else Gray
    | None => Gray
    end.

Section Filters.
(** [String.prototype.toLowerCase], taken as it is, and the two optional
    fields of a device that the search reads besides its name. *)
Variable toLowerCase : string -> string.
Variable brand_name : DeviceDueSoon -> option string.
Variable ac_type_name : DeviceDueSoon -> option string.

(** [s?.toLowerCase().includes(t)]: false for a missing [s]. *)
Definition includes_opt (s : option string) (t : string) : bool :=
  match s with
  | Some s' => OverdueView.includes (toLowerCase s') t
  | None => false
  end.

Definition matchesSearch (searchQuery : string) (client : GroupedClient) : bool :=
  String.eqb searchQuery ""
  || OverdueView.includes (toLowerCase (clientName client)) (toLowerCase searchQuery)
  || OverdueView.includes (toLowerCase (locationName client)) (toLowerCase searchQuery)
  || existsb (fun device =>
                OverdueView.includes (toLowerCase (name device))
                                     (toLowerCase searchQuery)
                || includes_opt (brand_name device) (toLowerCase searchQuery)
                || includes_opt (ac_type_name device) (toLowerCase searchQuery))
             (devices client).

Definition matchesDate (dateFilter : string) (client : GroupedClient) : bool :=
  String.eqb dateFilter ""
  || existsb (fun device => String.eqb (due_date device) dateFilter)
             (devices client).

Definition filteredClients (searchQuery dateFilter : string)
           (groupedClients : list GroupedClient) : list GroupedClient :=
  filter (fun client =>
            matchesSearch searchQuery client && matchesDate dateFilter client)
         groupedClients.
End Filters.

End DueView.

(** ** The expiry of loyalty points *)

Module Loyalty.
Import Calendar.

(** [date_expiry DATE GENERATED ALWAYS AS (date_earned + INTERVAL '1 year')
    STORED]: a year is twelve months. *)
Definition date_expiry (date_earned : option date) : option date :=
  Schema.plus_months date_earned 12.

End Loyalty.

(** ** pages/api/one-sms.ts: the handler around the loop *)

Module SmsHandler.
Import Sms.

(** What [await clientApi.getAllClientsForSMS()] comes to. *)
Inductive ClientsOutcome :=
| Clients (clients : option (list Client))
| ClientsThrewError (msg : string)
| ClientsThrewOther.

(** What is sent back: a status with a report or with an error. *)
Inductive Reply :=
| Report (status : Z) (report : BulkSMSResponse)
| Failure (status : Z) (error : string).

Definition status_of (r : Reply) : Z :=
  match r with
  | Report status _ => status
  | Failure status _ => status
  end.

Section Handler.
Context {World : Type}.
Variable fetch : World -> Request -> FetchOutcome * World.
Variable SEMAPHORE_API_KEY : string.
Variable SEMAPHORE_SENDER_NAME : option string.
Variable getAllClientsForSMS : World -> ClientsOutcome * World.

(** [handler(req, res)], for the method of the request. *)
Definition handler (method : string) (w : World) : Reply * list Event * World :=
  if negb (String.eqb method "POST") then
    (Failure 405 "Method not allowed", [], w)
  else
    match getAllClientsForSMS w with
    | (Clients clients, w1) =>
      let out := runCampaign fetch SEMAPHORE_API_KEY SEMAPHORE_SENDER_NAME
                             w1 clients in
      (Report 200 (body out), trace out, world out)
    | (ClientsThrewError msg, w1) => (Failure 500 msg, [], w1)
    | (ClientsThrewOther, w1) => (Failure 500 "Server error occurred", [], w1)
    end.
End Handler.

(** The outcomes of the calls that the gateway answered with an ok
    response. *)
Definition accepted (calls : list (Request * FetchOutcome))
  : list (Request * FetchOutcome) :=
  filter (fun call => match snd call with
                      | Responded true _ => true
                      | _ => false
                      end) calls.

End SmsHandler.

(** * Properties *)

(** ** Dates: rendering, reading back and order *)

Module CalendarFacts.
Import Calendar.

Lemma N_of_digit n : 0 <= n <= 9 -> N_of_ascii (digit n) = (48 + Z.to_N n)%N.
Proof.
  intros H. unfold digit. apply N_ascii_embedding. lia.
Qed.

Lemma digit_val_digit n : 0 <= n <= 9 -> digit_val (digit n) = Some n.
Proof.
  intros H. unfold digit_val. rewrite N_of_digit by exact H.
  replace (Z.of_N (48 + Z.to_N n)) with (48 + n) by lia.
  replace ((48 <=? 48 + n) && (48 + n <=? 57)) with true.
  - f_equal. lia.
  - symmetry. apply andb_true_iff. split; apply Z.leb_le; lia.
Qed.

Lemma compare_digit a b :
  0 <= a <= 9 -> 0 <= b <= 9 -> Ascii.compare (digit a) (digit b) = (a ?= b).
Proof.
  intros Ha Hb. unfold Ascii.compare. rewrite !N_of_digit by assumption.
  destruct (Z.compare_spec a b) as [E | L | G].
  - subst. apply N.compare_refl.
  - apply N.compare_lt_iff. lia.
  - apply N.compare_gt_iff. lia.
Qed.

Lemma compare_pad2 a b s t :
  0 <= a <= 99 -> 0 <= b <= 99 ->
  String.compare (pad2 a s) (pad2 b t) = then_cmp (a ?= b) (String.compare s t).
Proof.
  intros Ha Hb. unfold pad2. cbn [String.compare].
  assert (Ha1 : 0 <= a / 10 <= 9) by (Z.div_mod_to_equations; lia).
  assert (Hb1 : 0 <= b / 10 <= 9) by (Z.div_mod_to_equations; lia).
  assert (Ha2 : 0 <= a mod 10 <= 9) by (Z.div_mod_to_equations; lia).
  assert (Hb2 : 0 <= b mod 10 <= 9) by (Z.div_mod_to_equations; lia).
  rewrite !compare_digit by assumption.
  destruct (Z.compare_spec (a / 10) (b / 10)) as [E1 | L1 | G1].
  - destruct (Z.compare_spec (a mod 10) (b mod 10)) as [E2 | L2 | G2].
    + replace (a ?= b) with Eq; [reflexivity |].
      symmetry. apply Z.compare_eq_iff. Z.div_mod_to_equations; lia.
    + replace (a ?= b) with Lt; [reflexivity |].
      symmetry. apply Z.compare_lt_iff. Z.div_mod_to_equations; lia.
    + replace (a ?= b) with Gt; [reflexivity |].
      symmetry. apply Z.compare_gt_iff. Z.div_mod_to_equations; lia.
  - replace (a ?= b) with Lt; [reflexivity |].
    symmetry. apply Z.compare_lt_iff. Z.div_mod_to_equations; lia.
  - replace (a ?= b) with Gt; [reflexivity |].
    symmetry. apply Z.compare_gt_iff. Z.div_mod_to_equations; lia.
Qed.

Lemma compare_pad4 a b s t :
  0 <= a <= 9999 -> 0 <= b <= 9999 ->
  String.compare (pad4 a s) (pad4 b t) = then_cmp (a ?= b) (String.compare s t).
Proof.
  intros Ha Hb. unfold pad4.
  rewrite compare_pad2 by (Z.div_mod_to_equations; lia).
  rewrite compare_pad2 by (Z.div_mod_to_equations; lia).
  destruct (Z.compare_spec (a / 100) (b / 100)) as [E1 | L1 | G1]; cbn [then_cmp].
  - destruct (Z.compare_spec (a mod 100) (b mod 100)) as [E2 | L2 | G2]; cbn [then_cmp].
    + replace (a ?= b) with Eq; [reflexivity |].
      symmetry. apply Z.compare_eq_iff. Z.div_mod_to_equations; lia.
    + replace (a ?= b) with Lt; [reflexivity |].
      symmetry. apply Z.compare_lt_iff. Z.div_mod_to_equations; lia.
    + replace (a ?= b) with Gt; [reflexivity |].
      symmetry. apply Z.compare_gt_iff. Z.div_mod_to_equations; lia.
  - replace (a ?= b) with Lt; [reflexivity |].
    symmetry. apply Z.compare_lt_iff. Z.div_mod_to_equations; lia.
  - replace (a ?= b) with Gt; [reflexivity |].
    symmetry. apply Z.compare_gt_iff. Z.div_mod_to_equations; lia.
Qed.

Lemma days_in_month_bounds y m : 28 <= days_in_month y m <= 31.
Proof.
  unfold days_in_month.
  destruct m as [| p | p]; try lia.
  destruct (is_leap y);
  do 4 (try destruct p as [p | p |]); lia.
Qed.

Lemma compare_iso d1 d2 :
  iso_date d1 -> iso_date d2 ->
  String.compare (iso d1) (iso d2) = date_compare d1 d2.
Proof.
  intros [Hy1 [Hm1 Hd1]] [Hy2 [Hm2 Hd2]].
  pose proof (days_in_month_bounds (year d1) (month d1)).
  pose proof (days_in_month_bounds (year d2) (month d2)).
  unfold iso, date_compare.
  rewrite compare_pad4 by assumption. f_equal.
  cbn [String.compare].
  replace (Ascii.compare hyphen hyphen) with Eq by reflexivity.
  rewrite compare_pad2 by lia. f_equal.
  cbn [String.compare]. replace (Ascii.compare hyphen hyphen) with Eq by reflexivity.
  rewrite compare_pad2 by lia.
  cbn [String.compare]. destruct (day d1 ?= day d2); reflexivity.
Qed.


Lemma num2_pad2 n rest :
  0 <= n <= 99 ->
  exists a b, pad2 n rest = String a (String b rest) /\ num2 a b = Some n.
Proof.
  intros H. exists (digit (n / 10)), (digit (n mod 10)). split; [reflexivity |].
  unfold num2.
  rewrite !digit_val_digit by (Z.div_mod_to_equations; lia).
  f_equal. Z.div_mod_to_equations; lia.
Qed.

Lemma valid_dateb_true d : valid_date d -> valid_dateb d = true.
Proof.
  intros [Hm Hd]. unfold valid_dateb.
  repeat (apply andb_true_iff; split); apply Z.leb_le; lia.
Qed.

Lemma parse_iso_iso d : iso_date d -> parse_iso (iso d) = Some d.
Proof.
  intros [Hy Hv]. pose proof Hv as [Hm Hd].
  pose proof (days_in_month_bounds (year d) (month d)).
  unfold iso, pad4.
  destruct (num2_pad2 (year d / 100)
              (pad2 (year d mod 100)
                 (String hyphen (pad2 (month d) (String hyphen (pad2 (day d) EmptyString))))))
    as (y1 & y2 & -> & E1); [Z.div_mod_to_equations; lia |].
  destruct (num2_pad2 (year d mod 100)
              (String hyphen (pad2 (month d) (String hyphen (pad2 (day d) EmptyString)))))
    as (y3 & y4 & -> & E2); [Z.div_mod_to_equations; lia |].
  destruct (num2_pad2 (month d) (String hyphen (pad2 (day d) EmptyString)))
    as (m1 & m2 & -> & E3); [lia |].
  destruct (num2_pad2 (day d) EmptyString) as (d1 & d2 & -> & E4); [lia |].
  unfold parse_iso. rewrite Ascii.eqb_refl. cbn [andb].
  rewrite E1, E2, E3, E4.
  replace (100 * (year d / 100) + year d mod 100) with (year d)
    by (Z.div_mod_to_equations; lia).
  cbv zeta.
  replace {| year := year d; month := month d; day := day d |} with d
    by (destruct d; reflexivity).
  rewrite valid_dateb_true by exact Hv. reflexivity.
Qed.

(** *** Day numbers grow with the calendar *)

Lemma leap_step y :
  leaps_before (y + 1) - leaps_before y = if is_leap y then 1 else 0.
Proof.
  unfold leaps_before, is_leap.
  replace (y + 1 - 1) with y by lia.
  destruct (Z.eqb_spec (y mod 4) 0), (Z.eqb_spec (y mod 100) 0),
    (Z.eqb_spec (y mod 400) 0); cbn [andb orb negb];
    Z.div_mod_to_equations; lia.
Qed.

Lemma days_before_year_step y :
  days_before_year (y + 1) = days_before_year y + year_length y.
Proof.
  unfold days_before_year, year_length.
  pose proof (leap_step y). destruct (is_leap y); lia.
Qed.

Lemma days_before_year_mono y1 y2 :
  y1 < y2 -> days_before_year y1 + year_length y1 <= days_before_year y2.
Proof.
  intros H. replace y2 with (y1 + 1 + (y2 - y1 - 1)) by lia.
  assert (Hk : 0 <= y2 - y1 - 1) by lia.
  generalize dependent (y2 - y1 - 1). intros k Hk.
  pattern k. apply natlike_ind; [| | exact Hk].
  - rewrite Z.add_0_r, days_before_year_step. lia.
  - intros x Hx IH.
    replace (y1 + 1 + Z.succ x) with (y1 + 1 + x + 1) by lia.
    rewrite (days_before_year_step (y1 + 1 + x)).
    unfold year_length at 2. destruct (is_leap (y1 + 1 + x)); lia.
Qed.

Lemma month_cases m :
  1 <= m <= 12 ->
  m = 1 \/ m = 2 \/ m = 3 \/ m = 4 \/ m = 5 \/ m = 6 \/ m = 7 \/ m = 8 \/
  m = 9 \/ m = 10 \/ m = 11 \/ m = 12.
Proof. lia. Qed.

(** Case analysis on a month, given [H : 1 <= m <= 12]. *)
Ltac by_month H :=
  destruct (month_cases _ H) as
    [-> | [-> | [-> | [-> | [-> | [-> | [-> | [-> | [-> | [-> | [-> | ->]]]]]]]]]]].

Lemma days_before_month_next y m :
  1 <= m <= 12 ->
  days_before_month y m + days_in_month y m =
  if m =? 12 then year_length y else days_before_month y (m + 1).
Proof.
  intros H. unfold year_length.
  by_month H;
    cbn; destruct (is_leap y); lia.
Qed.

Lemma days_before_month_mono y m1 m2 :
  1 <= m1 -> m1 < m2 -> m2 <= 12 ->
  days_before_month y m1 + days_in_month y m1 <= days_before_month y m2.
Proof.
  intros H1 H H2.
  assert (Hm1 : 1 <= m1 <= 12) by lia. assert (Hm2 : 1 <= m2 <= 12) by lia.
  by_month Hm1; by_month Hm2;
    try lia; cbn; destruct (is_leap y); lia.
Qed.

Lemma day_in_year_bounds d :
  valid_date d ->
  0 <= days_before_month (year d) (month d) + (day d - 1) < year_length (year d).
Proof.
  intros [Hm Hd].
  pose proof (days_before_month_next (year d) (month d) Hm) as N.
  split.
  - assert (0 <= days_before_month (year d) (month d)).
    { destruct d as [y m dd]. cbn [year month day] in *.
      by_month Hm; cbn; destruct (is_leap y); lia. }
    lia.
  - destruct (Z.eqb_spec (month d) 12) as [E | NE].
    + lia.
    + assert (L : days_before_month (year d) (month d + 1) <= year_length (year d) - 28).
      { unfold year_length. destruct d as [y m dd]. cbn [year month day] in *.
        by_month Hm; cbn; destruct (is_leap y); lia. }
      lia.
Qed.

Lemma day_number_compare d1 d2 :
  valid_date d1 -> valid_date d2 ->
  (day_number d1 ?= day_number d2) = date_compare d1 d2.
Proof.
  intros V1 V2. unfold date_compare, day_number.
  pose proof (day_in_year_bounds d1 V1) as B1.
  pose proof (day_in_year_bounds d2 V2) as B2.
  destruct V1 as [Hm1 Hd1], V2 as [Hm2 Hd2].
  destruct (Z.compare_spec (year d1) (year d2)) as [Ey | Ly | Gy]; cbn [then_cmp].
  - rewrite Ey in *.
    destruct (Z.compare_spec (month d1) (month d2)) as [Em | Lm | Gm]; cbn [then_cmp].
    + rewrite Em.
      destruct (Z.compare_spec (day d1) (day d2)) as [Ed | Ld | Gd].
      * apply Z.compare_eq_iff. lia.
      * apply Z.compare_lt_iff. lia.
      * apply Z.compare_gt_iff. lia.
    + apply Z.compare_lt_iff.
      pose proof (days_before_month_mono (year d2) (month d1) (month d2)). lia.
    + apply Z.compare_gt_iff.
      pose proof (days_before_month_mono (year d2) (month d2) (month d1)). lia.
  - apply Z.compare_lt_iff.
    pose proof (days_before_year_mono _ _ Ly). lia.
  - apply Z.compare_gt_iff.
    pose proof (days_before_year_mono _ _ Gy). lia.
Qed.

Lemma compare_iso_day d1 d2 :
  iso_date d1 -> iso_date d2 ->
  String.compare (iso d1) (iso d2) = (day_number d1 ?= day_number d2).
Proof.
  intros I1 I2. rewrite compare_iso by assumption.
  symmetry. apply day_number_compare; [apply I1 | apply I2].
Qed.

(** A date given in figures is a date of the calendar, and a string given as
    the rendering of such a date is an ISO date string. *)
Ltac date_literal := cbv; intuition discriminate.
Ltac iso_literal d := exists d; split; [date_literal | reflexivity].

End CalendarFacts.

(** ** The sort *)

Module JsFacts.

Section SortFacts.
Context {A : Type} (cmp : A -> A -> Z).

Lemma insert_perm x l : Permutation (Js.insert cmp x l) (x :: l).
Proof.
  induction l as [| y l IH]; cbn [Js.insert].
  - apply Permutation_refl.
  - destruct (cmp x y <=? 0).
    + apply Permutation_refl.
    + eapply Permutation_trans; [apply perm_skip, IH | apply perm_swap].
Qed.

Lemma sort_perm l : Permutation (Js.sort cmp l) l.
Proof.
  induction l as [| x l IH]; cbn [Js.sort].
  - apply perm_nil.
  - eapply Permutation_trans; [apply insert_perm | apply perm_skip, IH].
Qed.

Lemma sort_In x l : In x (Js.sort cmp l) <-> In x l.
Proof.
  split; apply Permutation_in; [| apply Permutation_sym]; apply sort_perm.
Qed.

(** Where the comparator is the difference of a numeric key, the result
    is in ascending order of the key. *)
Variable key : A -> Z.

Lemma insert_sorted x l :
  Js.by_key cmp key (x :: l) ->
  StronglySorted (fun a b => key a <= key b) l ->
  StronglySorted (fun a b => key a <= key b) (Js.insert cmp x l).
Proof.
  intros K S. induction S as [| y l S IH F]; cbn [Js.insert].
  - constructor; constructor.
  - rewrite (K x y) by (cbn; auto).
    destruct (Z.leb_spec (key x) (key y)) as [L | G].
    + constructor; [constructor; assumption |].
      constructor; [exact L |].
      rewrite Forall_forall in F |- *. intros z Hz. specialize (F z Hz). lia.
    + constructor.
      * apply IH. intros a b Ha Hb. apply K; cbn in *; tauto.
      * rewrite Forall_forall in F |- *. intros z Hz.
        apply (Permutation_in _ (insert_perm x l)) in Hz.
        destruct Hz as [<- | Hz]; [lia | apply F, Hz].
Qed.

Lemma sort_sorted l :
  Js.by_key cmp key l -> StronglySorted (fun a b => key a <= key b) (Js.sort cmp l).
Proof.
  induction l as [| x l IH]; intros K; cbn [Js.sort].
  - constructor.
  - apply insert_sorted.
    + intros a b Ha Hb. apply K.
      * destruct Ha as [<- | Ha]; [left; reflexivity | right; apply sort_In, Ha].
      * destruct Hb as [<- | Hb]; [left; reflexivity | right; apply sort_In, Hb].
    + apply IH. intros a b Ha Hb. apply K; right; assumption.
Qed.

(** The first element of the result is a least one. *)
Lemma sort_head l :
  Js.by_key cmp key l -> l <> [] ->
  exists x rest, Js.sort cmp l = x :: rest /\ In x l
                 /\ forall y, In y l -> key x <= key y.
Proof.
  intros K N. pose proof (sort_sorted l K) as S.
  pose proof (sort_perm l) as P.
  destruct (Js.sort cmp l) as [| x rest] eqn:E.
  - apply Permutation_nil in P. contradiction.
  - exists x, rest. split; [reflexivity |]. split.
    + apply (Permutation_in _ P). left; reflexivity.
    + intros y Hy. apply (Permutation_in _ (Permutation_sym P)) in Hy.
      inversion S as [| ? ? _ F]; subst. destruct Hy as [<- | Hy]; [lia |].
      rewrite Forall_forall in F. apply F, Hy.
Qed.
End SortFacts.

End JsFacts.

(** ** The generated due dates *)

Module SchemaFacts.
Import Calendar CalendarFacts Schema.

Lemma add_months_valid d n : valid_date d -> valid_date (add_months d n).
Proof.
  intros [Hm Hd]. unfold valid_date, add_months. cbn [year month day].
  set (t := year d * 12 + (month d - 1) + n).
  pose proof (days_in_month_bounds (t / 12) (t mod 12 + 1)).
  pose proof (Z.mod_pos_bound t 12). lia.
Qed.

Lemma add_months_index d n : month_index (add_months d n) = month_index d + n.
Proof.
  unfold month_index, add_months. cbn [year month day].
  Z.div_mod_to_equations; lia.
Qed.

Lemma add_months_lt d n k :
  valid_date d -> n < k ->
  day_number (add_months d n) < day_number (add_months d k).
Proof.
  intros V H. unfold Z.lt.
  rewrite day_number_compare by (apply add_months_valid; exact V).
  pose proof (add_months_index d n) as In. pose proof (add_months_index d k) as Ik.
  pose proof (add_months_valid d n V) as [Mn _].
  pose proof (add_months_valid d k V) as [Mk _].
  unfold month_index in In, Ik. unfold date_compare.
  destruct (Z.compare_spec (year (add_months d n)) (year (add_months d k)));
    cbn [then_cmp]; try reflexivity; try lia.
  destruct (Z.compare_spec (month (add_months d n)) (month (add_months d k)));
    cbn [then_cmp]; try reflexivity; lia.
Qed.

(** C9. A null [last_cleaning_date] leaves the three due dates null. A
    non-null one gives the dates 3, 4 and 6 calendar months later: each is a
    date of the calendar, its month is that many months on, and its day is
    the day of the cleaning, cut to the length of the month reached. The
    three dates come in this order, and the step is no fixed number of days. *)
Theorem due_dates_by_calendar_months :
  (forall r, last_cleaning_date r = None ->
     due_3_months r = None /\ due_4_months r = None /\ due_6_months r = None)
  /\ (forall r d, last_cleaning_date r = Some d -> valid_date d ->
       exists d3 d4 d6,
         due_3_months r = Some d3 /\ due_4_months r = Some d4
         /\ due_6_months r = Some d6
         /\ valid_date d3 /\ valid_date d4 /\ valid_date d6
         /\ month_index d3 = month_index d + 3
         /\ month_index d4 = month_index d + 4
         /\ month_index d6 = month_index d + 6
         /\ day d3 = Z.min (day d) (days_in_month (year d3) (month d3))
         /\ day d4 = Z.min (day d) (days_in_month (year d4) (month d4))
         /\ day d6 = Z.min (day d) (days_in_month (year d6) (month d6))
         /\ day_number d3 <= day_number d4 <= day_number d6)
  /\ (forall k3 k4 k6 : Z,
       ~ (forall d, valid_date d ->
            day_number (add_months d 3) = day_number d + k3
            /\ day_number (add_months d 4) = day_number d + k4
            /\ day_number (add_months d 6) = day_number d + k6)).
Proof.
  split; [| split].
  - intros r H. unfold due_3_months, due_4_months, due_6_months, plus_months.
    rewrite H. auto.
  - intros r d H V.
    exists (add_months d 3), (add_months d 4), (add_months d 6).
    unfold due_3_months, due_4_months, due_6_months, plus_months. rewrite H.
    cbn [option_map].
    pose proof (add_months_lt d 3 4 V). pose proof (add_months_lt d 4 6 V).
    split; [reflexivity |]. split; [reflexivity |]. split; [reflexivity |].
    split; [apply add_months_valid; exact V |].
    split; [apply add_months_valid; exact V |].
    split; [apply add_months_valid; exact V |].
    split; [apply add_months_index |].
    split; [apply add_months_index |].
    split; [apply add_months_index |].
    split; [reflexivity |]. split; [reflexivity |]. split; [reflexivity |].
    lia.
  - intros k3 k4 k6 H.
    assert (V1 : valid_date (mkDate 2023 1 1)) by date_literal.
    assert (V2 : valid_date (mkDate 2023 3 1)) by date_literal.
    destruct (H _ V1) as (A & _). destruct (H _ V2) as (B & _).
    assert (E1 : day_number (add_months (mkDate 2023 1 1) 3)
                 - day_number (mkDate 2023 1 1) = 90) by reflexivity.
    assert (E2 : day_number (add_months (mkDate 2023 3 1) 3)
                 - day_number (mkDate 2023 3 1) = 92) by reflexivity.
    lia.
Qed.

Lemma due_dates_by_calendar_months_witness :
  exists d3 d4 d6,
    due_3_months (mkRow (Some (mkDate 2023 11 30)) None) = Some d3
    /\ due_4_months (mkRow (Some (mkDate 2023 11 30)) None) = Some d4
    /\ due_6_months (mkRow (Some (mkDate 2023 11 30)) None) = Some d6
    /\ day_number d3 <= day_number d4 <= day_number d6.
Proof.
  destruct (proj1 (proj2 due_dates_by_calendar_months)
              (mkRow (Some (mkDate 2023 11 30)) None) (mkDate 2023 11 30)
              eq_refl)
    as (d3 & d4 & d6 & E3 & E4 & E6 & _ & _ & _ & _ & _ & _ & _ & _ & _ & O).
  - date_literal.
  - exists d3, d4, d6. auto.
Defined.

End SchemaFacts.

(** ** The status classifier *)

Module DevicesTableFacts.
Import Calendar CalendarFacts JsFacts DevicesTable.

Lemma truthy_iso d : Js.truthy (Some (iso d)) = true.
Proof. reflexivity. Qed.

Lemma getTime_iso d : iso_date d -> getTime (iso d) = Some (epoch_ms d).
Proof. intros I. unfold getTime. rewrite parse_iso_iso by exact I. reflexivity. Qed.

Lemma dueDates_elements device :
  Forall date_or_null (dues device) ->
  forall v, In v (dueDates device) ->
       exists d, iso_date d /\ In (Some (iso d)) (dues device)
                 /\ v = Some (epoch_ms d).
Proof.
  intros F v Hv. unfold dueDates in Hv. fold (dues device) in Hv.
  apply in_map_iff in Hv. destruct Hv as (s & <- & Hs).
  apply filter_In in Hs. destruct Hs as [Hs T].
  rewrite Forall_forall in F. destruct (F s Hs) as [-> | (d & I & ->)].
  - discriminate T.
  - exists d. split; [exact I |]. split; [exact Hs |].
    cbn [newDate]. apply getTime_iso, I.
Qed.

Lemma dueDates_complete device d :
  iso_date d -> In (Some (iso d)) (dues device) ->
  In (Some (epoch_ms d)) (dueDates device).
Proof.
  intros I H. unfold dueDates. fold (dues device).
  apply in_map_iff. exists (Some (iso d)). split.
  - cbn [newDate]. apply getTime_iso, I.
  - apply filter_In. split; [exact H | apply truthy_iso].
Qed.

(** C4. A device whose [last_repair_date] holds a date is classified
    [repair], whatever its due dates are. *)
Theorem repair_overrides_due_dates now device repaired :
  last_repair_date device = Some (iso repaired) ->
  getDeviceStatus now device = "repair"%string.
Proof.
  intros H. unfold getDeviceStatus. rewrite H. reflexivity.
Qed.

Lemma repair_overrides_due_dates_witness :
  getDeviceStatus 1704196800000
    (mkDevice (Some "1999-01-01"%string) (Some "1999-04-01"%string)
              (Some "1999-05-01"%string) (Some "1999-07-01"%string)
              (Some (iso (mkDate 2024 1 1))))
  = "repair"%string.
Proof.
  apply (repair_overrides_due_dates _ _ (mkDate 2024 1 1)). reflexivity.
Defined.

(** C3, as the code has it. Without a repair date, a device with no due
    date is [scheduled], which is the case of every row without a cleaning
    date. With due dates, the nearest one is taken at 00:00 UTC and compared
    with the instant [now], time of day included: [due] when it is strictly
    earlier, [maintain] otherwise. *)
Theorem classify_without_repair now device :
  last_repair_date device = None ->
  (due_3_months device = None -> due_4_months device = None ->
   due_6_months device = None -> getDeviceStatus now device = "scheduled"%string)
  /\ (forall r, device = of_row r -> Schema.last_cleaning_date r = None ->
        getDeviceStatus now device = "scheduled"%string)
  /\ (Forall date_or_null (dues device) ->
      Exists (fun v => v <> None) (dues device) ->
      exists nearest,
        iso_date nearest /\ In (Some (iso nearest)) (dues device)
        /\ (forall d, iso_date d -> In (Some (iso d)) (dues device) ->
              day_number nearest <= day_number d)
        /\ getDeviceStatus now device =
           if epoch_ms nearest <? now then "due"%string else "maintain"%string).
Proof.
  intros R. split; [| split].
  - intros H3 H4 H6. unfold getDeviceStatus. rewrite R, H3, H4, H6.
    cbn [Js.truthy orb]. destruct (Js.truthy (last_cleaning_date device)); reflexivity.
  - intros r -> H. unfold getDeviceStatus, of_row in *. cbn in *.
    unfold Schema.due_3_months, Schema.due_4_months, Schema.due_6_months,
      Schema.plus_months. rewrite R, H. reflexivity.
  - intros F E.
    assert (T : Js.truthy (due_3_months device) || Js.truthy (due_4_months device)
                || Js.truthy (due_6_months device) = true).
    { apply Exists_exists in E. destruct E as (v & Hv & Nv).
      rewrite Forall_forall in F. destruct (F v Hv) as [-> | (d & _ & ->)];
        [contradiction |].
      destruct Hv as [H | [H | [H | []]]]; rewrite H, truthy_iso;
        rewrite ?orb_true_r; reflexivity. }
    assert (N : dueDates device <> []).
    { apply Exists_exists in E. destruct E as (v & Hv & Nv).
      rewrite Forall_forall in F. destruct (F v Hv) as [-> | (d & I & ->)];
        [contradiction |].
      intros Em. pose proof (dueDates_complete device d I Hv) as C.
      rewrite Em in C. exact C. }
    assert (K : Js.by_key by_time time_key (dueDates device)).
    { intros x y Hx Hy.
      destruct (dueDates_elements device F x Hx) as (dx & _ & _ & ->).
      destruct (dueDates_elements device F y Hy) as (dy & _ & _ & ->).
      cbn [by_time time_key].
      destruct (Z.leb_spec (epoch_ms dx - epoch_ms dy) 0),
        (Z.leb_spec (epoch_ms dx) (epoch_ms dy)); try reflexivity; lia. }
    destruct (sort_head by_time time_key (dueDates device) K N)
      as (x & rest & S & Hx & Min).
    destruct (dueDates_elements device F x Hx) as (nearest & I & Hn & ->).
    exists nearest. split; [exact I |]. split; [exact Hn |]. split.
    + intros d Id Hd.
      specialize (Min _ (dueDates_complete device d Id Hd)).
      cbn [time_key] in Min. unfold epoch_ms, ms_per_day in Min. lia.
    + unfold getDeviceStatus. rewrite R. cbn [Js.truthy]. rewrite T, S.
      reflexivity.
Qed.

Lemma classify_without_repair_witness :
  getDeviceStatus 1704196800000
    (of_row (Schema.mkRow None None)) = "scheduled"%string
  /\ exists nearest,
       In (Some (iso nearest))
          (dues (of_row (Schema.mkRow (Some (mkDate 2023 10 2)) None)))
       /\ getDeviceStatus 1704196800000
            (of_row (Schema.mkRow (Some (mkDate 2023 10 2)) None))
          = if epoch_ms nearest <? 1704196800000
            then "due"%string else "maintain"%string.
Proof.
  split.
  - exact (proj1 (proj2 (classify_without_repair 1704196800000
                           (of_row (Schema.mkRow None None)) eq_refl))
                 (Schema.mkRow None None) eq_refl eq_refl).
  - destruct (proj2 (proj2 (classify_without_repair 1704196800000
                (of_row (Schema.mkRow (Some (mkDate 2023 10 2)) None)) eq_refl)))
      as (nearest & _ & Hin & _ & St).
    + apply Forall_cons;
        [right; iso_literal (mkDate 2024 1 2) |].
      apply Forall_cons;
        [right; iso_literal (mkDate 2024 2 2) |].
      apply Forall_cons;
        [right; iso_literal (mkDate 2024 4 2) |].
      apply Forall_nil.
    + apply Exists_cons_hd. discriminate.
    + exists nearest. split; [exact Hin | exact St].
Defined.

(** C3, as the specification words it, fails: on 2024-01-02 at 12:00 UTC a
    device whose nearest due date is 2024-01-02 is [due], although that date
    is not before the date of [now]. *)
Lemma date_only_comparison_fails :
  let now := 1704196800000 in
  let device := of_row (Schema.mkRow (Some (mkDate 2023 10 2)) None) in
  let nearest := mkDate 2024 1 2 in
  last_repair_date device = None
  /\ dues device = [Some (iso nearest); Some (iso (mkDate 2024 2 2));
                    Some (iso (mkDate 2024 4 2))]
  /\ day_of_instant now = day_number nearest
  /\ date_only_rule now nearest = "maintain"%string
  /\ getDeviceStatus now device = "due"%string
  /\ getDeviceStatus now device <> date_only_rule now nearest.
Proof.
  cbv zeta. repeat split; try reflexivity. vm_compute. discriminate.
Qed.

End DevicesTableFacts.

(** ** Maps in insertion order *)

Module MapFacts.

Section Lookup.
Context {V : Type}.
Implicit Types (m : list (string * V)) (k : string) (v : V).

Lemma get_set_same m k v : Js.get (Js.set m k v) k = Some v.
Proof.
  induction m as [| [k' v'] m IH]; cbn [Js.set Js.get].
  - rewrite String.eqb_refl. reflexivity.
  - destruct (String.eqb_spec k' k) as [-> | N]; cbn [Js.get].
    + rewrite String.eqb_refl. reflexivity.
    + destruct (String.eqb_spec k' k); [contradiction | exact IH].
Qed.

Lemma get_set_other m k v k0 : k0 <> k -> Js.get (Js.set m k v) k0 = Js.get m k0.
Proof.
  intros N. induction m as [| [k' v'] m IH]; cbn [Js.set Js.get].
  - destruct (String.eqb_spec k k0); [congruence | reflexivity].
  - destruct (String.eqb_spec k' k) as [-> | N']; cbn [Js.get].
    + destruct (String.eqb_spec k k0); [congruence | reflexivity].
    + rewrite IH. reflexivity.
Qed.

Lemma get_In m k v : Js.get m k = Some v -> In (k, v) m.
Proof.
  induction m as [| [k' v'] m IH]; cbn [Js.get]; [discriminate |].
  destruct (String.eqb_spec k' k) as [-> | N].
  - intros [= ->]. left; reflexivity.
  - intros H. right. apply IH, H.
Qed.

Lemma get_None m k : Js.get m k = None -> ~ In k (map fst m).
Proof.
  induction m as [| [k' v'] m IH]; cbn [Js.get map fst]; [intros _ [] |].
  destruct (String.eqb_spec k' k) as [-> | N]; [discriminate |].
  intros H [E | I]; [contradiction | exact (IH H I)].
Qed.

Lemma In_get m k v : NoDup (map fst m) -> In (k, v) m -> Js.get m k = Some v.
Proof.
  induction m as [| [k' v'] m IH]; cbn [Js.get map fst]; [intros _ [] |].
  intros D [E | I].
  - injection E as -> ->. rewrite String.eqb_refl. reflexivity.
  - inversion D as [| ? ? NI D']; subst.
    destruct (String.eqb_spec k' k) as [-> | N].
    + exfalso. apply NI. change k with (fst (k, v)). apply in_map, I.
    + apply IH; assumption.
Qed.

Lemma keys_set m k v :
  map fst (Js.set m k v) =
  match Js.get m k with
  | Some _ => map fst m
  | None => map fst m ++ [k]
  end.
Proof.
  induction m as [| [k' v'] m IH]; cbn [Js.set Js.get map fst app];
    [reflexivity |].
  destruct (String.eqb_spec k' k) as [-> | N]; cbn [map fst].
  - reflexivity.
  - rewrite IH. destruct (Js.get m k); reflexivity.
Qed.

Lemma NoDup_set m k v : NoDup (map fst m) -> NoDup (map fst (Js.set m k v)).
Proof.
  intros D. rewrite keys_set. destruct (Js.get m k) eqn:E; [exact D |].
  apply NoDup_app.
  - exact D.
  - constructor; [intros [] | constructor].
  - intros x Hx [<- | []]. exact (get_None _ _ E Hx).
Qed.
End Lookup.

Lemma NoDup_map_factor {A B C : Type} (p : A -> B) (h : B -> C) (l : list A) :
  NoDup (map (fun x => h (p x)) l) -> NoDup (map p l).
Proof.
  induction l as [| a l IH]; cbn [map]; intros D; [constructor |].
  inversion D as [| ? ? NI D']; subst. constructor; [| apply IH, D'].
  intros I. apply NI. apply in_map_iff in I. destruct I as (x & E & Hx).
  apply in_map_iff. exists x. split; [rewrite E; reflexivity | exact Hx].
Qed.


End MapFacts.

(** ** The overdue card: one obligation per device *)

Module OverdueCardFacts.
Import Calendar CalendarFacts MapFacts OverdueCard.

(** *** Days overdue *)

Lemma ceil_div_shift now n :
  Js.ceil_div (now - n * ms_per_day) ms_per_day = Js.ceil_div now ms_per_day - n.
Proof.
  unfold Js.ceil_div.
  replace (- (now - n * ms_per_day)) with (- now + n * ms_per_day) by lia.
  rewrite Z.div_add by (unfold ms_per_day; lia). lia.
Qed.

Lemma daysOverdue_iso now d :
  iso_date d ->
  daysOverdue now (iso d) = Some (Js.ceil_div now ms_per_day - day_number d).
Proof.
  intros I. unfold daysOverdue, getTime. rewrite parse_iso_iso by exact I.
  cbn [option_map]. unfold epoch_ms. rewrite ceil_div_shift. reflexivity.
Qed.

(** *** The test of the reducer and the order of urgency *)





(** *** What one call of the reducer does to the entries *)

Lemma lookup_reducer_same today acc d :
  lookup (reducer today acc d) (clientKey d) (deviceKey d) =
  match lookup acc (clientKey d) (deviceKey d) with
  | None => Some d
  | Some ex => if replaces today d ex then Some d else Some ex
  end.
Proof.
  unfold reducer, lookup.
  destruct (Js.get acc (clientKey d)) as [g |] eqn:G.
  - rewrite G. destruct (Js.get (g_devices g) (deviceKey d)) as [ex |] eqn:X.
    + destruct (replaces today d ex).
      * rewrite get_set_same. cbn [g_devices]. apply get_set_same.
      * rewrite G. exact X.
    + rewrite get_set_same. cbn [g_devices]. apply get_set_same.
  - rewrite get_set_same. cbn [g_devices Js.get].
    rewrite get_set_same. cbn [g_devices Js.set Js.get].
    rewrite String.eqb_refl. reflexivity.
Qed.

Lemma lookup_reducer_other today acc d ck dk :
  (ck, dk) <> keys d ->
  lookup (reducer today acc d) ck dk = lookup acc ck dk.
Proof.
  intros N. unfold keys in N.
  assert (S : forall acc1 g,
             Js.get acc1 (clientKey d) = Some g ->
             lookup (Js.set acc1 (clientKey d)
                       (mkGroup (g_client_name g) (g_location_name g)
                                (Js.set (g_devices g) (deviceKey d) d))) ck dk
             = lookup acc1 ck dk).
  { intros acc1 g G. unfold lookup.
    destruct (String.eqb_spec ck (clientKey d)) as [-> | NC].
    - rewrite get_set_same, G. cbn [g_devices].
      apply get_set_other. congruence.
    - rewrite get_set_other by exact NC. reflexivity. }
  assert (F : Js.get acc (clientKey d) = None ->
              lookup (Js.set acc (clientKey d)
                        (mkGroup (client_name d) (location_name d) [])) ck dk
              = lookup acc ck dk).
  { intros G. unfold lookup.
    destruct (String.eqb_spec ck (clientKey d)) as [-> | NC].
    - rewrite get_set_same, G. reflexivity.
    - rewrite get_set_other by exact NC. reflexivity. }
  unfold reducer.
  destruct (Js.get acc (clientKey d)) as [g |] eqn:G.
  - rewrite G. destruct (Js.get (g_devices g) (deviceKey d)) as [ex |].
    + destruct (replaces today d ex); [apply S, G | reflexivity].
    + apply S, G.
  - rewrite get_set_same. cbn [g_devices Js.get].
    rewrite S by apply get_set_same. apply F. reflexivity.
Qed.

Lemma wf_set acc ck g :
  wf acc -> NoDup (map fst (g_devices g)) -> wf (Js.set acc ck g).
Proof.
  intros [D W] Dg. split; [apply NoDup_set, D |].
  intros k g'. destruct (String.eqb_spec k ck) as [-> | N].
  - rewrite get_set_same. intros [= <-]. exact Dg.
  - rewrite get_set_other by exact N. apply W.
Qed.

Lemma wf_reducer today acc d : wf acc -> wf (reducer today acc d).
Proof.
  intros W.
  assert (S : forall acc1 g,
             wf acc1 -> Js.get acc1 (clientKey d) = Some g ->
             wf (Js.set acc1 (clientKey d)
                   (mkGroup (g_client_name g) (g_location_name g)
                            (Js.set (g_devices g) (deviceKey d) d)))).
  { intros acc1 g W1 G. apply wf_set; [exact W1 |]. cbn [g_devices].
    apply NoDup_set. exact (proj2 W1 _ _ G). }
  unfold reducer.
  destruct (Js.get acc (clientKey d)) as [g |] eqn:G.
  - rewrite G. destruct (Js.get (g_devices g) (deviceKey d)) as [ex |].
    + destruct (replaces today d ex); [apply S; assumption | exact W].
    + apply S; assumption.
  - rewrite get_set_same. cbn [g_devices Js.get].
    apply S; [| apply get_set_same].
    apply wf_set; [exact W | constructor].
Qed.

(** *** The entries after a run of the reducer *)

Lemma keys_dec (p q : string * string) : {p = q} + {p <> q}.
Proof. decide equality; apply string_dec. Qed.


Lemma first_best_In r l : first_best r l -> In r l.
Proof.
  intros (b & a & -> & _). apply in_or_app. right. left. reflexivity.
Qed.

Lemma dated_In l d : dated l -> In d l -> is_iso (due_date d).
Proof. unfold dated. rewrite Forall_forall. intros F H. apply F, H. Qed.




(** The well-formedness of the maps needs no assumption on the dates. *)
Lemma reduce_from_wf clock rest :
  forall i acc, wf acc -> wf (reduce_from clock i acc rest).
Proof.
  induction rest as [| d rest IH]; intros i acc W; cbn [reduce_from];
    [exact W | apply IH, wf_reducer, W].
Qed.

(** *** From the maps to the arrays *)

Lemma retained_flat clock devices :
  retained clock devices =
  flat_map (fun kg => map snd (g_devices (snd kg))) (groupedDevices clock devices).
Proof.
  unfold retained, clientGroups.
  induction (groupedDevices clock devices) as [| kg acc IH]; cbn; [reflexivity |].
  rewrite IH. reflexivity.
Qed.


(** *** The keys of the entries, whatever the dates are *)

Lemma keyed_reducer today acc pre d :
  keyed acc pre -> keyed (reducer today acc d) (pre ++ [d]).
Proof.
  intros H ck dk.
  destruct (keys_dec (ck, dk) (keys d)) as [E | N].
  - injection E as -> ->. rewrite lookup_reducer_same.
    specialize (H (clientKey d) (deviceKey d)).
    destruct (lookup acc (clientKey d) (deviceKey d)) as [ex |].
    + destruct H as [Kex Hex]. destruct (replaces today d ex).
      * split; [reflexivity | apply in_or_app; right; left; reflexivity].
      * split; [exact Kex | apply in_or_app; left; exact Hex].
    + split; [reflexivity | apply in_or_app; right; left; reflexivity].
  - rewrite lookup_reducer_other by exact N. specialize (H ck dk).
    destruct (lookup acc ck dk) as [r |].
    + destruct H as [Kr Hr]. split; [exact Kr | apply in_or_app; left; exact Hr].
    + intros x Hx. apply in_app_or in Hx. destruct Hx as [Hx | [<- | []]].
      * apply H, Hx.
      * congruence.
Qed.

Lemma reduce_from_keyed clock rest :
  forall i acc pre,
    wf acc -> keyed acc pre ->
    wf (reduce_from clock i acc rest)
    /\ keyed (reduce_from clock i acc rest) (pre ++ rest).
Proof.
  induction rest as [| d rest IH]; intros i acc pre W H; cbn [reduce_from].
  - rewrite app_nil_r. split; assumption.
  - replace (pre ++ d :: rest) with ((pre ++ [d]) ++ rest)
      by (rewrite <- app_assoc; reflexivity).
    apply IH; [apply wf_reducer, W | apply keyed_reducer, H].
Qed.

Lemma groupedDevices_keyed clock devices :
  wf (groupedDevices clock devices)
  /\ keyed (groupedDevices clock devices) devices.
Proof.
  unfold groupedDevices.
  apply (reduce_from_keyed clock devices 0%nat [] []).
  - split; [constructor | intros ck g; discriminate].
  - intros ck dk. cbn. intros d [].
Qed.

Lemma keyed_entry acc pre ck g dk r :
  wf acc -> keyed acc pre ->
  In (ck, g) acc -> In (dk, r) (g_devices g) ->
  keys r = (ck, dk) /\ In r pre.
Proof.
  intros [D W] K Hg Hr. specialize (K ck dk). unfold lookup in K.
  pose proof (In_get _ _ _ D Hg) as G. rewrite G in K.
  rewrite (In_get _ _ _ (W _ _ G) Hr) in K. exact K.
Qed.





(** Of two 3-month obligations of a device, the one overdue for longer is
    kept, in whichever order they come; of two that tie, the first. *)
Example longer_overdue_is_kept :
  let now := 1704196800000 in
  let d10 := mkDeviceOverdue "u1" "AC" "A" "Home" "due_3_months" "2023-12-23" in
  let d3 := mkDeviceOverdue "u1" "AC" "A" "Home" "due_3_months" "2023-12-30" in
  let tie := mkDeviceOverdue "u1" "AC" "A" "Home" "3_months" "2023-12-23" in
  daysOverdue now (due_date d10) = Some 11
  /\ daysOverdue now (due_date d3) = Some 4
  /\ retained (fun _ => now) [d3; d10] = [d10]
  /\ retained (fun _ => now) [d10; d3] = [d10]
  /\ retained (fun _ => now) [d10; tie] = [d10]
  /\ retained (fun _ => now) [tie; d10] = [tie].
Proof. cbv zeta. repeat split; reflexivity. Qed.


(** *** The identity of a device in a group *)

Lemma append_same_head a x y : a +++ x = a +++ y -> x = y.
Proof.
  induction a as [| c a IH]; cbn [String.append]; [tauto |].
  intros [= H]. apply IH, H.
Qed.

Lemma append_same_length a b x y :
  String.length a = String.length b -> a +++ x = b +++ y -> a = b /\ x = y.
Proof.
  revert b. induction a as [| c a IH]; intros [| c' b]; cbn; try discriminate.
  - intros _ H. split; [reflexivity | exact H].
  - intros [= L] [= -> H]. destruct (IH b L H) as [-> ->]. split; reflexivity.
Qed.

Lemma In_clientGroups clock devices g :
  In g (clientGroups clock devices) <->
  exists ck g', In (ck, g') (groupedDevices clock devices)
                /\ g = mkClientGroup (g_client_name g') (g_location_name g')
                                     (map snd (g_devices g')).
Proof.
  unfold clientGroups. rewrite in_map_iff. split.
  - intros ([ck g'] & <- & H). exists ck, g'. split; [exact H | reflexivity].
  - intros (ck & g' & H & ->). exists (ck, g'). split; [reflexivity | exact H].
Qed.

(** C10. The reducer tells the devices of a group apart by id and name
    together: a group never shows two obligations with the same id and the
    same name, and of two records of one group with the same id and
    different names each has an obligation shown under its own key, a
    different one for each. With ids that are UUIDs the two obligations shown
    carry the id and the name of the two records. *)
Theorem group_keeps_one_per_id_and_name clock devices :
  (forall g, In g (clientGroups clock devices) ->
        NoDup (map (fun r => (id r, name r)) (cg_devices g)))
  /\ (forall d1 d2,
        In d1 devices -> In d2 devices ->
        id d1 = id d2 -> name d1 <> name d2 ->
        client_name d1 = client_name d2 -> location_name d1 = location_name d2 ->
        exists g r1 r2,
          In g (clientGroups clock devices)
          /\ In r1 (cg_devices g) /\ In r2 (cg_devices g) /\ r1 <> r2
          /\ deviceKey r1 = deviceKey d1 /\ deviceKey r2 = deviceKey d2
          /\ (uuid_ids devices ->
              (id r1, name r1) = (id d1, name d1)
              /\ (id r2, name r2) = (id d2, name d2))).
Proof.
  destruct (groupedDevices_keyed clock devices) as [W K]. split.
  - intros g Hg. apply In_clientGroups in Hg. destruct Hg as (ck & g' & Hg & ->).
    cbn [cg_devices].
    apply (NoDup_map_factor (fun r => (id r, name r))
                            (fun p => fst p +++ "-" +++ snd p)).
    cbn [fst snd]. change (fun x => id x +++ "-" +++ name x) with deviceKey.
    replace (map deviceKey (map snd (g_devices g'))) with (map fst (g_devices g')).
    + destruct W as [D W]. apply (W ck). apply In_get; assumption.
    + rewrite map_map. apply map_ext_in. intros [dk r] Hr. cbn [fst snd].
      destruct (keyed_entry _ _ _ _ _ _ W K Hg Hr) as [[= _ E] _]. symmetry. exact E.
  - intros d1 d2 H1 H2 Ei Nn Ec El.
    assert (Eck : clientKey d2 = clientKey d1).
    { unfold clientKey. rewrite Ec, El. reflexivity. }
    assert (Nk : deviceKey d1 <> deviceKey d2).
    { unfold deviceKey. rewrite Ei. intros E. apply Nn.
      apply append_same_head in E. apply (append_same_head "-"), E. }
    pose proof (K (clientKey d1) (deviceKey d1)) as K1.
    pose proof (K (clientKey d1) (deviceKey d2)) as K2.
    unfold lookup in K1, K2.
    destruct (Js.get (groupedDevices clock devices) (clientKey d1)) as [g' |] eqn:G.
    2:{ exfalso. exact (K1 d1 H1 eq_refl). }
    destruct (Js.get (g_devices g') (deviceKey d1)) as [r1 |] eqn:G1.
    2:{ exfalso. exact (K1 d1 H1 eq_refl). }
    destruct (Js.get (g_devices g') (deviceKey d2)) as [r2 |] eqn:G2.
    2:{ exfalso. apply (K2 d2 H2). unfold keys. rewrite Eck. reflexivity. }
    destruct K1 as [[= _ E1] I1]. destruct K2 as [[= _ E2] I2].
    exists (mkClientGroup (g_client_name g') (g_location_name g')
                          (map snd (g_devices g'))), r1, r2.
    split.
    { apply In_clientGroups. exists (clientKey d1), g'.
      split; [apply get_In, G | reflexivity]. }
    cbn [cg_devices].
    split. { apply in_map_iff. exists (deviceKey d1, r1).
             split; [reflexivity | apply get_In, G1]. }
    split. { apply in_map_iff. exists (deviceKey d2, r2).
             split; [reflexivity | apply get_In, G2]. }
    split. { intros ->. apply Nk. congruence. }
    split; [exact E1 |]. split; [exact E2 |].
    intros U. unfold uuid_ids in U. rewrite Forall_forall in U.
    unfold deviceKey in E1, E2.
    apply append_same_length in E1;
      [| rewrite (U _ I1), (U _ H1); reflexivity].
    apply append_same_length in E2;
      [| rewrite (U _ I2), (U _ H2); reflexivity].
    destruct E1 as [-> E1], E2 as [-> E2].
    apply (append_same_head "-") in E1. apply (append_same_head "-") in E2.
    rewrite E1, E2. split; reflexivity.
Qed.

Lemma group_keeps_one_per_id_and_name_witness :
  let u := "3f2b8c1e-7a4d-4e5f-9b6a-0c1d2e3f4a5b"%string in
  let d1 := mkDeviceOverdue u "Bedroom AC" "A" "Home" "due_3_months" "2024-01-01" in
  let d2 := mkDeviceOverdue u "Sala AC" "A" "Home" "due_3_months" "2024-01-01" in
  exists g r1 r2,
    In g (clientGroups (fun _ => 1704196800000) [d1; d2])
    /\ In r1 (cg_devices g) /\ In r2 (cg_devices g) /\ r1 <> r2
    /\ (id r1, name r1) = (id d1, name d1)
    /\ (id r2, name r2) = (id d2, name d2).
Proof.
  cbv zeta.
  destruct (proj2 (group_keeps_one_per_id_and_name (fun _ => 1704196800000)
     [mkDeviceOverdue "3f2b8c1e-7a4d-4e5f-9b6a-0c1d2e3f4a5b" "Bedroom AC" "A"
                      "Home" "due_3_months" "2024-01-01";
      mkDeviceOverdue "3f2b8c1e-7a4d-4e5f-9b6a-0c1d2e3f4a5b" "Sala AC" "A"
                      "Home" "due_3_months" "2024-01-01"])
     _ _ (or_introl eq_refl) (or_intror (or_introl eq_refl)) eq_refl)
    as (g & r1 & r2 & Hg & H1 & H2 & N & _ & _ & U).
  - cbn [name]. discriminate.
  - reflexivity.
  - reflexivity.
  - exists g, r1, r2. repeat (split; [assumption |]).
    apply U. repeat constructor.
Defined.

End OverdueCardFacts.

(** ** The due-soon card: groups, their aggregates and their order *)

Module DueCardFacts.
Import Calendar CalendarFacts JsFacts MapFacts DueCard.

Lemma members_app pre d k :
  members (pre ++ [d]) k =
  members pre k ++ (if String.eqb (key d) k then [d] else []).
Proof. unfold members. rewrite filter_app. reflexivity. Qed.

Lemma members_none pre k :
  (forall d, In d pre -> key d <> k) -> members pre k = [].
Proof.
  intros H. unfold members. induction pre as [| x pre IH]; [reflexivity |].
  cbn [filter]. destruct (String.eqb_spec (key x) k) as [E | N].
  - exfalso. exact (H x (or_introl eq_refl) E).
  - apply IH. intros d Hd. apply H. right. exact Hd.
Qed.

Lemma In_members pre k d : In d (members pre k) <-> In d pre /\ key d = k.
Proof.
  unfold members. rewrite filter_In. rewrite String.eqb_eq. reflexivity.
Qed.

Lemma dated_app pre d : dated (pre ++ [d]) -> dated pre /\ is_iso (due_date d).
Proof.
  unfold dated. intros F. apply Forall_app in F. destruct F as [F1 F2].
  split; [exact F1 | inversion F2; assumption].
Qed.

(** [a < b] on two rendered dates is the order of the dates. *)
Lemma str_lt_iso a b :
  iso_date a -> iso_date b ->
  str_lt (iso a) (iso b) = (day_number a <? day_number b).
Proof.
  intros Ia Ib. unfold str_lt, String.ltb. rewrite compare_iso_day by assumption.
  unfold Z.ltb. reflexivity.
Qed.

Lemma iso_inj a b : iso_date a -> iso_date b -> iso a = iso b -> a = b.
Proof.
  intros Ia Ib E. pose proof (parse_iso_iso a Ia) as Pa.
  rewrite E, (parse_iso_iso b Ib) in Pa. congruence.
Qed.

(** *** One visit *)

Lemma get_visit_same cm d :
  Js.get (visit cm d) (key d) =
  Some (grown (match Js.get cm (key d) with Some g => g | None => fresh d end) d).
Proof.
  unfold visit. destruct (Js.get cm (key d)) as [g |] eqn:G.
  - rewrite G. apply get_set_same.
  - rewrite get_set_same. apply get_set_same.
Qed.

Lemma get_visit_other cm d k : k <> key d -> Js.get (visit cm d) k = Js.get cm k.
Proof.
  intros N. unfold visit. destruct (Js.get cm (key d)) as [g |] eqn:G.
  - rewrite G. apply get_set_other, N.
  - rewrite get_set_same. rewrite !get_set_other by exact N. reflexivity.
Qed.

Lemma NoDup_visit cm d : NoDup (map fst cm) -> NoDup (map fst (visit cm d)).
Proof.
  intros D. unfold visit. destruct (Js.get cm (key d)) as [g |] eqn:G.
  - rewrite G. apply NoDup_set, D.
  - rewrite get_set_same. apply NoDup_set, NoDup_set, D.
Qed.

Lemma grown_least g d :
  is_iso (due_date d) ->
  (devices g = [] -> earliestDueDate g = due_date d) ->
  (devices g <> [] -> earliest_is_least g) ->
  earliest_is_least (grown g d).
Proof.
  intros (x & Ix & Ex) Hnil Hcons. unfold earliest_is_least, grown.
  cbn [earliestDueDate devices].
  destruct (devices g) as [| d0 ds] eqn:Dg.
  - rewrite (Hnil eq_refl).
    exists x. split; [exact Ix |]. split.
    + destruct (str_lt (due_date d) (due_date d)); exact Ex.
    + intros d' y [<- | []] Iy Ey. rewrite Ex in Ey.
      apply iso_inj in Ey; [subst; lia | assumption | assumption].
  - destruct Hcons as (e & Ie & Ee & Min); [discriminate |].
    rewrite Dg in Min.
    rewrite Ee, Ex, str_lt_iso by assumption.
    destruct (Z.ltb_spec (day_number x) (day_number e)) as [L | G].
    + exists x. split; [exact Ix |]. split; [reflexivity |].
      intros d' y Hd Iy Ey. apply in_app_or in Hd. destruct Hd as [Hd | [<- | []]].
      * specialize (Min d' y Hd Iy Ey). lia.
      * rewrite Ex in Ey. apply iso_inj in Ey; [subst; lia | assumption | assumption].
    + exists e. split; [exact Ie |]. split; [reflexivity |].
      intros d' y Hd Iy Ey. apply in_app_or in Hd. destruct Hd as [Hd | [<- | []]].
      * exact (Min d' y Hd Iy Ey).
      * rewrite Ex in Ey. apply iso_inj in Ey; [subst; lia | assumption | assumption].
Qed.

Lemma map_ok_visit cm pre d : map_ok cm pre -> map_ok (visit cm d) (pre ++ [d]).
Proof.
  intros [D H]. split; [apply NoDup_visit, D |].
  intros k. destruct (String.eqb_spec k (key d)) as [-> | N].
  - rewrite get_visit_same. specialize (H (key d)).
    unfold group_ok. rewrite members_app, String.eqb_refl.
    destruct (Js.get cm (key d)) as [g |].
    + destruct H as (Em & Ek & Et & Ein & Hl). cbn [grown devices totalDevices].
      split; [rewrite Em; reflexivity |]. split; [exact Ek |].
      split; [reflexivity |]. split.
      * unfold grown. cbn [earliestDueDate devices]. rewrite map_app.
        apply in_or_app.
        destruct (str_lt (due_date d) (earliestDueDate g));
          [right; left; reflexivity | left; exact Ein].
      * intros Dt. apply dated_app in Dt. destruct Dt as [Dt Id].
        apply grown_least; [exact Id | |].
        -- intros E. rewrite E in Ein. destruct Ein.
        -- intros _. apply Hl, Dt.
    + rewrite (members_none pre (key d) H). cbn [grown fresh devices totalDevices app].
      split; [reflexivity |]. split; [reflexivity |]. split; [reflexivity |].
      split.
      * unfold grown, fresh. cbn [earliestDueDate devices map app]. left.
        destruct (str_lt (due_date d) (due_date d)); reflexivity.
      * intros Dt. apply dated_app in Dt. destruct Dt as [Dt Id].
        apply grown_least; [exact Id | reflexivity |].
        intros Ne. exfalso. apply Ne. reflexivity.
  - rewrite get_visit_other by exact N. specialize (H k).
    destruct (Js.get cm k) as [g |].
    + destruct H as (Em & Ek & Et & Ein & Hl). unfold group_ok.
      rewrite members_app.
      destruct (String.eqb_spec (key d) k) as [E | _]; [congruence |].
      rewrite app_nil_r.
      split; [exact Em |]. split; [exact Ek |]. split; [exact Et |].
      split; [exact Ein |]. intros Dt. apply dated_app in Dt. apply Hl, Dt.
    + intros x Hx. apply in_app_or in Hx. destruct Hx as [Hx | [<- | []]].
      * apply H, Hx.
      * congruence.
Qed.

Lemma fold_visit_ok rest : forall cm pre,
  map_ok cm pre -> map_ok (fold_left visit rest cm) (pre ++ rest).
Proof.
  induction rest as [| d rest IH]; intros cm pre H; cbn [fold_left].
  - rewrite app_nil_r. exact H.
  - replace (pre ++ d :: rest) with ((pre ++ [d]) ++ rest)
      by (rewrite <- app_assoc; reflexivity).
    apply IH, map_ok_visit, H.
Qed.

Lemma clientMap_ok devices : map_ok (clientMap devices) devices.
Proof.
  unfold clientMap. apply (fold_visit_ok devices [] []).
  split; [constructor |]. intros k. cbn. intros d [].
Qed.

(** *** The groups shown *)

Lemma In_groupedClients devices g :
  In g (groupedClients devices) <->
  Js.get (clientMap devices) (key_of_group g) = Some g.
Proof.
  unfold groupedClients. rewrite sort_In.
  destruct (clientMap_ok devices) as [D H]. split.
  - intros Hg. apply in_map_iff in Hg. destruct Hg as ([k g'] & E & Hg).
    cbn [snd] in E. subst g'. pose proof (In_get _ _ _ D Hg) as G.
    specialize (H k). rewrite G in H. destruct H as (_ & Ek & _).
    rewrite Ek. exact G.
  - intros G. apply in_map_iff. exists (key_of_group g, g).
    split; [reflexivity | apply get_In, G].
Qed.

Lemma groupedClients_group_ok devices g :
  In g (groupedClients devices) -> group_ok devices (key_of_group g) g.
Proof.
  intros Hg. apply In_groupedClients in Hg.
  destruct (clientMap_ok devices) as [_ H]. specialize (H (key_of_group g)).
  rewrite Hg in H. exact H.
Qed.

Lemma group_time devices g :
  dated devices -> In g (map snd (clientMap devices)) ->
  exists e, iso_date e /\ earliestDueDate g = iso e /\ earliest_ms g = epoch_ms e.
Proof.
  intros Dt Hg. apply (sort_In by_earliest) in Hg. fold (groupedClients devices) in Hg.
  destruct (groupedClients_group_ok devices g Hg) as (_ & _ & _ & _ & Hl).
  destruct (Hl Dt) as (e & Ie & Ee & _). exists e.
  split; [exact Ie |]. split; [exact Ee |].
  unfold earliest_ms, getTime. rewrite Ee, parse_iso_iso by exact Ie. reflexivity.
Qed.




End DueCardFacts.

(** ** The key of a client group *)

Module GroupingFacts.
Import Calendar MapFacts.






End GroupingFacts.

(** ** The bulk SMS loop *)

Module SmsFacts.
Import Sms.

Section HandlerFacts.
Context {World : Type}.
Variable fetch : World -> Request -> FetchOutcome * World.
Variable SEMAPHORE_API_KEY : string.
Variable SEMAPHORE_SENDER_NAME : option string.

Local Abbreviation turn := (turn fetch SEMAPHORE_API_KEY SEMAPHORE_SENDER_NAME).
Local Abbreviation run := (run fetch SEMAPHORE_API_KEY SEMAPHORE_SENDER_NAME).
Local Abbreviation request := (request SEMAPHORE_API_KEY SEMAPHORE_SENDER_NAME).
Local Abbreviation runCampaign :=
  (runCampaign fetch SEMAPHORE_API_KEY SEMAPHORE_SENDER_NAME).
Local Abbreviation entry := (entry fetch SEMAPHORE_API_KEY SEMAPHORE_SENDER_NAME).
Local Abbreviation events := (events fetch SEMAPHORE_API_KEY SEMAPHORE_SENDER_NAME).
Local Abbreviation world_after :=
  (world_after fetch SEMAPHORE_API_KEY SEMAPHORE_SENDER_NAME).

Lemma turn_spec st client :
  turn st client =
  let r := entry (l_world st) client in
  mkLoop (l_results st ++ [r])
         (l_successCount st + (if success r then 1 else 0))
         (l_failureCount st + (if success r then 0 else 1))
         (l_trace st ++ events (l_world st) client)
         (world_after (l_world st) client).
Proof.
  unfold Sms.turn, Sms.entry, Sms.events, Sms.world_after, block.
  destruct (negb (eligible client)); cbn [success fst snd].
  - rewrite Z.add_0_r, app_nil_r. reflexivity.
  - destruct (fetch (l_world st) (request client)) as [out w] eqn:F.
    cbn [fst snd]. destruct out as [[|] text | msg |];
      cbn [success responded]; rewrite ?Z.add_0_r; reflexivity.
Qed.

(** The loop from any state is the loop from the initial one, put after
    what the state already holds. *)
Lemma fold_turn_frame clients : forall st,
  let st' := fold_left turn clients st in
  let fr := run (l_world st) clients in
  l_results st' = l_results st ++ l_results fr
  /\ l_successCount st' = l_successCount st + l_successCount fr
  /\ l_failureCount st' = l_failureCount st + l_failureCount fr
  /\ l_trace st' = l_trace st ++ l_trace fr
  /\ l_world st' = l_world fr.
Proof.
  unfold Sms.run.
  induction clients as [| c cs IH]; intros st; cbn [fold_left].
  - cbn. rewrite !app_nil_r. repeat split; lia.
  - destruct (IH (turn st c)) as (R & S & F & T & W).
    destruct (IH (turn (mkLoop [] 0 0 [] (l_world st)) c)) as (R' & S' & F' & T' & W').
    cbv zeta in *. rewrite R, S, F, T, W, R', S', F', T', W'.
    rewrite !turn_spec. cbn [l_results l_successCount l_failureCount l_trace
                             l_world app].
    rewrite <- !app_assoc. cbn [app]. repeat split; lia.
Qed.

Lemma run_cons w c cs :
  let st := run w (c :: cs) in
  let fr := run (world_after w c) cs in
  l_results st = entry w c :: l_results fr
  /\ l_successCount st = (if success (entry w c) then 1 else 0) + l_successCount fr
  /\ l_failureCount st = (if success (entry w c) then 0 else 1) + l_failureCount fr
  /\ l_trace st = events w c ++ l_trace fr
  /\ l_world st = l_world fr.
Proof.
  unfold Sms.run at 1. cbn [fold_left].
  destruct (fold_turn_frame cs (turn (mkLoop [] 0 0 [] w) c)) as (R & S & F & T & W).
  cbv zeta in *. rewrite R, S, F, T, W. rewrite turn_spec.
  cbn [l_results l_successCount l_failureCount l_trace l_world app].
  repeat split; lia.
Qed.

Lemma run_app w xs ys :
  let st := run w (xs ++ ys) in
  let st1 := run w xs in
  let st2 := run (l_world st1) ys in
  l_results st = l_results st1 ++ l_results st2
  /\ l_successCount st = l_successCount st1 + l_successCount st2
  /\ l_failureCount st = l_failureCount st1 + l_failureCount st2
  /\ l_trace st = l_trace st1 ++ l_trace st2
  /\ l_world st = l_world st2.
Proof.
  unfold Sms.run at 1 2. rewrite fold_left_app.
  apply (fold_turn_frame ys).
Qed.

Lemma runCampaign_run w clients :
  runCampaign w (Some clients) =
  (mkBulkSMSResponse (Z.of_nat (List.length clients))
                     (l_successCount (run w clients))
                     (l_failureCount (run w clients))
                     (l_results (run w clients)),
   l_trace (run w clients), l_world (run w clients)).
Proof. destruct clients; reflexivity. Qed.

Lemma entry_recipient w client :
  (r_mobile (entry w client), r_name (entry w client)) = recipient client.
Proof.
  unfold Sms.entry, recipient, eligible.
  destruct (mobile client) as [[| c m] |]; cbn [Js.truthy andb negb];
    try reflexivity.
  destruct (Js.truthy (qr_code client)); cbn [negb]; [| reflexivity].
  destruct (fst (fetch w (request client))) as [[|] text | msg |]; reflexivity.
Qed.

Lemma run_totals clients : forall w,
  let st := run w clients in
  l_successCount st + l_failureCount st = Z.of_nat (List.length clients)
  /\ List.length (l_results st) = List.length clients
  /\ map (fun r => (r_mobile r, r_name r)) (l_results st) = map recipient clients
  /\ l_successCount st = Z.of_nat (List.length (successes (l_results st)))
  /\ l_failureCount st = Z.of_nat (List.length (failures (l_results st))).
Proof.
  induction clients as [| c cs IH]; intros w.
  - cbn. repeat split; reflexivity.
  - destruct (run_cons w c cs) as (R & S & F & _).
    destruct (IH (world_after w c)) as (T & L & M & Cs & Cf).
    cbv zeta in *. rewrite R, S, F.
    unfold successes, failures in *. cbn [List.length map filter].
    rewrite entry_recipient, M.
    destruct (success (entry w c)); cbn [negb List.length];
      repeat split; try reflexivity; lia.
Qed.

(** C1. Whatever the gateway answers, the response counts every recipient
    once, as a success or as a failure, and [results] has one entry per
    recipient, in the order of the input, each for its own recipient. *)
Theorem campaign_accounts_for_every_recipient w clients :
  let resp := body (runCampaign w (Some clients)) in
  successCount resp + failureCount resp = Z.of_nat (List.length clients)
  /\ totalClients resp = Z.of_nat (List.length clients)
  /\ List.length (results resp) = List.length clients
  /\ map (fun r => (r_mobile r, r_name r)) (results resp) = map recipient clients
  /\ successCount resp = Z.of_nat (List.length (successes (results resp)))
  /\ failureCount resp = Z.of_nat (List.length (failures (results resp))).
Proof.
  cbv zeta. rewrite runCampaign_run. unfold body.
  cbn [fst successCount failureCount totalClients results].
  destruct (run_totals clients w) as (T & L & M & Cs & Cf).
  repeat split; assumption.
Qed.

Lemma nth_error_middle {A : Type} (l : list A) x l' n :
  List.length l = n -> nth_error (l ++ x :: l') n = Some x.
Proof.
  intros <-. induction l as [| y l IH]; [reflexivity | exact IH].
Qed.

(** The run over [before ++ client :: after], cut at [client]. *)
Lemma run_split w before client after :
  let w1 := l_world (run w before) in
  let st := run w (before ++ client :: after) in
  l_results st = l_results (run w before) ++ entry w1 client
                 :: l_results (run (world_after w1 client) after)
  /\ l_trace st = l_trace (run w before) ++ events w1 client
                  ++ l_trace (run (world_after w1 client) after).
Proof.
  destruct (run_app w before (client :: after)) as (R & _ & _ & T & _).
  destruct (run_cons (l_world (run w before)) client after) as (R' & _ & _ & T' & _).
  cbv zeta in *. rewrite R, T, R', T'. split; reflexivity.
Qed.

Lemma run_fetches clients : forall w,
  List.length (fetches (l_trace (run w clients)))
  = List.length (filter eligible clients).
Proof.
  induction clients as [| c cs IH]; intros w; [reflexivity |].
  destruct (run_cons w c cs) as (_ & _ & _ & T & _). cbv zeta in T.
  rewrite T. unfold fetches in *. rewrite flat_map_app, length_app, IH.
  cbn [filter]. unfold Sms.events.
  destruct (eligible c); cbn [negb]; [| reflexivity].
  unfold block. cbn [fst snd flat_map].
  destruct (responded (fst (fetch w (request c)))); reflexivity.
Qed.

(** C6. An empty or null list is answered with zeros and no call of the
    gateway. In a longer run a recipient without mobile number or QR code
    gets a failure entry with that reason and no call; for the others a
    response that is not ok, or a thrown error, gives a failure entry with
    the text of the response or the message of the error. In every case the
    loop goes on with the recipients that follow, and the gateway is called
    once for each recipient that has both fields. *)
Theorem failures_stay_with_their_recipient :
  (forall w,
     runCampaign w (Some []) = (mkBulkSMSResponse 0 0 0 [], [], w)
     /\ runCampaign w None = (mkBulkSMSResponse 0 0 0 [], [], w))
  /\ (forall w before client after,
       let w1 := world (runCampaign w (Some before)) in
       let upto := runCampaign w (Some (before ++ [client])) in
       let full := runCampaign w (Some (before ++ client :: after)) in
       let rest := runCampaign (world upto) (Some after) in
       let at_client := nth_error (results (body full)) (List.length before) in
       (eligible client = false ->
        at_client = Some (mkSMSResult (Js.or_else (mobile client) "N/A")
                            (Js.or_else (name client) "Unknown") false
                            (Some "Missing mobile number or QR code"%string) None)
        /\ trace upto = trace (runCampaign w (Some before))
        /\ world upto = w1)
       /\ (eligible client = true ->
           forall text w2,
             fetch w1 (request client) = (Responded false text, w2) ->
             at_client = Some (mkSMSResult (Js.String_ (mobile client))
                                 (Js.or_else (name client) "Unknown") false
                                 (Some (Js.or_else (Some text) "SMS sending failed"))
                                 None))
       /\ (eligible client = true ->
           forall msg w2,
             fetch w1 (request client) = (ThrewError msg, w2) ->
             at_client = Some (mkSMSResult (Js.or_else (mobile client) "N/A")
                                 (Js.or_else (name client) "Unknown") false
                                 (Some msg) None))
       /\ (eligible client = true ->
           forall w2,
             fetch w1 (request client) = (ThrewOther, w2) ->
             at_client = Some (mkSMSResult (Js.or_else (mobile client) "N/A")
                                 (Js.or_else (name client) "Unknown") false
                                 (Some "Unknown error"%string) None))
       /\ results (body full) = results (body upto) ++ results (body rest)
       /\ trace full = trace upto ++ trace rest
       /\ failureCount (body full)
          = failureCount (body upto) + failureCount (body rest)
       /\ List.length (results (body rest)) = List.length after)
  /\ (forall w clients,
       List.length (fetches (trace (runCampaign w (Some clients))))
       = List.length (filter eligible clients)
       /\ failureCount (body (runCampaign w (Some clients)))
          = Z.of_nat (List.length
                        (failures (results (body (runCampaign w (Some clients))))))).
Proof.
  split; [| split].
  - intros w. split; reflexivity.
  - intros w before client after. cbv zeta. rewrite !runCampaign_run.
    unfold body, trace, world.
    cbn [fst snd results failureCount].
    destruct (run_split w before client after) as (R & T).
    destruct (run_app w before [client]) as (R1 & _ & F1 & T1 & W1).
    destruct (run_cons (l_world (run w before)) client []) as (R2 & _ & F2 & T2 & W2).
    destruct (run_app w (before ++ [client]) after) as (R3 & _ & F3 & T3 & _).
    cbv zeta in *. rewrite <- app_assoc in R3, F3, T3. cbn [app] in R3, F3, T3.
    assert (L : List.length (l_results (run w before)) = List.length before).
    { apply run_totals. }
    assert (N : nth_error (l_results (run w (before ++ client :: after)))
                          (List.length before)
                = Some (entry (l_world (run w before)) client)).
    { rewrite R. apply nth_error_middle, L. }
    rewrite N.
    split; [| split; [| split; [| split; [| split; [| split; [| split]]]]]].
    + intros E. unfold Sms.entry. rewrite E. cbn [negb].
      split; [reflexivity |]. rewrite T1, W1, T2, W2.
      unfold Sms.events, Sms.world_after. rewrite E. cbn [negb app Sms.run fold_left l_trace l_world].
      rewrite app_nil_r. split; reflexivity.
    + intros E text w2 Hf. unfold Sms.entry. rewrite E, Hf. reflexivity.
    + intros E msg w2 Hf. unfold Sms.entry. rewrite E, Hf. reflexivity.
    + intros E w2 Hf. unfold Sms.entry. rewrite E, Hf. reflexivity.
    + exact R3.
    + exact T3.
    + exact F3.
    + apply run_totals.
  - intros w clients. rewrite runCampaign_run. unfold body, trace.
    cbn [fst snd results failureCount]. split; [apply run_fetches |].
    apply run_totals.
Qed.

Lemma fetches_block call : fetches (block call) = [call].
Proof.
  destruct call as [rq out]. unfold block, fetches. cbn [fst snd flat_map app].
  destruct (responded out); reflexivity.
Qed.

Lemma run_trace_blocks clients : forall w,
  l_trace (run w clients) = flat_map block (fetches (l_trace (run w clients))).
Proof.
  induction clients as [| c cs IH]; intros w; [reflexivity |].
  destruct (run_cons w c cs) as (_ & _ & _ & T & _). cbv zeta in T.
  rewrite T. unfold fetches in *. rewrite !flat_map_app. rewrite <- IH.
  f_equal. unfold Sms.events. destruct (eligible c); cbn [negb]; [| reflexivity].
  change (flat_map (fun e => match e with
                             | Fetch rq out => [(rq, out)]
                             | Delay _ => []
                             end)
                   (block (request c, fst (fetch w (request c)))))
    with (fetches (block (request c, fst (fetch w (request c))))).
  rewrite fetches_block. cbn [flat_map]. rewrite app_nil_r. reflexivity.
Qed.

Lemma run_delays clients : forall w,
  Forall (fun ms => ms = 2000) (delays (l_trace (run w clients)))
  /\ List.length (delays (l_trace (run w clients)))
     = List.length (filter (fun call => responded (snd call))
                           (fetches (l_trace (run w clients)))).
Proof.
  induction clients as [| c cs IH]; intros w; [split; [constructor | reflexivity] |].
  destruct (run_cons w c cs) as (_ & _ & _ & T & _). cbv zeta in T.
  rewrite T. destruct (IH (world_after w c)) as [A B].
  unfold delays, fetches in *.
  rewrite !flat_map_app, filter_app, !length_app, B.
  unfold Sms.events. destruct (eligible c); cbn [negb flat_map app];
    [| split; [exact A | reflexivity]].
  unfold block. cbn [fst snd].
  destruct (responded (fst (fetch w (request c)))) eqn:Rp;
    cbn [flat_map app filter snd]; rewrite Rp; cbn [List.length].
  - split; [constructor; [reflexivity | exact A] | reflexivity].
  - split; [exact A | reflexivity].
Qed.

Lemma run_skips_ineligible clients : forall w,
  l_trace (run w clients) = l_trace (run w (filter eligible clients))
  /\ l_world (run w clients) = l_world (run w (filter eligible clients)).
Proof.
  induction clients as [| c cs IH]; intros w; [split; reflexivity |].
  destruct (run_cons w c cs) as (_ & _ & _ & T & W). cbv zeta in T, W.
  rewrite T, W. cbn [filter]. destruct (eligible c) eqn:E.
  - destruct (run_cons w c (filter eligible cs)) as (_ & _ & _ & T' & W').
    cbv zeta in T', W'. rewrite T', W'.
    destruct (IH (world_after w c)) as [A B]. rewrite A, B.
    split; reflexivity.
  - unfold Sms.events, Sms.world_after. rewrite E. cbn [negb app]. apply IH.
Qed.

Lemma ends_on_delay_app tr : ends_on_delay (tr ++ [Delay 2000]) = true.
Proof. unfold ends_on_delay. rewrite rev_app_distr. reflexivity. Qed.

(** C5, as the code has it. Every delay is of 2000 ms; one follows each
    call of the gateway that comes back with a response, ok or not, and
    there is no other: none for a recipient that is not eligible, none
    after a call that throws. The delay is not held back for the last
    recipient: a run whose last recipient gets a response ends on a delay.
    With three recipients of which only the second is not eligible and two
    sends that succeed, there are two delays, the second after the last
    recipient. *)
Theorem delay_follows_every_response :
  (forall w clients,
     let tr := trace (runCampaign w (Some clients)) in
     Forall (fun ms => ms = 2000) (delays tr)
     /\ tr = flat_map block (fetches tr)
     /\ List.length (delays tr)
        = List.length (filter (fun call => responded (snd call)) (fetches tr))
     /\ tr = trace (runCampaign w (Some (filter eligible clients))))
  /\ (forall w before client ok text w2,
       eligible client = true ->
       fetch (world (runCampaign w (Some before))) (request client)
       = (Responded ok text, w2) ->
       ends_on_delay (trace (runCampaign w (Some (before ++ [client])))) = true)
  /\ (forall w c1 c2 c3 t1 w1 t3 w3,
       eligible c1 = true -> eligible c2 = false -> eligible c3 = true ->
       fetch w (request c1) = (Responded true t1, w1) ->
       fetch w1 (request c3) = (Responded true t3, w3) ->
       let tr := trace (runCampaign w (Some [c1; c2; c3])) in
       tr = [Fetch (request c1) (Responded true t1); Delay 2000;
             Fetch (request c3) (Responded true t3); Delay 2000]
       /\ delays tr = [2000; 2000]
       /\ ends_on_delay tr = true).
Proof.
  split; [| split].
  - intros w clients. cbv zeta. rewrite !runCampaign_run. unfold trace.
    cbn [fst snd].
    split; [apply run_delays |]. split; [apply run_trace_blocks |].
    split; [apply run_delays | apply run_skips_ineligible].
  - intros w before client ok text w2 E Hf. rewrite !runCampaign_run in *.
    unfold trace, world in *. cbn [fst snd] in *.
    destruct (run_app w before [client]) as (_ & _ & _ & T & _).
    destruct (run_cons (l_world (run w before)) client []) as (_ & _ & _ & T' & _).
    cbv zeta in *. rewrite T, T'. unfold Sms.events. rewrite E, Hf.
    cbn [negb fst snd block responded Sms.run fold_left l_trace].
    rewrite app_nil_r.
    rewrite (app_assoc _ [Fetch (request client) (Responded ok text)] [Delay 2000]).
    apply ends_on_delay_app.
  - intros w c1 c2 c3 t1 w1 t3 w3 E1 E2 E3 F1 F3. cbv zeta.
    assert (T : trace (runCampaign w (Some [c1; c2; c3]))
                = [Fetch (request c1) (Responded true t1); Delay 2000;
                   Fetch (request c3) (Responded true t3); Delay 2000]).
    { unfold trace, Sms.runCampaign, Sms.run. cbn [fst snd fold_left].
      rewrite !turn_spec.
      cbn [l_world l_trace l_results l_successCount l_failureCount].
      unfold Sms.events, Sms.world_after.
      rewrite E1, E2, E3. cbn [negb]. rewrite F1. cbn [fst snd].
      rewrite F3. reflexivity. }
    rewrite T. repeat split; reflexivity.
Qed.

End HandlerFacts.

Lemma failures_stay_with_their_recipient_witness :
  let ann := mkClient "1" (Some "Ann"%string) (Some "09170000001"%string) (Some "qr-ann"%string) in
  let bob := mkClient "2" (Some "Bob"%string) (Some ""%string) (Some "qr-bob"%string) in
  let cyd := mkClient "3" None (Some "09170000003"%string) (Some "qr-cyd"%string) in
  nth_error
    (results (body (runCampaign failing_gateway "key" None 0%nat
                                (Some ([ann] ++ bob :: [cyd]))))) 1
  = Some (mkSMSResult "N/A" "Bob" false
                      (Some "Missing mobile number or QR code"%string) None).
Proof.
  cbv zeta.
  exact (proj1 (proj1 (proj1 (proj2
           (failures_stay_with_their_recipient failing_gateway "key" None))
           0%nat [mkClient "1" (Some "Ann"%string) (Some "09170000001"%string) (Some "qr-ann"%string)]
           (mkClient "2" (Some "Bob"%string) (Some ""%string) (Some "qr-bob"%string))
           [mkClient "3" None (Some "09170000003"%string) (Some "qr-cyd"%string)])
         eq_refl)).
Defined.

Lemma delay_follows_every_response_witness :
  let ann := mkClient "1" (Some "Ann"%string) (Some "09170000001"%string) (Some "qr-ann"%string) in
  let bob := mkClient "2" (Some "Bob"%string) (Some ""%string) (Some "qr-bob"%string) in
  let cyd := mkClient "3" None (Some "09170000003"%string) (Some "qr-cyd"%string) in
  delays (trace (runCampaign accepting_gateway "key" None 0%nat
                             (Some [ann; bob; cyd]))) = [2000; 2000]
  /\ ends_on_delay (trace (runCampaign accepting_gateway "key" None 0%nat
                                       (Some [ann; bob; cyd]))) = true.
Proof.
  cbv zeta.
  exact (proj2 (proj2 (proj2 (delay_follows_every_response accepting_gateway
                                "key" None))
           0%nat (mkClient "1" (Some "Ann"%string) (Some "09170000001"%string) (Some "qr-ann"%string))
           (mkClient "2" (Some "Bob"%string) (Some ""%string) (Some "qr-bob"%string))
           (mkClient "3" None (Some "09170000003"%string) (Some "qr-cyd"%string))
           "Message queued"%string 1%nat "Message queued"%string 2%nat
           eq_refl eq_refl eq_refl eq_refl eq_refl)).
Defined.

(** C5, as the specification words it, fails: with three recipients of
    which only the second has no mobile number and a gateway that accepts
    every message, the run ends on a delay, after the send to the last
    recipient; and a run with one recipient has a delay too. *)
Lemma delay_after_last_recipient :
  let ann := mkClient "1" (Some "Ann"%string) (Some "09170000001"%string) (Some "qr-ann"%string) in
  let bob := mkClient "2" (Some "Bob"%string) (Some ""%string) (Some "qr-bob"%string) in
  let cyd := mkClient "3" None (Some "09170000003"%string) (Some "qr-cyd"%string) in
  let three := runCampaign accepting_gateway "key" None 0%nat (Some [ann; bob; cyd]) in
  let one := runCampaign accepting_gateway "key" None 0%nat (Some [ann]) in
  successCount (body three) = 2 /\ failureCount (body three) = 1
  /\ delays (trace three) = [2000; 2000]
  /\ ends_on_delay (trace three) = true
  /\ trace one = [Fetch (request "key" None ann) (Responded true "Message queued");
                  Delay 2000].
Proof.
  cbv zeta. repeat split; reflexivity.
Qed.

End SmsFacts.

(** ** The pages of a list *)

Module PagingFacts.
Import Paging.

Lemma slice_from {A : Type} (l : list A) s c :
  0 <= s -> 0 <= c ->
  slice l s (s + c) = firstn (Z.to_nat c) (skipn (Z.to_nat s) l).
Proof.
  intros Hs Hc. unfold slice.
  destruct (Z.ltb_spec s 0) as [? | _]; [lia |].
  destruct (Z.ltb_spec (s + c) 0) as [? | _]; [lia |].
  set (len := Z.of_nat (List.length l)).
  destruct (Z.le_gt_cases s len) as [L | G].
  - rewrite (Z.min_l s len) by exact L.
    destruct (Z.le_gt_cases (s + c) len) as [L' | G'].
    + rewrite (Z.min_l (s + c) len) by exact L'. f_equal. f_equal. lia.
    + rewrite (Z.min_r (s + c) len) by lia.
      rewrite !firstn_all2; try reflexivity; rewrite length_skipn; lia.
  - rewrite (Z.min_r s len) by lia. rewrite (Z.min_r (s + c) len) by lia.
    replace (Z.to_nat (len - len)) with 0%nat by lia. cbn [firstn].
    rewrite (skipn_all2 l) by lia. rewrite firstn_nil. reflexivity.
Qed.

Lemma paginated_chunk {A : Type} ipp (items : list A) p :
  0 < ipp -> 1 <= p ->
  paginated ipp items p
  = firstn (Z.to_nat ipp) (skipn (Z.to_nat ((p - 1) * ipp)) items).
Proof.
  intros Hi Hp. unfold paginated, startIndex. apply slice_from; nia.
Qed.

Lemma totalPages_bounds ipp n :
  0 < ipp ->
  (totalPages ipp n - 1) * ipp < Z.of_nat n <= totalPages ipp n * ipp.
Proof.
  intros Hi. unfold totalPages, Js.ceil_div.
  pose proof (Z.div_mod (- Z.of_nat n) ipp ltac:(lia)) as E.
  pose proof (Z.mod_pos_bound (- Z.of_nat n) ipp Hi) as B.
  nia.
Qed.

Lemma chunks_concat {A : Type} (c : nat) : forall (t : nat) (l : list A),
  (List.length l <= t * c)%nat ->
  List.concat (map (fun i => firstn c (skipn ((i - 1) * c) l)) (seq 1 t)) = l.
Proof.
  induction t as [| t IH]; intros l H.
  - destruct l; [reflexivity | cbn in H; lia].
  - cbn [seq map List.concat]. cbn [Nat.sub Nat.mul skipn].
    rewrite <- seq_shift, map_map.
    rewrite (map_ext_in _ (fun i => firstn c (skipn ((i - 1) * c) (skipn c l)))).
    + rewrite (IH (skipn c l)) by (rewrite length_skipn; lia).
      apply firstn_skipn.
    + intros i Hi. apply in_seq in Hi. rewrite skipn_skipn. do 2 f_equal.
      destruct i; cbn; lia.
Qed.

Lemma page_length {A : Type} ipp (items : list A) p :
  0 < ipp -> 1 <= p ->
  Z.of_nat (List.length (paginated ipp items p))
  = Z.max 0 (showing_to ipp (List.length items) p - startIndex ipp p).
Proof.
  intros Hi Hp. rewrite paginated_chunk by assumption.
  rewrite length_firstn, length_skipn. unfold showing_to, startIndex. nia.
Qed.

Lemma page_in_bounds {A : Type} ipp (items : list A) p :
  0 < ipp -> 1 <= p <= totalPages ipp (List.length items) ->
  paginated ipp items p <> []
  /\ Z.of_nat (List.length (paginated ipp items p))
     = showing_to ipp (List.length items) p - showing_from ipp p + 1.
Proof.
  intros Hi Hp. pose proof (totalPages_bounds ipp (List.length items) Hi) as B.
  pose proof (page_length ipp items p Hi ltac:(lia)) as L.
  unfold showing_to, showing_from, startIndex in *.
  assert (S : (p - 1) * ipp < Z.of_nat (List.length items)) by nia.
  split.
  - intros E. rewrite E in L. cbn [List.length] in L. lia.
  - lia.
Qed.

(** X1. With a positive page size the pages 1 to [totalPages] hold the
    items of the list once each, in order. A page within these bounds is not
    empty, holds the items from [showing_from] to [showing_to], and at most
    a page size of them; every page beyond is empty. *)
Theorem pages_split_the_list {A : Type} ipp (items : list A) :
  0 < ipp ->
  List.concat (map (paginated ipp items)
              (page_numbers (totalPages ipp (List.length items)))) = items
  /\ (forall p, 1 <= p <= totalPages ipp (List.length items) ->
        paginated ipp items p <> []
        /\ Z.of_nat (List.length (paginated ipp items p))
           = showing_to ipp (List.length items) p - showing_from ipp p + 1)
  /\ (forall p, 1 <= p ->
        Z.of_nat (List.length (paginated ipp items p)) <= ipp)
  /\ (forall p, totalPages ipp (List.length items) < p ->
        paginated ipp items p = []).
Proof.
  intros Hi. pose proof (totalPages_bounds ipp (List.length items) Hi) as B.
  split; [| split; [| split]].
  - unfold page_numbers. rewrite map_map.
    rewrite (map_ext_in _ (fun i => firstn (Z.to_nat ipp)
                                      (skipn ((i - 1) * Z.to_nat ipp) items))).
    + apply chunks_concat. nia.
    + intros i Hin. apply in_seq in Hin.
      rewrite paginated_chunk by lia. do 2 f_equal. nia.
  - intros p Hp. apply page_in_bounds; assumption.
  - intros p Hp. rewrite page_length by assumption.
    unfold showing_to, startIndex. lia.
  - intros p Hp.
    assert (P1 : 1 <= p).
    { assert (0 <= totalPages ipp (List.length items)) by nia. lia. }
    pose proof (page_length ipp items p Hi P1) as L.
    unfold showing_to, startIndex in L.
    assert (S : Z.of_nat (List.length items) <= (p - 1) * ipp) by nia.
    destruct (paginated ipp items p); [reflexivity | cbn [List.length] in L; lia].
Qed.

Lemma pages_split_the_list_witness :
  List.concat (map (paginated 5 [1; 2; 3; 4; 5; 6; 7])
              (page_numbers (totalPages 5 7))) = [1; 2; 3; 4; 5; 6; 7]
  /\ paginated 5 [1; 2; 3; 4; 5; 6; 7] 3 = [].
Proof.
  split.
  - exact (proj1 (pages_split_the_list 5 [1; 2; 3; 4; 5; 6; 7] ltac:(lia))).
  - apply (proj2 (proj2 (proj2 (pages_split_the_list 5 [1; 2; 3; 4; 5; 6; 7]
                                  ltac:(lia))))).
    reflexivity.
Defined.

(** X2. The buttons and the reset keep the page within the pages of the
    list: from a page between 1 and the number of pages the two buttons
    lead to such a page, and the reset brings any page from 1 on back to one,
    where it shows items whenever the list has some. *)
Theorem page_stays_within_bounds {A : Type} ipp (items : list A) currentPage :
  0 < ipp -> 1 <= currentPage ->
  let total := totalPages ipp (List.length items) in
  (currentPage <= total ->
   1 <= previous currentPage <= total
   /\ 1 <= next total currentPage <= total
   /\ reset total currentPage = currentPage)
  /\ (items <> [] ->
      1 <= reset total currentPage <= total
      /\ paginated ipp items (reset total currentPage) <> [])
  /\ (items = [] -> total = 0 /\ reset total currentPage = currentPage
                    /\ paginated ipp items currentPage = []).
Proof.
  intros Hi Hp total.
  pose proof (totalPages_bounds ipp (List.length items) Hi) as B. fold total in B.
  split; [| split].
  - intros Hc. unfold previous, next, reset.
    destruct (Z.gtb_spec currentPage total); [lia |]. cbn [andb]. lia.
  - intros Ne.
    assert (T : 1 <= total).
    { destruct items; [contradiction | cbn [List.length] in B; nia]. }
    assert (R : 1 <= reset total currentPage <= total).
    { unfold reset. destruct (Z.gtb_spec currentPage total),
        (Z.gtb_spec total 0); cbn [andb]; lia. }
    split; [exact R |].
    apply (page_in_bounds ipp items _ Hi R).
  - intros ->. cbn [List.length] in *.
    assert (T : total = 0) by nia.
    split; [exact T |]. split.
    + unfold reset. rewrite T. rewrite andb_false_r. reflexivity.
    + rewrite paginated_chunk by assumption. rewrite skipn_nil, firstn_nil.
      reflexivity.
Qed.

Lemma page_stays_within_bounds_witness :
  reset (totalPages 5 (List.length [1; 2; 3; 4; 5; 6; 7])) 4 = 2
  /\ paginated 5 [1; 2; 3; 4; 5; 6; 7] 2 <> [].
Proof.
  split; [reflexivity |].
  exact (proj2 (proj1 (proj2 (page_stays_within_bounds 5 [1; 2; 3; 4; 5; 6; 7] 4
                                ltac:(lia) ltac:(lia)))
                      ltac:(discriminate))).
Defined.

(** X3. With a positive page size the table of a client always has a whole
    number of pages, at least one: the pages of the devices, or one empty
    page when there is no device. Together they hold the devices once each,
    in order. *)
Theorem table_has_at_least_one_page {A : Type} ipp (devices : list A) :
  0 < ipp ->
  exists total,
    table_totalPages ipp (List.length devices) = Pages total
    /\ 1 <= total
    /\ total = Z.max 1 (totalPages ipp (List.length devices))
    /\ List.concat (map (paginated ipp devices) (page_numbers total)) = devices
    /\ (devices = [] -> total = 1 /\ paginated ipp devices 1 = []).
Proof.
  intros Hi. pose proof (totalPages_bounds ipp (List.length devices) Hi) as B.
  exists (Z.max 1 (totalPages ipp (List.length devices))).
  assert (T0 : 0 <= totalPages ipp (List.length devices)) by nia.
  split; [| split; [lia | split; [reflexivity | split]]].
  - unfold table_totalPages. destruct (Z.eqb_spec ipp 0); [lia |].
    fold (totalPages ipp (List.length devices)).
    destruct (Z.eqb_spec (totalPages ipp (List.length devices)) 0) as [E | N];
      f_equal; lia.
  - destruct devices as [| d devices].
    + assert (E : totalPages ipp (List.length (@nil A)) = 0)
        by (cbn [List.length] in *; nia).
      rewrite E. replace (page_numbers (Z.max 1 0)) with [1] by reflexivity.
      cbn [map List.concat]. rewrite paginated_chunk by lia.
      rewrite skipn_nil, firstn_nil. reflexivity.
    + assert (1 <= totalPages ipp (List.length (d :: devices)))
        by (cbn [List.length] in *; nia).
      rewrite Z.max_r by assumption.
      unfold page_numbers. rewrite map_map.
      rewrite (map_ext_in _ (fun i => firstn (Z.to_nat ipp)
                               (skipn ((i - 1) * Z.to_nat ipp) (d :: devices)))).
      * apply chunks_concat. nia.
      * intros i Hin. apply in_seq in Hin.
        rewrite paginated_chunk by lia. do 2 f_equal. nia.
  - intros ->. cbn [List.length] in *. split; [nia |].
    rewrite paginated_chunk by lia. rewrite skipn_nil, firstn_nil. reflexivity.
Qed.

Lemma table_has_at_least_one_page_witness :
  exists total,
    table_totalPages 5 (List.length (@nil nat)) = Pages total /\ 1 <= total.
Proof.
  destruct (table_has_at_least_one_page 5 (@nil nat) ltac:(lia))
    as (total & E & L & _).
  exists total. split; assumption.
Defined.

End PagingFacts.

(** ** The names and the badge of the devices table *)

Module DevicesTableViewFacts.
Import DevicesTable DevicesTableView.

Lemma find_first items wanted x :
  find items wanted = Some x ->
  exists before after,
    items = before ++ x :: after /\ id x = wanted
    /\ forall y, In y before -> id y <> wanted.
Proof.
  induction items as [| y items IH]; cbn [find]; [discriminate |].
  destruct (String.eqb_spec (id y) wanted) as [E | N].
  - intros [= ->]. exists [], items. split; [reflexivity |].
    split; [exact E | intros z []].
  - intros H. destruct (IH H) as (before & after & -> & Ex & Hb).
    exists (y :: before), after. split; [reflexivity |]. split; [exact Ex |].
    intros z [<- | Hz]; [exact N | apply Hb, Hz].
Qed.

Lemma find_In items x :
  NoDup (map id items) -> In x items -> find items (id x) = Some x.
Proof.
  induction items as [| y items IH]; cbn [find map]; intros D H;
    [destruct H |]. destruct H as [E | H].
  - subst. rewrite String.eqb_refl. reflexivity.
  - inversion D as [| ? ? NI D']; subst.
    destruct (String.eqb_spec (id y) (id x)) as [E | N].
    + exfalso. apply NI. rewrite E. apply in_map, H.
    + apply IH; assumption.
Qed.

Lemma find_None items wanted :
  find items wanted = None <-> ~ In wanted (map id items).
Proof.
  induction items as [| y items IH]; cbn [find map In]; [tauto |].
  destruct (String.eqb_spec (id y) wanted) as [E | N].
  - split; [discriminate | intros H; exfalso; apply H; left; exact E].
  - rewrite IH. tauto.
Qed.

(** X4. The name shown for an id is never empty: it is a dash for a null or
    empty id, for an id that no item has, and for an item without a name;
    otherwise it is the name of the first item with the id, which is the
    item itself when ids are not repeated. *)
Theorem name_lookup_falls_back_to_dash items :
  (forall wanted, nameOf items wanted <> ""%string)
  /\ nameOf items None = "-"%string
  /\ nameOf items (Some ""%string) = "-"%string
  /\ (forall wanted, ~ In wanted (map id items) ->
        nameOf items (Some wanted) = "-"%string)
  /\ (forall wanted before x after,
        wanted <> ""%string ->
        items = before ++ x :: after -> id x = wanted ->
        (forall y, In y before -> id y <> wanted) ->
        nameOf items (Some wanted) = Js.or_else (Some (name x)) "-")
  /\ (forall x,
        NoDup (map id items) -> In x items ->
        id x <> ""%string -> name x <> ""%string ->
        nameOf items (Some (id x)) = name x).
Proof.
  split; [| split; [| split; [| split; [| split]]]].
  - intros [[| c s] |]; cbn [nameOf]; try discriminate.
    destruct (find items (String c s)) as [x |]; cbn [option_map Js.or_else];
      [| discriminate].
    destruct (name x); discriminate.
  - reflexivity.
  - reflexivity.
  - intros wanted H. apply find_None in H. destruct wanted as [| c s];
      [reflexivity |]. cbn [nameOf]. rewrite H. reflexivity.
  - intros wanted before x after Nw -> Ex Hb.
    destruct wanted as [| c s]; [contradiction |]. cbn [nameOf]. f_equal.
    clear Nw. induction before as [| y before IH]; cbn [app find].
    + rewrite Ex, String.eqb_refl. reflexivity.
    + destruct (String.eqb_spec (id y) (String c s)) as [E | _].
      * exfalso. exact (Hb y (or_introl eq_refl) E).
      * apply IH. intros z Hz. apply Hb. right. exact Hz.
  - intros x D Hx Ni Nn. destruct (id x) as [| c s] eqn:E; [contradiction |].
    cbn [nameOf]. rewrite <- E, (find_In items x D Hx). cbn [option_map].
    destruct (name x); [contradiction | reflexivity].
Qed.

Lemma name_lookup_falls_back_to_dash_witness :
  nameOf [mkNamed "l1" "Home"; mkNamed "l2" "Office"] (Some "l2"%string)
  = "Office"%string.
Proof.
  refine (proj2 (proj2 (proj2 (proj2 (proj2
            (name_lookup_falls_back_to_dash
               [mkNamed "l1" "Home"; mkNamed "l2" "Office"])))))
          (mkNamed "l2" "Office") _ _ _ _).
  - repeat constructor; cbn; intuition discriminate.
  - right. left. reflexivity.
  - discriminate.
  - discriminate.
Defined.

(** X5. The status of a device is one of [repair], [due], [maintain] and
    [scheduled], so that the badge reads Repair, Due, Well Maintained or
    Scheduled: its No Service and dash cases are never shown. *)
Theorem badge_is_one_of_four now device :
  In (getDeviceStatus now device)
     ["repair"; "due"; "maintain"; "scheduled"]%string
  /\ In (badge (getDeviceStatus now device))
        ["Repair"; "Due"; "Well Maintained"; "Scheduled"]%string
  /\ badge (getDeviceStatus now device) <> "No Service"%string
  /\ badge (getDeviceStatus now device) <> "-"%string.
Proof.
  unfold getDeviceStatus.
  destruct (Js.truthy (last_repair_date device)).
  { cbn. intuition discriminate. }
  destruct (Js.truthy (due_3_months device) || Js.truthy (due_4_months device)
            || Js.truthy (due_6_months device)).
  - destruct (Js.sort by_time (dueDates device)) as [| [nearestDue |] rest].
    + cbn. intuition discriminate.
    + destruct (nearestDue <? now); cbn; intuition discriminate.
    + cbn. intuition discriminate.
  - destruct (negb (Js.truthy (last_cleaning_date device)));
      cbn; intuition discriminate.
Qed.

End DevicesTableViewFacts.

(** ** The groups of the overdue card and its filters *)

Module OverdueViewFacts.
Import Calendar CalendarFacts MapFacts OverdueCard OverdueCardFacts OverdueView.

(** *** The groups after one call of the reducer *)

Lemma set_not_nil {V : Type} (m : list (string * V)) k v : Js.set m k v <> [].
Proof.
  destruct m as [| [k' v'] m]; cbn [Js.set]; [discriminate |].
  destruct (String.eqb k' k); discriminate.
Qed.

Lemma get_reducer_other today acc d ck :
  ck <> clientKey d -> Js.get (reducer today acc d) ck = Js.get acc ck.
Proof.
  intros N. unfold reducer.
  destruct (Js.get acc (clientKey d)) as [g |] eqn:G.
  - rewrite G. destruct (Js.get (g_devices g) (deviceKey d)) as [ex |].
    + destruct (replaces today d ex); [apply get_set_other, N | reflexivity].
    + apply get_set_other, N.
  - rewrite get_set_same. cbn [g_devices Js.get].
    rewrite !get_set_other by exact N. reflexivity.
Qed.

Lemma get_reducer_same today acc d :
  exists g',
    Js.get (reducer today acc d) (clientKey d) = Some g'
    /\ g_devices g' <> []
    /\ match Js.get acc (clientKey d) with
       | Some g => g_client_name g' = g_client_name g
                   /\ g_location_name g' = g_location_name g
       | None => g_client_name g' = client_name d
                 /\ g_location_name g' = location_name d
       end.
Proof.
  unfold reducer.
  destruct (Js.get acc (clientKey d)) as [g |] eqn:G.
  - rewrite G. destruct (Js.get (g_devices g) (deviceKey d)) as [ex |] eqn:X.
    + destruct (replaces today d ex).
      * eexists. rewrite get_set_same. split; [reflexivity |].
        cbn [g_devices g_client_name g_location_name].
        split; [apply set_not_nil | split; reflexivity].
      * exists g. split; [exact G |]. split; [| split; reflexivity].
        intros E. rewrite E in X. discriminate X.
    + eexists. rewrite get_set_same. split; [reflexivity |].
      cbn [g_devices g_client_name g_location_name].
      split; [apply set_not_nil | split; reflexivity].
  - rewrite get_set_same. cbn [g_devices Js.get].
    eexists. rewrite get_set_same. split; [reflexivity |].
    cbn [g_devices g_client_name g_location_name Js.set].
    split; [discriminate | split; reflexivity].
Qed.

Lemma keys_reducer today acc d :
  map fst (reducer today acc d) =
  match Js.get acc (clientKey d) with
  | Some _ => map fst acc
  | None => map fst acc ++ [clientKey d]
  end.
Proof.
  unfold reducer.
  destruct (Js.get acc (clientKey d)) as [g |] eqn:G.
  - rewrite G. destruct (Js.get (g_devices g) (deviceKey d)) as [ex |].
    + destruct (replaces today d ex); [| reflexivity].
      rewrite keys_set, G. reflexivity.
    + rewrite keys_set, G. reflexivity.
  - rewrite get_set_same. cbn [g_devices Js.get].
    rewrite keys_set, get_set_same, keys_set, G. reflexivity.
Qed.

(** *** Keys in the order of their first occurrence *)

Lemma first_occurrences_ext s1 s2 ks :
  (forall k, existsb (String.eqb k) s1 = existsb (String.eqb k) s2) ->
  first_occurrences s1 ks = first_occurrences s2 ks.
Proof.
  revert s1 s2. induction ks as [| k ks IH]; intros s1 s2 H; [reflexivity |].
  cbn [first_occurrences]. rewrite (H k).
  destruct (existsb (String.eqb k) s2); [apply IH, H |].
  f_equal. apply IH. intros k'. cbn [existsb]. rewrite H. reflexivity.
Qed.

Lemma first_occurrences_snoc ks : forall seen k,
  first_occurrences seen (ks ++ [k]) =
  first_occurrences seen ks
  ++ (if existsb (String.eqb k) (seen ++ ks) then [] else [k]).
Proof.
  induction ks as [| k0 ks IH]; intros seen k; cbn [app first_occurrences].
  - rewrite app_nil_r. destruct (existsb (String.eqb k) seen); reflexivity.
  - destruct (existsb (String.eqb k0) seen) eqn:E.
    + rewrite IH. f_equal. rewrite !existsb_app. cbn [existsb].
      destruct (String.eqb_spec k k0) as [-> | _];
        [rewrite E; reflexivity | reflexivity].
    + rewrite IH. cbn [app]. f_equal. f_equal.
      rewrite !existsb_app. cbn [existsb app]. rewrite existsb_app.
      destruct (String.eqb k k0), (existsb (String.eqb k) seen),
        (existsb (String.eqb k) ks); reflexivity.
Qed.

Lemma existsb_eqb_In k l : existsb (String.eqb k) l = true <-> In k l.
Proof.
  rewrite existsb_exists. split.
  - intros (x & Hx & E). apply String.eqb_eq in E. subst. exact Hx.
  - intros H. exists k. split; [exact H | apply String.eqb_refl].
Qed.

Lemma groups_ok_reducer today acc pre d :
  groups_ok acc pre -> groups_ok (reducer today acc d) (pre ++ [d]).
Proof.
  intros [K H]. split.
  - rewrite keys_reducer, map_app. cbn [map].
    rewrite first_occurrences_snoc. cbn [app]. rewrite K.
    pose proof (H (clientKey d)) as Hd.
    destruct (Js.get acc (clientKey d)) as [g |].
    + destruct Hd as (_ & before & d0 & after & -> & E & _).
      replace (existsb (String.eqb (clientKey d))
                       (map clientKey (before ++ d0 :: after))) with true.
      * rewrite app_nil_r. reflexivity.
      * symmetry. apply existsb_eqb_In. rewrite <- E. apply in_map.
        apply in_or_app. right. left. reflexivity.
    + replace (existsb (String.eqb (clientKey d)) (map clientKey pre)) with false;
        [reflexivity |].
      symmetry. apply not_true_is_false. intros T. apply existsb_eqb_In in T.
      apply in_map_iff in T. destruct T as (x & Ex & Hx). exact (Hd x Hx Ex).
  - intros ck. destruct (String.eqb_spec ck (clientKey d)) as [-> | N].
    + destruct (get_reducer_same today acc d) as (g' & G' & Ne & Names).
      rewrite G'. split; [exact Ne |]. specialize (H (clientKey d)).
      destruct (Js.get acc (clientKey d)) as [g |].
      * destruct H as (_ & before & d0 & after & -> & E & Hb & Nc & Nl).
        exists before, d0, (after ++ [d]). split.
        -- rewrite <- app_assoc. reflexivity.
        -- split; [exact E |]. split; [exact Hb |].
           destruct Names as [-> ->]. split; assumption.
      * exists pre, d, []. split; [reflexivity |]. split; [reflexivity |].
        split; [exact H | exact Names].
    + rewrite get_reducer_other by exact N. specialize (H ck).
      destruct (Js.get acc ck) as [g |].
      * destruct H as (Ne & before & d0 & after & -> & E & Hb & Nc & Nl).
        split; [exact Ne |]. exists before, d0, (after ++ [d]). split.
        -- rewrite <- app_assoc. reflexivity.
        -- repeat split; assumption.
      * intros x Hx. apply in_app_or in Hx. destruct Hx as [Hx | [<- | []]].
        -- apply H, Hx.
        -- congruence.
Qed.

Lemma reduce_from_groups_ok clock rest : forall i acc pre,
  groups_ok acc pre -> groups_ok (reduce_from clock i acc rest) (pre ++ rest).
Proof.
  induction rest as [| d rest IH]; intros i acc pre H; cbn [reduce_from].
  - rewrite app_nil_r. exact H.
  - replace (pre ++ d :: rest) with ((pre ++ [d]) ++ rest)
      by (rewrite <- app_assoc; reflexivity).
    apply IH, groups_ok_reducer, H.
Qed.

Lemma groupedDevices_groups_ok clock devices :
  groups_ok (groupedDevices clock devices) devices.
Proof.
  apply (reduce_from_groups_ok clock devices 0%nat [] []).
  split; [reflexivity |]. intros ck d [].
Qed.

Lemma entry_group_key clock devices ck g :
  In (ck, g) (groupedDevices clock devices) ->
  g_client_name g +++ "-" +++ g_location_name g = ck
  /\ g_devices g <> [] /\ made_by devices ck g.
Proof.
  intros H. destruct (groupedDevices_keyed clock devices) as [[D _] _].
  destruct (groupedDevices_groups_ok clock devices) as [_ G].
  specialize (G ck). rewrite (In_get _ _ _ D H) in G. destruct G as [Ne M].
  split; [| split; assumption].
  destruct M as (before & d & after & _ & E & _ & -> & ->). exact E.
Qed.

(** X6. The groups of the overdue card come in the order in which their
    keys first occur in the input, without a sort. No group is empty, and
    each shows the client and location names of the first record filed
    under its key. *)
Theorem overdue_groups_keep_input_order clock devices :
  map cg_key (clientGroups clock devices)
  = first_occurrences [] (map clientKey devices)
  /\ forall g, In g (clientGroups clock devices) ->
       cg_devices g <> []
       /\ exists before d after,
            devices = before ++ d :: after
            /\ (forall x, In x before -> clientKey x <> clientKey d)
            /\ cg_client_name g = client_name d
            /\ cg_location_name g = location_name d.
Proof.
  split.
  - destruct (groupedDevices_groups_ok clock devices) as [K _]. rewrite <- K.
    unfold clientGroups. rewrite map_map. apply map_ext_in.
    intros [ck g] H. cbn [fst snd]. unfold cg_key.
    cbn [cg_client_name cg_location_name].
    exact (proj1 (entry_group_key clock devices ck g H)).
  - intros g Hg. apply In_clientGroups in Hg. destruct Hg as (ck & g' & Hg & ->).
    destruct (entry_group_key clock devices ck g' Hg)
      as (_ & Ne & before & d & after & E & Ek & Hb & Nc & Nl).
    cbn [cg_devices cg_client_name cg_location_name]. split.
    + intros Em. apply map_eq_nil in Em. contradiction.
    + exists before, d, after. rewrite Ek. repeat split; assumption.
Qed.

(** *** The filters *)

Section FilterFacts.
Variable toLowerCase : string -> string.

Local Abbreviation filteredGroups := (filteredGroups toLowerCase).
Local Abbreviation matchesSearch := (matchesSearch toLowerCase).

Lemma on_date_none g : on_date "" g = g.
Proof.
  destruct g as [cn ln ds]. unfold on_date. cbn [cg_client_name cg_location_name
                                                   cg_devices String.eqb orb].
  f_equal. induction ds as [| d ds IH]; [reflexivity |].
  cbn [filter]. rewrite IH. reflexivity.
Qed.

Lemma on_date_devices date g :
  date <> ""%string ->
  cg_devices (on_date date g)
  = filter (fun d => String.eqb (due_date d) date) (cg_devices g).
Proof.
  intros N. unfold on_date. cbn [cg_devices]. apply filter_ext. intros d.
  destruct (String.eqb_spec date ""); [contradiction | reflexivity].
Qed.

Lemma matched_not_empty date g :
  cg_devices g <> [] -> matchesDate date g = true ->
  cg_devices (on_date date g) <> [].
Proof.
  intros Ne M. destruct (String.eqb_spec date "") as [-> | N].
  - rewrite on_date_none. exact Ne.
  - rewrite on_date_devices by exact N. unfold matchesDate in M.
    destruct (String.eqb_spec date ""); [contradiction |]. cbn [orb] in M.
    apply existsb_exists in M. destruct M as (d & Hd & E).
    intros Em. assert (I : In d (filter (fun d => String.eqb (due_date d) date)
                                        (cg_devices g)))
      by (apply filter_In; split; assumption).
    rewrite Em in I. exact I.
Qed.

Lemma length_pos {A : Type} (l : list A) :
  (0 <? List.length l)%nat = true <-> l <> [].
Proof.
  destruct l; cbn; split; try discriminate; try reflexivity; congruence.
Qed.

Lemma filteredGroups_on_groups term date groups :
  (forall g, In g groups -> cg_devices g <> []) ->
  filteredGroups term date groups
  = map (on_date date)
        (filter (fun g => matchesSearch term g && matchesDate date g) groups).
Proof.
  intros Ne. unfold OverdueView.filteredGroups.
  induction groups as [| g groups IH]; [reflexivity |].
  cbn [filter].
  destruct (matchesSearch term g && matchesDate date g) eqn:M.
  - cbn [map filter]. apply andb_true_iff in M.
    rewrite (proj2 (length_pos _)
                   (matched_not_empty date g (Ne g (or_introl eq_refl)) (proj2 M))).
    f_equal. apply IH. intros g' H. apply Ne. right. exact H.
  - apply IH. intros g' H. apply Ne. right. exact H.
Qed.

(** X7. Whatever is searched for, a date filter leaves only groups with
    devices, each cut to its obligations due on that date. Without a search
    the obligations shown are the obligations of the groups that are due on
    the date, in the same order. *)
Theorem date_filter_shows_that_day term date groups :
  date <> ""%string ->
  (forall g, In g (filteredGroups term date groups) ->
     cg_devices g <> []
     /\ (forall d, In d (cg_devices g) -> due_date d = date)
     /\ exists g0, In g0 groups /\ matchesSearch term g0 = true
                   /\ cg_client_name g = cg_client_name g0
                   /\ cg_location_name g = cg_location_name g0
                   /\ cg_devices g
                      = filter (fun d => String.eqb (due_date d) date)
                               (cg_devices g0))
  /\ flat_map cg_devices (filteredGroups "" date groups)
     = filter (fun d => String.eqb (due_date d) date)
              (flat_map cg_devices groups).
Proof.
  intros N. split.
  - intros g Hg. unfold OverdueView.filteredGroups in Hg.
    apply filter_In in Hg. destruct Hg as [Hg Len].
    apply length_pos in Len. apply in_map_iff in Hg.
    destruct Hg as (g0 & <- & Hg0). apply filter_In in Hg0.
    destruct Hg0 as [Hg0 M]. apply andb_true_iff in M.
    split; [exact Len |]. split.
    + intros d Hd. rewrite on_date_devices in Hd by exact N.
      apply filter_In in Hd. apply String.eqb_eq, Hd.
    + exists g0. split; [exact Hg0 |]. split; [apply M |].
      split; [reflexivity |]. split; [reflexivity |].
      apply on_date_devices, N.
  - unfold OverdueView.filteredGroups.
    induction groups as [| g groups IH]; [reflexivity |].
    cbn [filter flat_map]. rewrite filter_app, <- IH.
    unfold OverdueView.matchesSearch at 1. cbn [String.eqb orb andb].
    destruct (matchesDate date g) eqn:M.
    + cbn [map filter].
      pose proof (on_date_devices date g N) as Ed.
      destruct (cg_devices (on_date date g)) as [| d0 ds0] eqn:Em.
      * cbn [List.length Nat.ltb Nat.leb]. rewrite <- Ed. reflexivity.
      * replace ((0 <? List.length (d0 :: ds0))%nat) with true by reflexivity.
        cbn [flat_map]. rewrite Em, <- Ed. reflexivity.
    + unfold matchesDate in M.
      destruct (String.eqb_spec date ""); [contradiction |]. cbn [orb] in M.
      replace (filter (fun d => String.eqb (due_date d) date) (cg_devices g))
        with (@nil DeviceOverdue); [reflexivity |].
      symmetry. induction (cg_devices g) as [| d ds IHd]; [reflexivity |].
      cbn [existsb] in M. apply orb_false_iff in M. destruct M as [M1 M2].
      cbn [filter]. rewrite M1. apply IHd, M2.
Qed.

(** X8. Without filters the card shows the groups as the reducer left them.
    A search alone shows the matching groups whole: a group found through
    one device is shown with all its devices. A group is found whenever its
    client name is the search text up to the case of the letters. *)
Theorem search_shows_whole_groups :
  (forall clock devices,
     filteredGroups "" "" (clientGroups clock devices)
     = clientGroups clock devices)
  /\ (forall term groups,
       (forall g, In g groups -> cg_devices g <> []) ->
       filteredGroups term "" groups = filter (matchesSearch term) groups)
  /\ (forall term clock devices g,
       In g (clientGroups clock devices) ->
       toLowerCase (cg_client_name g) = toLowerCase term ->
       In g (filteredGroups term "" (clientGroups clock devices))).
Proof.
  assert (P : forall s, String.prefix s s = true).
  { induction s as [| c s IH]; [reflexivity |]. cbn [String.prefix].
    destruct (Ascii.ascii_dec c c); [exact IH | contradiction]. }
  assert (I : forall s, includes s s = true).
  { intros s. destruct s; cbn [includes]; rewrite P; reflexivity. }
  assert (S : forall term groups,
             (forall g, In g groups -> cg_devices g <> []) ->
             filteredGroups term "" groups = filter (matchesSearch term) groups).
  { intros term groups Ne. rewrite filteredGroups_on_groups by exact Ne.
    rewrite (filter_ext _ (matchesSearch term)).
    - rewrite (map_ext _ (fun g => g)) by apply on_date_none. apply map_id.
    - intros g. unfold matchesDate. cbn [String.eqb orb]. apply andb_true_r. }
  assert (Ne : forall clock devices g,
             In g (clientGroups clock devices) -> cg_devices g <> []).
  { intros clock devices g Hg. apply In_clientGroups in Hg.
    destruct Hg as (ck & g' & Hg & ->). cbn [cg_devices].
    intros Em. apply map_eq_nil in Em.
    exact (proj1 (proj2 (entry_group_key clock devices ck g' Hg)) Em). }
  split; [| split].
  - intros clock devices. rewrite S by apply Ne.
    rewrite (filter_ext _ (fun _ => true)) by reflexivity.
    induction (clientGroups clock devices) as [| g gs IH]; [reflexivity |].
    cbn [filter]. rewrite IH. reflexivity.
  - exact S.
  - intros term clock devices g Hg E. rewrite S by apply Ne.
    apply filter_In. split; [exact Hg |].
    unfold OverdueView.matchesSearch. rewrite E, I.
    rewrite orb_true_r. reflexivity.
Qed.

End FilterFacts.

Lemma date_filter_shows_that_day_witness :
  let d1 := mkDeviceOverdue "u1" "AC 1" "A" "Home" "due_3_months" "2024-01-01" in
  let d2 := mkDeviceOverdue "u2" "AC 2" "A" "Home" "due_6_months" "2023-12-01" in
  let d3 := mkDeviceOverdue "u3" "AC 3" "B" "Shop" "due_4_months" "2023-12-01" in
  let groups := [mkClientGroup "A" "Home" [d1; d2]; mkClientGroup "B" "Shop" [d3]] in
  flat_map cg_devices (filteredGroups (fun s => s) "" "2024-01-01" groups)
  = filter (fun d => String.eqb (due_date d) "2024-01-01")
           (flat_map cg_devices groups).
Proof.
  cbv zeta.
  refine (proj2 (date_filter_shows_that_day (fun s => s) ""%string
                   "2024-01-01"%string _ _)).
  discriminate.
Defined.

(** *** The clock does not matter *)

Lemma replaces_any_time t1 t2 d ex :
  is_iso (due_date d) -> is_iso (due_date ex) ->
  replaces t1 d ex = replaces t2 d ex.
Proof.
  intros (dd & Id & Ed) (de & Ie & Ee). unfold replaces.
  rewrite Ed, Ee, !daysOverdue_iso by assumption. cbn [gt].
  destruct (getServicePriority (due_type d) >? getServicePriority (due_type ex));
    [reflexivity |].
  destruct (getServicePriority (due_type d) =? getServicePriority (due_type ex));
    [| reflexivity].
  destruct (Z.gtb_spec (Js.ceil_div t1 ms_per_day - day_number dd)
                       (Js.ceil_div t1 ms_per_day - day_number de)),
    (Z.gtb_spec (Js.ceil_div t2 ms_per_day - day_number dd)
                (Js.ceil_div t2 ms_per_day - day_number de));
    try reflexivity; lia.
Qed.

Lemma reducer_any_time t1 t2 acc pre d :
  keyed acc pre -> dated (pre ++ [d]) ->
  reducer t1 acc d = reducer t2 acc d.
Proof.
  intros K Dt. unfold reducer.
  assert (Id : is_iso (due_date d)).
  { apply (dated_In _ _ Dt). apply in_or_app. right. left. reflexivity. }
  assert (E : forall acc1 g ex,
             Js.get acc1 (clientKey d) = Some g ->
             Js.get (g_devices g) (deviceKey d) = Some ex ->
             lookup acc1 (clientKey d) (deviceKey d) = Some ex).
  { intros acc1 g ex G X. unfold lookup. rewrite G. exact X. }
  destruct (Js.get acc (clientKey d)) as [g |] eqn:G.
  - rewrite G. destruct (Js.get (g_devices g) (deviceKey d)) as [ex |] eqn:X;
      [| reflexivity].
    pose proof (K (clientKey d) (deviceKey d)) as Kd.
    rewrite (E acc g ex G X) in Kd. destruct Kd as [_ Hex].
    rewrite (replaces_any_time t1 t2 d ex Id); [reflexivity |].
    apply (dated_In _ _ Dt). apply in_or_app. left. exact Hex.
  - rewrite get_set_same. cbn [g_devices Js.get]. reflexivity.
Qed.

Lemma reduce_from_any_time c1 c2 rest : forall i j acc pre,
  keyed acc pre -> dated (pre ++ rest) ->
  reduce_from c1 i acc rest = reduce_from c2 j acc rest.
Proof.
  induction rest as [| d rest IH]; intros i j acc pre K Dt; [reflexivity |].
  cbn [reduce_from].
  replace (pre ++ d :: rest) with ((pre ++ [d]) ++ rest) in Dt
    by (rewrite <- app_assoc; reflexivity).
  assert (Dd : dated (pre ++ [d])).
  { unfold dated in *. apply Forall_app in Dt. apply Dt. }
  rewrite (reducer_any_time (c1 i) (c2 j) acc pre d K Dd).
  apply (IH _ _ _ (pre ++ [d])); [apply keyed_reducer, K | exact Dt].
Qed.

(** X9. With date-only due dates the groups and the obligation kept for each
    device do not depend on the instants at which the clock is read while the
    list is reduced. *)
Theorem resolver_ignores_the_clock clock1 clock2 devices :
  dated devices ->
  groupedDevices clock1 devices = groupedDevices clock2 devices
  /\ clientGroups clock1 devices = clientGroups clock2 devices
  /\ retained clock1 devices = retained clock2 devices.
Proof.
  intros Dt.
  assert (E : groupedDevices clock1 devices = groupedDevices clock2 devices).
  { unfold groupedDevices. apply (reduce_from_any_time _ _ _ _ _ _ []).
    - intros ck dk. cbn. intros d [].
    - exact Dt. }
  unfold retained, clientGroups. rewrite E. repeat split; reflexivity.
Qed.

Lemma resolver_ignores_the_clock_witness :
  let short5 := mkDeviceOverdue "u1" "AC" "A" "Home" "due_3_months"
                                (iso (mkDate 2023 12 28)) in
  let short9 := mkDeviceOverdue "u1" "AC" "A" "Home" "due_3_months"
                                (iso (mkDate 2023 12 24)) in
  retained (fun _ => 1704196800000) [short5; short9]
  = retained (fun i => 1704196800000 + 86400000 * Z.of_nat i) [short5; short9].
Proof.
  cbv zeta.
  refine (proj2 (proj2 (resolver_ignores_the_clock _ _ _ _))).
  apply Forall_cons; [iso_literal (mkDate 2023 12 28) |].
  apply Forall_cons; [iso_literal (mkDate 2023 12 24) |].
  apply Forall_nil.
Defined.

(** *** Resolving twice *)

Lemma get_app_last {V : Type} (m : list (string * V)) k v :
  ~ In k (map fst m) -> Js.get (m ++ [(k, v)]) k = Some v.
Proof.
  induction m as [| [k' v'] m IH]; cbn [app Js.get map fst In]; intros N.
  - rewrite String.eqb_refl. reflexivity.
  - destruct (String.eqb_spec k' k) as [E | _]; [tauto | apply IH; tauto].
Qed.

Lemma set_app_last {V : Type} (m : list (string * V)) k v v' :
  ~ In k (map fst m) -> Js.set (m ++ [(k, v)]) k v' = m ++ [(k, v')].
Proof.
  induction m as [| [k0 v0] m IH]; cbn [app Js.set map fst In]; intros N.
  - rewrite String.eqb_refl. reflexivity.
  - destruct (String.eqb_spec k0 k) as [E | _]; [tauto |].
    rewrite IH by tauto. reflexivity.
Qed.

Lemma get_absent {V : Type} (m : list (string * V)) k :
  ~ In k (map fst m) -> Js.get m k = None.
Proof.
  induction m as [| [k' v'] m IH]; cbn [Js.get map fst In]; intros N;
    [reflexivity |].
  destruct (String.eqb_spec k' k) as [E | _]; [tauto | apply IH; tauto].
Qed.

Lemma set_absent {V : Type} (m : list (string * V)) k v :
  ~ In k (map fst m) -> Js.set m k v = m ++ [(k, v)].
Proof.
  induction m as [| [k' v'] m IH]; cbn [Js.set map fst In app]; intros N;
    [reflexivity |].
  destruct (String.eqb_spec k' k) as [E | _]; [tauto |].
  rewrite IH by tauto. reflexivity.
Qed.

Lemma reducer_new_group today acc d :
  ~ In (clientKey d) (map fst acc) ->
  reducer today acc d
  = acc ++ [(clientKey d,
             mkGroup (client_name d) (location_name d) [(deviceKey d, d)])].
Proof.
  intros N. unfold reducer. rewrite (get_absent acc _ N).
  rewrite get_set_same. cbn [g_devices Js.get g_client_name g_location_name Js.set].
  rewrite (set_absent acc _ _ N). apply set_app_last, N.
Qed.

Lemma reducer_new_device today acc1 g d :
  ~ In (clientKey d) (map fst acc1) ->
  ~ In (deviceKey d) (map fst (g_devices g)) ->
  reducer today (acc1 ++ [(clientKey d, g)]) d
  = acc1 ++ [(clientKey d,
              mkGroup (g_client_name g) (g_location_name g)
                      (g_devices g ++ [(deviceKey d, d)]))].
Proof.
  intros N Nd. unfold reducer. rewrite (get_app_last acc1 _ g N).
  rewrite (get_app_last acc1 _ g N). rewrite (get_absent _ _ Nd).
  rewrite (set_absent _ _ _ Nd). apply set_app_last, N.
Qed.

Lemma reduce_from_app clock l1 : forall i acc l2,
  reduce_from clock i acc (l1 ++ l2)
  = reduce_from clock (i + List.length l1) (reduce_from clock i acc l1) l2.
Proof.
  induction l1 as [| d l1 IH]; intros i acc l2; cbn [app reduce_from List.length].
  - rewrite Nat.add_0_r. reflexivity.
  - rewrite IH. f_equal. lia.
Qed.

Lemma block_rest clock ck es2 : forall i acc1 g,
  ~ In ck (map fst acc1) ->
  NoDup (map fst (g_devices g ++ es2)) -> under ck es2 ->
  strip (reduce_from clock i (acc1 ++ [(ck, g)]) (map snd es2))
  = strip acc1 ++ [(ck, g_devices g ++ es2)].
Proof.
  induction es2 as [| [dk r] es2 IH]; intros i acc1 g N D U;
    cbn [map snd reduce_from].
  - rewrite app_nil_r. unfold strip. rewrite map_app. reflexivity.
  - assert (K : keys r = (ck, dk)) by (apply U; left; reflexivity).
    injection K as Kc Kd. rewrite <- Kc in *.
    rewrite reducer_new_device.
    + rewrite IH.
      * cbn [g_devices]. rewrite <- app_assoc. rewrite Kd. reflexivity.
      * exact N.
      * cbn [g_devices]. rewrite <- app_assoc. rewrite Kd. exact D.
      * intros dk' r' H. apply U. right. exact H.
    + exact N.
    + rewrite Kd. rewrite map_app in D. apply NoDup_remove_2 in D.
      intros H. apply D. apply in_or_app. left. exact H.
Qed.

Lemma block clock ck es : forall i acc,
  es <> [] -> ~ In ck (map fst acc) -> NoDup (map fst es) -> under ck es ->
  strip (reduce_from clock i acc (map snd es)) = strip acc ++ [(ck, es)].
Proof.
  intros i acc Ne N D U. destruct es as [| [dk r] es]; [contradiction |].
  cbn [map snd reduce_from].
  assert (K : keys r = (ck, dk)) by (apply U; left; reflexivity).
  injection K as Kc Kd. rewrite <- Kc in *.
  rewrite reducer_new_group by exact N.
  rewrite block_rest.
  - cbn [g_devices app]. rewrite Kd. reflexivity.
  - exact N.
  - cbn [g_devices app]. rewrite Kd. exact D.
  - intros dk' r' H. apply U. right. exact H.
Qed.

Lemma keys_strip acc : map fst (strip acc) = map fst acc.
Proof. unfold strip. rewrite map_map. reflexivity. Qed.

Lemma regroup clock acc0 : forall i done,
  NoDup (map fst done ++ map fst acc0) ->
  (forall ck g, In (ck, g) acc0 ->
     g_devices g <> [] /\ NoDup (map fst (g_devices g)) /\ under ck (g_devices g)) ->
  strip (reduce_from clock i done
           (flat_map (fun kg => map snd (g_devices (snd kg))) acc0))
  = strip done ++ strip acc0.
Proof.
  induction acc0 as [| [ck g] acc0 IH]; intros i done D H; cbn [flat_map].
  - cbn [reduce_from]. rewrite app_nil_r. reflexivity.
  - rewrite reduce_from_app. cbn [snd].
    destruct (H ck g (or_introl eq_refl)) as (Ne & Dg & U).
    assert (N : ~ In ck (map fst done)).
    { cbn [map fst] in D. apply NoDup_remove_2 in D. intros I. apply D.
      apply in_or_app. left. exact I. }
    pose proof (block clock ck (g_devices g) i done Ne N Dg U) as B.
    rewrite IH.
    + rewrite B. rewrite <- app_assoc. reflexivity.
    + rewrite <- keys_strip, B, map_app, keys_strip. cbn [map fst].
      rewrite <- app_assoc. exact D.
    + intros ck' g' I. apply H. right. exact I.
Qed.

(** X10. Resolving the obligations that the card shows gives the same
    obligations again, in the same order: nothing more is dropped, whatever
    the clock and the dates are. *)
Theorem resolving_twice_changes_nothing clock clock' devices :
  retained clock' (retained clock devices) = retained clock devices.
Proof.
  destruct (groupedDevices_keyed clock devices) as [W K].
  destruct (groupedDevices_groups_ok clock devices) as [_ G].
  rewrite (retained_flat clock' _), (retained_flat clock devices).
  assert (S : strip (groupedDevices clock'
                (flat_map (fun kg => map snd (g_devices (snd kg)))
                          (groupedDevices clock devices)))
              = strip (groupedDevices clock devices)).
  { unfold groupedDevices at 1.
    rewrite (regroup clock' (groupedDevices clock devices) 0%nat []).
    - reflexivity.
    - exact (proj1 W).
    - intros ck g I. pose proof (In_get _ _ _ (proj1 W) I) as Gk.
      split; [| split].
      + specialize (G ck). rewrite Gk in G. apply G.
      + exact (proj2 W ck g Gk).
      + intros dk r Hr. exact (proj1 (keyed_entry _ _ _ _ _ _ W K I Hr)). }
  assert (F : forall acc, flat_map (fun kg => map snd (g_devices (snd kg))) acc
                          = flat_map (fun e => map snd (snd e)) (strip acc)).
  { intros acc. unfold strip. induction acc as [| kg acc IH]; [reflexivity |].
    cbn [flat_map map snd]. rewrite IH. reflexivity. }
  rewrite (F (groupedDevices clock' _)), S, <- F. reflexivity.
Qed.

End OverdueViewFacts.

(** ** What the due-soon card shows of a due date *)

Module DueViewFacts.
Import Calendar CalendarFacts JsFacts MapFacts DueCard DueCardFacts DueView.

Lemma ceil_div_day x :
  ms_per_day * (Js.ceil_div x ms_per_day - 1) < x
  <= ms_per_day * Js.ceil_div x ms_per_day.
Proof.
  unfold Js.ceil_div, ms_per_day. Z.div_mod_to_equations. lia.
Qed.

Lemma getTime_of_iso d : iso_date d -> getTime (iso d) = Some (epoch_ms d).
Proof. intros I. unfold getTime. rewrite parse_iso_iso by exact I. reflexivity. Qed.

(** X11. For a date-only due date the line under a device reads "Due today"
    only at the very instant 00:00 UTC of that date. From then on the device
    counts as overdue by the whole days gone by, which is "0 days overdue"
    during the first day; up to a day before it reads "Due tomorrow", and
    earlier the days left, rounded up, at least 2. *)
Theorem due_today_is_a_single_instant now d :
  iso_date d ->
  (dueLabel now (iso d) = DueToday <-> now = epoch_ms d)
  /\ (epoch_ms d < now ->
      dueLabel now (iso d) = DaysOverdue (Some ((now - epoch_ms d) / ms_per_day)))
  /\ (epoch_ms d < now < epoch_ms d + ms_per_day ->
      text (dueLabel now (iso d)) = "0 days overdue"%string)
  /\ (now < epoch_ms d <= now + ms_per_day ->
      dueLabel now (iso d) = DueTomorrow)
  /\ (now + ms_per_day < epoch_ms d ->
      dueLabel now (iso d)
      = DaysLeft (Some (Js.ceil_div (epoch_ms d - now) ms_per_day))
      /\ 2 <= Js.ceil_div (epoch_ms d - now) ms_per_day).
Proof.
  intros I. unfold dueLabel, isOverdue, getDaysUntilDue.
  rewrite getTime_of_iso by exact I. cbn [option_map].
  pose proof (ceil_div_day (epoch_ms d - now)) as C.
  set (u := Js.ceil_div (epoch_ms d - now) ms_per_day) in *.
  assert (O : epoch_ms d < now ->
              Z.abs u = (now - epoch_ms d) / ms_per_day).
  { intros L. unfold ms_per_day in *. Z.div_mod_to_equations. lia. }
  assert (Dpos : 0 < ms_per_day) by (unfold ms_per_day; lia).
  split; [| split; [| split; [| split]]].
  - destruct (Z.ltb_spec (epoch_ms d) now) as [L | G].
    + split; [discriminate | lia].
    + split.
      * intros H. destruct u as [| [p | p |] | p]; try discriminate H. lia.
      * intros ->. replace u with 0 by (unfold u; rewrite Z.sub_diag; reflexivity).
        reflexivity.
  - intros L. destruct (Z.ltb_spec (epoch_ms d) now); [| lia].
    rewrite (O L). reflexivity.
  - intros [L U]. destruct (Z.ltb_spec (epoch_ms d) now); [| lia].
    rewrite (O L). rewrite Z.div_small by lia. reflexivity.
  - intros [L U]. destruct (Z.ltb_spec (epoch_ms d) now); [lia |].
    replace u with 1 by nia. reflexivity.
  - intros L. destruct (Z.ltb_spec (epoch_ms d) now); [lia |].
    assert (2 <= u) by nia. split; [| assumption].
    destruct u as [| [p | p |] | p]; try reflexivity; lia.
Qed.

Lemma due_today_is_a_single_instant_witness :
  text (dueLabel 1704196800000 (iso (mkDate 2024 1 2))) = "0 days overdue"%string.
Proof.
  refine (proj1 (proj2 (proj2 (due_today_is_a_single_instant 1704196800000
                                 (mkDate 2024 1 2) _))) _).
  - date_literal.
  - vm_compute. split; reflexivity.
Defined.

(** X12. Once a date-only due date is past, the overdue card counts at
    least 1 day, and the due-soon card counts the whole days gone by: one
    less than the overdue card, unless whole days have gone by. Before the
    due date the overdue card counts no day. *)
Theorem overdue_days_on_the_two_cards now d :
  iso_date d ->
  exists o,
    OverdueView.getDaysOverdue now (iso d) = Some o
    /\ (1 <= o <-> epoch_ms d < now)
    /\ (epoch_ms d < now ->
        exists u,
          dueLabel now (iso d) = DaysOverdue (Some u)
          /\ o = u + (if (now - epoch_ms d) mod ms_per_day =? 0 then 0 else 1)).
Proof.
  intros I. unfold OverdueView.getDaysOverdue, OverdueCard.daysOverdue.
  rewrite getTime_of_iso by exact I. cbn [option_map].
  exists (Js.ceil_div (now - epoch_ms d) ms_per_day). split; [reflexivity |].
  pose proof (ceil_div_day (now - epoch_ms d)) as C.
  assert (Dpos : 0 < ms_per_day) by (unfold ms_per_day; lia).
  split; [split; intros; nia |].
  intros L. exists ((now - epoch_ms d) / ms_per_day). split.
  - unfold dueLabel, isOverdue, getDaysUntilDue.
    rewrite getTime_of_iso by exact I. cbn [option_map].
    destruct (Z.ltb_spec (epoch_ms d) now); [| lia].
    do 2 f_equal. unfold Js.ceil_div, ms_per_day. Z.div_mod_to_equations. lia.
  - unfold Js.ceil_div, ms_per_day in *.
    destruct (Z.eqb_spec ((now - epoch_ms d) mod (1000 * 60 * 60 * 24)) 0);
      Z.div_mod_to_equations; lia.
Qed.

Lemma overdue_days_on_the_two_cards_witness :
  exists o,
    OverdueView.getDaysOverdue 1704196800000 (iso (mkDate 2024 1 1)) = Some o
    /\ (1 <= o <-> epoch_ms (mkDate 2024 1 1) < 1704196800000).
Proof.
  destruct (overdue_days_on_the_two_cards 1704196800000 (mkDate 2024 1 1))
    as (o & E & S & _).
  - date_literal.
  - exists o. split; assumption.
Defined.

Lemma groupedClients_sorted devices :
  dated devices ->
  StronglySorted (fun a b => earliest_ms a <= earliest_ms b)
                 (groupedClients devices).
Proof.
  intros Dt. unfold groupedClients. apply sort_sorted. intros x y Hx Hy.
  destruct (group_time devices x Dt Hx) as (ex & Ix & Ex & Tx).
  destruct (group_time devices y Dt Hy) as (ey & Iy & Ey & Ty).
  rewrite Tx, Ty. unfold by_earliest, getTime.
  rewrite Ex, Ey, !parse_iso_iso by assumption. cbn [option_map].
  destruct (Z.leb_spec (epoch_ms ex - epoch_ms ey) 0),
    (Z.leb_spec (epoch_ms ex) (epoch_ms ey)); try reflexivity; lia.
Qed.

Lemma isOverdue_iso now d :
  iso_date d -> isOverdue now (iso d) = (epoch_ms d <? now).
Proof. intros I. unfold isOverdue. rewrite getTime_of_iso by exact I. reflexivity. Qed.

(** X13. With date-only due dates a client has an overdue device exactly
    when its earliest due date is past, so that the colour of its box is
    read off that date alone: red once it is past, orange up to 7 days
    before it, gray earlier. *)
Theorem box_colour_follows_earliest_date now devices g :
  dated devices -> In g (groupedClients devices) ->
  hasOverdueDevice now g = isOverdue now (earliestDueDate g)
  /\ boxColour now g
     = if earliest_ms g <? now then Red
       else if earliest_ms g <=? now + 7 * ms_per_day then Orange else Gray.
Proof.
  intros Dt Hg.
  destruct (groupedClients_group_ok devices g Hg) as (Em & _ & _ & Ein & Hl).
  destruct (Hl Dt) as (e & Ie & Ee & Min).
  assert (Te : earliest_ms g = epoch_ms e).
  { unfold earliest_ms. rewrite Ee, getTime_of_iso by exact Ie. reflexivity. }
  assert (Hd : forall x, In x (DueCard.devices g) -> is_iso (due_date x)).
  { intros x Hx. rewrite Em in Hx. apply In_members in Hx.
    unfold dated in Dt. rewrite Forall_forall in Dt. apply Dt, Hx. }
  assert (H : hasOverdueDevice now g = (epoch_ms e <? now)).
  { unfold hasOverdueDevice. destruct (Z.ltb_spec (epoch_ms e) now) as [L | G].
    - apply existsb_exists. apply in_map_iff in Ein.
      destruct Ein as (x & Ex & Hx). exists x. split; [exact Hx |].
      rewrite Ex, Ee, isOverdue_iso by exact Ie. apply Z.ltb_lt, L.
    - apply not_true_is_false. intros T. apply existsb_exists in T.
      destruct T as (x & Hx & O). destruct (Hd x Hx) as (dx & Ix & Ex).
      rewrite Ex, isOverdue_iso in O by exact Ix. apply Z.ltb_lt in O.
      specialize (Min x dx Hx Ix Ex). unfold epoch_ms, ms_per_day in *. lia. }
  split.
  - rewrite H, Ee, isOverdue_iso by exact Ie. reflexivity.
  - unfold boxColour. rewrite H, Te. destruct (epoch_ms e <? now) eqn:L;
      [reflexivity |].
    unfold getDaysUntilDue. rewrite Ee, getTime_of_iso by exact Ie.
    cbn [option_map]. pose proof (ceil_div_day (epoch_ms e - now)) as C.
    destruct (Z.leb_spec (Js.ceil_div (epoch_ms e - now) ms_per_day) 7),
      (Z.leb_spec (epoch_ms e) (now + 7 * ms_per_day)); try reflexivity;
      unfold ms_per_day in *; lia.
Qed.

Lemma box_colour_follows_earliest_date_witness :
  let r1 := mkDeviceDueSoon "u1" "AC 1" "A" "Home" "3_months" (iso (mkDate 2024 1 10)) in
  let r2 := mkDeviceDueSoon "u2" "AC 2" "A" "Home" "4_months" (iso (mkDate 2024 1 1)) in
  let g := mkGroupedClient "A" "Home" [r1; r2] (iso (mkDate 2024 1 1)) 2 in
  boxColour 1704196800000 g = Red.
Proof.
  cbv zeta.
  refine (proj2 (box_colour_follows_earliest_date 1704196800000
            [mkDeviceDueSoon "u1" "AC 1" "A" "Home" "3_months" (iso (mkDate 2024 1 10));
             mkDeviceDueSoon "u2" "AC 2" "A" "Home" "4_months" (iso (mkDate 2024 1 1))]
            _ _ _)).
  - apply Forall_cons; [iso_literal (mkDate 2024 1 10) |].
    apply Forall_cons; [iso_literal (mkDate 2024 1 1) |].
    apply Forall_nil.
  - left. reflexivity.
Defined.

Section FilterFacts.
Variable toLowerCase : string -> string.
Variable brand_name : DeviceDueSoon -> option string.
Variable ac_type_name : DeviceDueSoon -> option string.

Local Abbreviation filteredClients :=
  (filteredClients toLowerCase brand_name ac_type_name).

Lemma filter_sorted {A : Type} (R : A -> A -> Prop) f l :
  StronglySorted R l -> StronglySorted R (filter f l).
Proof.
  induction 1 as [| x l S IH F]; cbn [filter]; [constructor |].
  destruct (f x); [| exact IH]. constructor; [exact IH |].
  rewrite Forall_forall in F |- *. intros y Hy. apply filter_In in Hy.
  apply F, Hy.
Qed.

(** X14. The filters of the due-soon card keep the order of the groups,
    ascending by earliest due date, and show each group with all its
    devices. Without filters every group is shown; with a date filter each
    group shown has a device due on that date. *)
Theorem due_soon_filters_keep_the_order :
  (forall groups, filteredClients "" "" groups = groups)
  /\ (forall query date devices,
       dated devices ->
       StronglySorted (fun a b => earliest_ms a <= earliest_ms b)
                      (filteredClients query date (groupedClients devices)))
  /\ (forall query date groups g,
       In g (filteredClients query date groups) ->
       In g groups
       /\ (date <> ""%string ->
           exists d, In d (DueCard.devices g) /\ due_date d = date)).
Proof.
  split; [| split].
  - intros groups. unfold DueView.filteredClients.
    induction groups as [| g groups IH]; [reflexivity |].
    cbn [filter]. unfold DueView.matchesSearch at 1, matchesDate at 1.
    cbn [String.eqb orb andb]. rewrite IH. reflexivity.
  - intros query date devices Dt. apply filter_sorted.
    apply groupedClients_sorted, Dt.
  - intros query date groups g Hg. apply filter_In in Hg.
    destruct Hg as [Hg M]. split; [exact Hg |]. intros N.
    apply andb_true_iff in M. destruct M as [_ M]. unfold matchesDate in M.
    destruct (String.eqb_spec date ""); [contradiction |]. cbn [orb] in M.
    apply existsb_exists in M. destruct M as (d & Hd & E).
    exists d. split; [exact Hd | apply String.eqb_eq, E].
Qed.

End FilterFacts.

End DueViewFacts.

(** ** Days between a date and the dates generated from it *)

Module IntervalFacts.
Import Calendar CalendarFacts SchemaFacts Schema.

Lemma add_months_cases d n :
  1 <= month d <= 12 -> 0 <= n <= 12 ->
  add_months d n =
  if month d + n <=? 12
  then mkDate (year d) (month d + n)
              (Z.min (day d) (days_in_month (year d) (month d + n)))
  else mkDate (year d + 1) (month d + n - 12)
              (Z.min (day d) (days_in_month (year d + 1) (month d + n - 12))).
Proof.
  intros Hm Hn. unfold add_months.
  destruct (Z.leb_spec (month d + n) 12) as [L | G].
  - replace ((year d * 12 + (month d - 1) + n) / 12) with (year d)
      by (Z.div_mod_to_equations; lia).
    replace ((year d * 12 + (month d - 1) + n) mod 12 + 1) with (month d + n)
      by (Z.div_mod_to_equations; lia).
    reflexivity.
  - replace ((year d * 12 + (month d - 1) + n) / 12) with (year d + 1)
      by (Z.div_mod_to_equations; lia).
    replace ((year d * 12 + (month d - 1) + n) mod 12 + 1) with (month d + n - 12)
      by (Z.div_mod_to_equations; lia).
    reflexivity.
Qed.

Lemma leap_not_twice y : is_leap y = true -> is_leap (y + 1) = false.
Proof.
  unfold is_leap. intros H. apply orb_true_iff in H.
  apply not_true_is_false. intros H'. apply orb_true_iff in H'.
  rewrite !andb_true_iff, !negb_true_iff, !Z.eqb_eq, !Z.eqb_neq in *.
  Z.div_mod_to_equations. lia.
Qed.

(** The days from [d] to [d] plus [n] months, for a month and a number of
    months given in figures. *)
Ltac offset_by_cases y dd Hd :=
  rewrite add_months_cases by (cbn [month]; lia);
  cbn [year month day Z.add Z.leb Z.compare Pos.compare Pos.compare_cont
       Pos.add Pos.succ Z.sub Z.opp Z.pos_sub Pos.pred_double Z.succ_double
       Z.pred_double Z.double Pos.add_carry];
  unfold day_number; cbn [year month day];
  rewrite ?days_before_year_step; unfold year_length;
  unfold days_before_month, days_in_month in *; cbn [year month day] in Hd;
  pose proof (leap_not_twice y);
  destruct (is_leap y), (is_leap (y + 1)); try lia;
  try (exfalso; assert (true = false) by auto; discriminate).

Lemma offset_bounds d n lo hi :
  valid_date d ->
  (n = 3 /\ lo = 89 /\ hi = 92) \/ (n = 4 /\ lo = 120 /\ hi = 123)
  \/ (n = 6 /\ lo = 181 /\ hi = 184) \/ (n = 12 /\ lo = 365 /\ hi = 366) ->
  lo <= day_number (add_months d n) - day_number d <= hi.
Proof.
  intros [Hm Hd] Hn. destruct d as [y m dd]. cbn [year month day] in *.
  destruct Hn as [(-> & -> & ->) | [(-> & -> & ->) | [(-> & -> & ->) | (-> & -> & ->)]]];
    by_month Hm; offset_by_cases y dd Hd.
Qed.

Lemma lex_of_le d1 d2 :
  valid_date d1 -> valid_date d2 -> day_number d1 <= day_number d2 ->
  month_index d1 < month_index d2
  \/ (year d1 = year d2 /\ month d1 = month d2 /\ day d1 <= day d2).
Proof.
  intros V1 V2 L. apply (proj2 (Z.compare_le_iff _ _)) in L.
  rewrite day_number_compare in L by assumption.
  destruct V1 as [M1 _], V2 as [M2 _]. unfold date_compare, month_index in *.
  destruct (Z.compare_spec (year d1) (year d2)); cbn [then_cmp] in L;
    [| left; lia | contradiction].
  destruct (Z.compare_spec (month d1) (month d2)); cbn [then_cmp] in L;
    [| left; lia | contradiction].
  right. apply (proj1 (Z.compare_le_iff _ _)) in L. lia.
Qed.

Lemma add_months_mono d1 d2 n :
  valid_date d1 -> valid_date d2 -> day_number d1 <= day_number d2 ->
  day_number (add_months d1 n) <= day_number (add_months d2 n).
Proof.
  intros V1 V2 L. unfold Z.le.
  rewrite day_number_compare by (apply add_months_valid; assumption).
  pose proof (add_months_index d1 n) as I1.
  pose proof (add_months_index d2 n) as I2.
  pose proof (add_months_valid d1 n V1) as [R1 _].
  pose proof (add_months_valid d2 n V2) as [R2 _].
  destruct (lex_of_le d1 d2 V1 V2 L) as [Lt | (Ey & Em & Ld)].
  - unfold month_index in *. unfold date_compare.
    destruct (Z.compare_spec (year (add_months d1 n)) (year (add_months d2 n)));
      cbn [then_cmp]; try discriminate; try lia.
    destruct (Z.compare_spec (month (add_months d1 n)) (month (add_months d2 n)));
      cbn [then_cmp]; try discriminate; lia.
  - unfold add_months, date_compare. cbn [year month day]. rewrite Ey, Em.
    rewrite !Z.compare_refl. cbn [then_cmp].
    apply (proj2 (Z.compare_le_iff _ _)). lia.
Qed.

(** X15. The three due dates of a device lie 89 to 92, 120 to 123 and 181
    to 184 days after its cleaning date, and a later cleaning date never
    gives an earlier due date. *)
Theorem due_dates_follow_the_cleaning_date :
  (forall r d,
     last_cleaning_date r = Some d -> valid_date d ->
     exists d3 d4 d6,
       due_3_months r = Some d3 /\ due_4_months r = Some d4
       /\ due_6_months r = Some d6
       /\ 89 <= day_number d3 - day_number d <= 92
       /\ 120 <= day_number d4 - day_number d <= 123
       /\ 181 <= day_number d6 - day_number d <= 184)
  /\ (forall r1 r2 d1 d2,
       last_cleaning_date r1 = Some d1 -> last_cleaning_date r2 = Some d2 ->
       valid_date d1 -> valid_date d2 -> day_number d1 <= day_number d2 ->
       exists a3 a4 a6 b3 b4 b6,
         due_3_months r1 = Some a3 /\ due_3_months r2 = Some b3
         /\ due_4_months r1 = Some a4 /\ due_4_months r2 = Some b4
         /\ due_6_months r1 = Some a6 /\ due_6_months r2 = Some b6
         /\ day_number a3 <= day_number b3
         /\ day_number a4 <= day_number b4
         /\ day_number a6 <= day_number b6).
Proof.
  split.
  - intros r d E V. unfold due_3_months, due_4_months, due_6_months, plus_months.
    rewrite E. cbn [option_map].
    exists (add_months d 3), (add_months d 4), (add_months d 6).
    split; [reflexivity |]. split; [reflexivity |]. split; [reflexivity |].
    split; [| split]; apply offset_bounds; try exact V; tauto.
  - intros r1 r2 d1 d2 E1 E2 V1 V2 L.
    unfold due_3_months, due_4_months, due_6_months, plus_months.
    rewrite E1, E2. cbn [option_map].
    exists (add_months d1 3), (add_months d1 4), (add_months d1 6),
      (add_months d2 3), (add_months d2 4), (add_months d2 6).
    repeat (split; [reflexivity |]).
    split; [| split]; apply add_months_mono; assumption.
Qed.

Lemma due_dates_follow_the_cleaning_date_witness :
  exists d3 d4 d6,
    due_3_months (mkRow (Some (mkDate 2023 11 30)) None) = Some d3
    /\ due_4_months (mkRow (Some (mkDate 2023 11 30)) None) = Some d4
    /\ due_6_months (mkRow (Some (mkDate 2023 11 30)) None) = Some d6
    /\ 89 <= day_number d3 - day_number (mkDate 2023 11 30) <= 92.
Proof.
  destruct (proj1 due_dates_follow_the_cleaning_date
              (mkRow (Some (mkDate 2023 11 30)) None) (mkDate 2023 11 30) eq_refl)
    as (d3 & d4 & d6 & E3 & E4 & E6 & B & _).
  - date_literal.
  - exists d3, d4, d6. auto.
Defined.

(** X16. Loyalty points without a date earned have no expiry. Otherwise
    they expire in the next year, in the same month and on the same day,
    except that points earned on a 29th of February expire on the 28th; the
    expiry comes 365 or 366 days after the points were earned. *)
Theorem loyalty_points_expire_a_year_later :
  Loyalty.date_expiry None = None
  /\ (forall d,
       valid_date d ->
       exists e,
         Loyalty.date_expiry (Some d) = Some e
         /\ valid_date e
         /\ year e = year d + 1 /\ month e = month d
         /\ day e = (if (month d =? 2) && (day d =? 29) then 28 else day d)
         /\ 365 <= day_number e - day_number d <= 366).
Proof.
  split; [reflexivity |]. intros d V. exists (add_months d 12).
  split; [reflexivity |]. split; [apply add_months_valid, V |].
  pose proof (offset_bounds d 12 365 366 V ltac:(tauto)) as B.
  destruct V as [Hm Hd].
  rewrite add_months_cases in * by lia.
  destruct (Z.leb_spec (month d + 12) 12); [lia |]. cbn [year month day] in *.
  split; [reflexivity |]. split; [lia |]. split; [| exact B].
  replace (month d + 12 - 12) with (month d) by lia.
  destruct d as [y m dd]. cbn [year month day] in *.
  pose proof (leap_not_twice y) as NL.
  by_month Hm; unfold days_in_month in *; cbn [Z.eqb Pos.eqb andb];
    try (destruct (is_leap y), (is_leap (y + 1)); lia).
  destruct (Z.eqb_spec dd 29) as [-> | N].
  - destruct (is_leap y); [rewrite NL by reflexivity |]; lia.
  - destruct (is_leap y), (is_leap (y + 1)); lia.
Qed.

Lemma loyalty_points_expire_a_year_later_witness :
  exists e, Loyalty.date_expiry (Some (mkDate 2024 2 29)) = Some e /\ day e = 28.
Proof.
  destruct (proj2 loyalty_points_expire_a_year_later (mkDate 2024 2 29))
    as (e & E & _ & _ & _ & D & _).
  - date_literal.
  - exists e. split; [exact E | exact D].
Defined.

End IntervalFacts.

(** ** More on the bulk SMS loop, and the handler around it *)

Module SmsHandlerFacts.
Import Sms SmsFacts SmsHandler.

Section LoopFacts.
Context {World : Type}.
Variable fetch : World -> Request -> FetchOutcome * World.
Variable SEMAPHORE_API_KEY : string.
Variable SEMAPHORE_SENDER_NAME : option string.
Variable getAllClientsForSMS : World -> ClientsOutcome * World.

Local Abbreviation run := (run fetch SEMAPHORE_API_KEY SEMAPHORE_SENDER_NAME).
Local Abbreviation request := (request SEMAPHORE_API_KEY SEMAPHORE_SENDER_NAME).
Local Abbreviation runCampaign :=
  (runCampaign fetch SEMAPHORE_API_KEY SEMAPHORE_SENDER_NAME).
Local Abbreviation entry := (entry fetch SEMAPHORE_API_KEY SEMAPHORE_SENDER_NAME).
Local Abbreviation events := (events fetch SEMAPHORE_API_KEY SEMAPHORE_SENDER_NAME).
Local Abbreviation world_after :=
  (world_after fetch SEMAPHORE_API_KEY SEMAPHORE_SENDER_NAME).
Local Abbreviation handler :=
  (handler fetch SEMAPHORE_API_KEY SEMAPHORE_SENDER_NAME getAllClientsForSMS).

Lemma run_requests clients : forall w,
  map fst (fetches (l_trace (run w clients)))
  = map request (filter eligible clients).
Proof.
  induction clients as [| c cs IH]; intros w; [reflexivity |].
  destruct (run_cons fetch SEMAPHORE_API_KEY SEMAPHORE_SENDER_NAME w c cs)
    as (_ & _ & _ & T & _). cbv zeta in T. rewrite T.
  unfold fetches in *. rewrite flat_map_app, map_app, IH. cbn [filter].
  unfold Sms.events. destruct (eligible c); cbn [negb]; [| reflexivity].
  change (flat_map (fun e => match e with
                             | Fetch rq out => [(rq, out)]
                             | Delay _ => []
                             end)
                   (block (request c, fst (fetch w (request c)))))
    with (fetches (block (request c, fst (fetch w (request c))))).
  rewrite fetches_block. reflexivity.
Qed.

Lemma eligible_number c :
  eligible c = true ->
  Sms.number (request c) <> ""%string
  /\ mobile c = Some (Sms.number (request c)).
Proof.
  unfold eligible, Sms.request. cbn [Sms.number].
  destruct (mobile c) as [[| a m] |]; cbn [Js.truthy andb Js.String_];
    try discriminate.
  intros _. split; [discriminate | reflexivity].
Qed.

(** X17. The gateway is asked once for each recipient that has a mobile
    number and a QR code, in the order of the list and with the request made
    for that recipient; no request has an empty number. *)
Theorem requests_follow_the_eligible_recipients w clients :
  let tr := trace (runCampaign w (Some clients)) in
  map fst (fetches tr) = map request (filter eligible clients)
  /\ Forall (fun rq => Sms.number rq <> ""%string
                       /\ exists c, In c clients /\ rq = request c
                                    /\ mobile c = Some (Sms.number rq)
                                    /\ message rq = smsMessage c)
            (map fst (fetches tr)).
Proof.
  cbv zeta. rewrite runCampaign_run. unfold trace. cbn [fst snd].
  rewrite run_requests. split; [reflexivity |].
  apply Forall_forall. intros rq H. apply in_map_iff in H.
  destruct H as (c & <- & Hc). apply filter_In in Hc. destruct Hc as [Hc E].
  destruct (eligible_number c E) as [N M]. split; [exact N |].
  exists c. repeat split; assumption.
Qed.

Lemma entry_shape w c :
  let r := entry w c in
  (success r = true -> messageId r = Some "sent"%string /\ error r = None)
  /\ (success r = false -> messageId r = None /\ error r <> None).
Proof.
  cbv zeta. unfold Sms.entry.
  destruct (negb (eligible c)); cbn [success messageId error].
  - split; [discriminate | intros _; split; [reflexivity | discriminate]].
  - destruct (fst (fetch w (request c))) as [[|] text | msg |];
      cbn [success messageId error];
      (split; [intros H | intros H]); try discriminate H;
        split; try reflexivity; discriminate.
Qed.

Lemma run_results_shape clients : forall w r,
  In r (l_results (run w clients)) ->
  (success r = true -> messageId r = Some "sent"%string /\ error r = None)
  /\ (success r = false -> messageId r = None /\ error r <> None).
Proof.
  induction clients as [| c cs IH]; intros w r H; [destruct H |].
  destruct (run_cons fetch SEMAPHORE_API_KEY SEMAPHORE_SENDER_NAME w c cs)
    as (R & _). cbv zeta in R. rewrite R in H. destruct H as [<- | H].
  - apply entry_shape.
  - exact (IH _ _ H).
Qed.

Lemma run_success_count clients : forall w,
  l_successCount (run w clients)
  = Z.of_nat (List.length (accepted (fetches (l_trace (run w clients))))).
Proof.
  induction clients as [| c cs IH]; intros w; [reflexivity |].
  destruct (run_cons fetch SEMAPHORE_API_KEY SEMAPHORE_SENDER_NAME w c cs)
    as (_ & S & _ & T & _). cbv zeta in S, T. rewrite S, T, IH.
  unfold fetches, accepted in *. rewrite flat_map_app, filter_app, length_app.
  unfold Sms.entry, Sms.events. destruct (eligible c); cbn [negb success];
    [| cbn; lia].
  unfold block. cbn [fst snd].
  destruct (fst (fetch w (request c))) as [[|] text | msg |];
    cbn [success responded flat_map app filter snd List.length]; lia.
Qed.

(** X18. The successes counted are the calls that the gateway answered with
    an ok response, and the failures counted are the recipients left out for
    a missing field together with the calls that were refused or threw. An
    entry of the report has the message id "sent" and no error when it is a
    success, and an error and no message id when it is a failure. *)
Theorem counts_match_the_answers_of_the_gateway w clients :
  let out := runCampaign w (Some clients) in
  successCount (body out)
  = Z.of_nat (List.length (accepted (fetches (trace out))))
  /\ failureCount (body out)
     = Z.of_nat (List.length clients - List.length (filter eligible clients))
       + Z.of_nat (List.length (fetches (trace out))
                   - List.length (accepted (fetches (trace out))))
  /\ forall r, In r (results (body out)) ->
       (success r = true -> messageId r = Some "sent"%string /\ error r = None)
       /\ (success r = false -> messageId r = None /\ error r <> None).
Proof.
  cbv zeta. rewrite runCampaign_run. unfold body, trace.
  cbn [fst snd successCount failureCount results].
  pose proof (run_success_count clients w) as S.
  destruct (run_totals fetch SEMAPHORE_API_KEY SEMAPHORE_SENDER_NAME clients w)
    as (T & _).
  pose proof (run_fetches fetch SEMAPHORE_API_KEY SEMAPHORE_SENDER_NAME clients w)
    as F.
  assert (A : (List.length (accepted (fetches (l_trace (run w clients))))
               <= List.length (fetches (l_trace (run w clients))))%nat)
    by apply filter_length_le.
  assert (E : (List.length (filter eligible clients) <= List.length clients)%nat)
    by apply filter_length_le.
  split; [exact S |]. split; [lia | apply run_results_shape].
Qed.

(** X19. A request that is not a POST is answered 405 and nothing else
    happens. A POST is answered 200 exactly when the list of clients is
    obtained, whatever the gateway does afterwards, and then the successes
    and failures of the report add up to its total, with one result for
    each; when obtaining the list fails the answer is 500 and no message is
    sent. Messages are only ever sent under a 200. *)
Theorem handler_answers method w :
  let out := handler method w in
  (method <> "POST"%string ->
   out = (Failure 405 "Method not allowed", [], w))
  /\ (status_of (fst (fst out)) = 200
      <-> method = "POST"%string
          /\ exists clients w1, getAllClientsForSMS w = (Clients clients, w1))
  /\ (forall report,
        fst (fst out) = Report 200 report ->
        successCount report + failureCount report = totalClients report
        /\ Z.of_nat (List.length (results report)) = totalClients report)
  /\ (snd (fst out) <> [] -> status_of (fst (fst out)) = 200)
  /\ (method = "POST"%string ->
      (forall clients w1, getAllClientsForSMS w <> (Clients clients, w1)) ->
      status_of (fst (fst out)) = 500 /\ snd (fst out) = []).
Proof.
  cbv zeta. unfold SmsHandler.handler.
  destruct (String.eqb_spec method "POST") as [-> | N]; cbn [negb].
  - destruct (getAllClientsForSMS w) as [[clients | msg |] w1] eqn:G;
      cbn [fst snd status_of].
    + split; [congruence |]. split.
      * split; [intros _; split; [reflexivity | exists clients, w1; reflexivity]
               | reflexivity].
      * split.
        -- intros report [= <-]. destruct clients as [clients |].
           ++ rewrite runCampaign_run. unfold body.
              cbn [fst successCount failureCount totalClients results].
              destruct (run_totals fetch SEMAPHORE_API_KEY SEMAPHORE_SENDER_NAME
                                   clients w1) as (T & L & _).
              split; [exact T | rewrite L; reflexivity].
           ++ cbn. split; reflexivity.
        -- split; [reflexivity |]. intros _ H. exfalso. exact (H clients w1 eq_refl).
    + split; [congruence |]. split.
      * split; [discriminate | intros [_ (cs & w' & [=])]].
      * split; [discriminate |]. split; [congruence |].
        intros _ _. split; reflexivity.
    + split; [congruence |]. split.
      * split; [discriminate | intros [_ (cs & w' & [=])]].
      * split; [discriminate |]. split; [congruence |].
        intros _ _. split; reflexivity.
  - cbn [fst snd status_of]. split; [reflexivity |]. split.
    + split; [discriminate | intros [E _]; contradiction].
    + split; [discriminate |]. split; [congruence | intros E; contradiction].
Qed.

End LoopFacts.

End SmsHandlerFacts.

(** ** The status of a device over time, and the devices of the due-soon card *)

Module StatusFacts.
Import Calendar CalendarFacts JsFacts SchemaFacts IntervalFacts DevicesTable
       DevicesTableFacts.



Lemma add_months_iso d n :
  iso_date d -> year d <= 9998 -> 0 <= n <= 12 -> iso_date (add_months d n).
Proof.
  intros [Hy V] Y Hn. split; [| apply add_months_valid, V].
  rewrite add_months_cases by (destruct V; lia).
  destruct (month d + n <=? 12); cbn [year]; lia.
Qed.

(** X21. For a device of the table without a repair date and with a
    cleaning date, only the first of the three due dates counts: the device
    is [due] once 00:00 UTC of the date three months after the cleaning is
    past, and [maintain] until then, whatever the instant within the four-
    and six-month dates. *)
Theorem status_follows_the_three_month_date now r d :
  Schema.last_repair_date r = None ->
  Schema.last_cleaning_date r = Some d ->
  iso_date d -> year d <= 9998 ->
  getDeviceStatus now (of_row r)
  = if epoch_ms (add_months d 3) <? now then "due"%string else "maintain"%string.
Proof.
  intros R C I Y.
  pose proof (add_months_iso d 3 I Y ltac:(lia)) as I3.
  pose proof (add_months_iso d 4 I Y ltac:(lia)) as I4.
  pose proof (add_months_iso d 6 I Y ltac:(lia)) as I6.
  pose proof (add_months_lt d 3 4 (proj2 I) ltac:(lia)) as L34.
  pose proof (add_months_lt d 4 6 (proj2 I) ltac:(lia)) as L46.
  unfold getDeviceStatus, of_row, dueDates.
  unfold Schema.due_3_months, Schema.due_4_months, Schema.due_6_months,
    Schema.plus_months.
  rewrite R, C.
  cbn [option_map last_repair_date due_3_months due_4_months due_6_months
       last_cleaning_date].
  change (Js.truthy None) with false.
  cbn [filter]. rewrite !truthy_iso. cbn [orb map newDate].
  rewrite !getTime_iso by assumption.
  cbn [Js.sort Js.insert by_time].
  unfold epoch_ms in *.
  destruct (Z.leb_spec (day_number (add_months d 4) * ms_per_day
                        - day_number (add_months d 6) * ms_per_day) 0);
    [| unfold ms_per_day in *; lia].
  cbn [Js.insert by_time].
  destruct (Z.leb_spec (day_number (add_months d 3) * ms_per_day
                        - day_number (add_months d 4) * ms_per_day) 0);
    [| unfold ms_per_day in *; lia].
  reflexivity.
Qed.

Lemma status_follows_the_three_month_date_witness :
  getDeviceStatus 1704196800000
    (of_row (Schema.mkRow (Some (mkDate 2023 10 2)) None))
  = if epoch_ms (add_months (mkDate 2023 10 2) 3) <? 1704196800000
    then "due"%string else "maintain"%string.
Proof.
  apply (status_follows_the_three_month_date 1704196800000
           (Schema.mkRow (Some (mkDate 2023 10 2)) None) (mkDate 2023 10 2)
           eq_refl eq_refl).
  - date_literal.
  - cbn. lia.
Defined.

End StatusFacts.

Module DueCardMoreFacts.
Import Calendar CalendarFacts JsFacts MapFacts DueCard DueCardFacts.

Lemma members_partition (ks : list string) : forall l,
  NoDup ks -> (forall x, In x l -> In (key x) ks) ->
  Permutation (flat_map (members l) ks) l.
Proof.
  induction l as [| x l IH]; intros D H.
  - clear D H. induction ks as [| k ks IHk]; [constructor | exact IHk].
  - assert (Hx : In (key x) ks) by (apply H; left; reflexivity).
    apply in_split in Hx. destruct Hx as (k1 & k2 & ->).
    assert (N1 : ~ In (key x) k1 /\ ~ In (key x) k2).
    { apply NoDup_remove_2 in D. split; intros I; apply D; apply in_or_app;
        [left | right]; exact I. }
    assert (E : forall ks', ~ In (key x) ks' ->
                            flat_map (members (x :: l)) ks' = flat_map (members l) ks').
    { intros ks' N. induction ks' as [| k ks' IHk]; [reflexivity |].
      cbn [flat_map]. rewrite IHk by (intros I; apply N; right; exact I).
      f_equal. unfold members. cbn [filter].
      destruct (String.eqb_spec (key x) k) as [Ek | _]; [| reflexivity].
      exfalso. apply N. left. symmetry. exact Ek. }
    rewrite flat_map_app. cbn [flat_map]. rewrite !E by apply N1.
    unfold members at 2. cbn [filter]. rewrite String.eqb_refl.
    fold (members l (key x)). cbn [app].
    apply Permutation_sym. eapply Permutation_trans.
    2:{ apply Permutation_middle. }
    apply perm_skip. apply Permutation_sym.
    specialize (IH D (fun y Hy => H y (or_intror Hy))).
    rewrite flat_map_app in IH. exact IH.
Qed.

(** X22. The due-soon card shows every device of the input once: the
    devices of its groups together are the devices of the input in another
    order, and the counts of the groups add up to their number. *)
Theorem due_soon_groups_hold_every_device devices :
  Permutation (flat_map DueCard.devices (groupedClients devices)) devices
  /\ fold_right Z.add 0 (map totalDevices (groupedClients devices))
     = Z.of_nat (List.length devices).
Proof.
  destruct (clientMap_ok devices) as [D H].
  assert (G : forall k g, In (k, g) (clientMap devices) ->
                          DueCard.devices g = members devices k
                          /\ totalDevices g = Z.of_nat (List.length (members devices k))).
  { intros k g I. specialize (H k). rewrite (In_get _ _ _ D I) in H.
    destruct H as (Em & _ & Et & _). rewrite <- Em. split; [reflexivity | exact Et]. }
  assert (P : Permutation (flat_map DueCard.devices (map snd (clientMap devices)))
                          devices).
  { assert (E : flat_map DueCard.devices (map snd (clientMap devices))
                = flat_map (members devices) (map fst (clientMap devices))).
    { clear D H. induction (clientMap devices) as [| [k g] cm IH]; [reflexivity |].
      cbn [map flat_map fst snd].
      rewrite (proj1 (G k g (or_introl eq_refl))).
      rewrite IH; [reflexivity |]. intros k' g' I. apply G. right. exact I. }
    rewrite E. apply members_partition; [exact D |].
    intros x Hx. specialize (H (key x)).
    destruct (Js.get (clientMap devices) (key x)) as [g |] eqn:Gx.
    - change (key x) with (fst (key x, g)). apply in_map. apply get_In, Gx.
    - exfalso. exact (H x Hx eq_refl). }
  assert (S : Permutation (groupedClients devices) (map snd (clientMap devices)))
    by apply sort_perm.
  split.
  - eapply Permutation_trans; [| exact P].
    apply Permutation_flat_map, S.
  - assert (T : forall gs, (forall g, In g gs ->
                             totalDevices g = Z.of_nat (List.length (DueCard.devices g))) ->
                fold_right Z.add 0 (map totalDevices gs)
                = Z.of_nat (List.length (flat_map DueCard.devices gs))).
    { induction gs as [| g gs IH]; intros Hg; [reflexivity |].
      cbn [map fold_right flat_map]. rewrite length_app, IH.
      - rewrite (Hg g (or_introl eq_refl)). lia.
      - intros g' I. apply Hg. right. exact I. }
    rewrite T.
    + f_equal. apply Permutation_length.
      eapply Permutation_trans; [apply Permutation_flat_map, S | exact P].
    + intros g Hg. exact (proj1 (proj2 (proj2 (groupedClients_group_ok devices g Hg)))).
Qed.

End DueCardMoreFacts.
